(** * RouteSim: shortest-path engine, path reconstruction and packet forwarding

    A shallow embedding of [utils/algorithms.ts] (the step-emitting Dijkstra
    and Bellman-Ford engines), of [constants.ts] and [types.ts], and of the
    path reconstruction and packet re-routing code of [App.tsx], followed by
    the properties of the specification proved (or refuted) on it. *)

From stdpp Require Import gmap strings list fin_maps.
From Stdlib Require Import ZArith Lia QArith.
Local Open Scope Z_scope.

(** ** Data model ([types.ts]) *)

(** [Node]: only [id] and [active] are read by the engine; the layout
    coordinates of the d3 datum are not part of the model. *)
Record Node := mkNode {
  node_id : string;
  node_active : bool
}.

(** [Link]: [source] and [target] are [string | Node] in the source; every
    use goes through [typeof l.source === 'string' ? l.source : l.source.id],
    so the model stores the endpoint identifier.  Weights are integers. *)
Record Link := mkLink {
  link_id : string;
  link_source : string;
  link_target : string;
  link_weight : Z;
  link_active : bool
}.

Record GraphData := mkGraph {
  nodes : list Node;
  links : list Link
}.

Inductive AlgorithmType := DIJKSTRA | BELLMAN_FORD.

(** The [description] of a step is a template string; the model keeps the
    template and its holes. *)
Inductive Description :=
| DescDijkstraStartInactive (startNodeId : string)
| DescDijkstraInit (startNodeId : string)
| DescSelected (currentId : string) (minDist : Z)
| DescDijkstraRelax (currentId neighborId : string) (alt : Z)
| DescDijkstraComplete
| DescBFStartInactive (startNodeId : string)
| DescBFInit
| DescBFRelax (iteration : nat) (from to : string) (newDist : Z)
| DescBFConverged (iteration : nat)
| DescBFComplete.

Record SimulationStep := mkStep {
  stepIndex : nat;
  description : Description;
  distances : gmap string Z;
  previous : gmap string (option string);
  activeNodes : list string;
  activeLinks : list string;
  visitedNodes : list string
}.

(** ** Constants ([constants.ts]) *)

Definition INFINITY : Z := 9999.

Definition INITIAL_GRAPH : GraphData :=
  {| nodes := [ mkNode "A" true; mkNode "B" true; mkNode "C" true;
                mkNode "D" true; mkNode "E" true; mkNode "F" true ];
     links := [ mkLink "AB" "A" "B" 4 true;
                mkLink "AC" "A" "C" 2 true;
                mkLink "BC" "B" "C" 1 true;
                mkLink "BD" "B" "D" 5 true;
                mkLink "CE" "C" "E" 8 true;
                mkLink "CD" "C" "D" 10 true;
                mkLink "DE" "D" "E" 2 true;
                mkLink "DF" "D" "F" 6 true;
                mkLink "EF" "E" "F" 3 true ] |}.

(** ** JavaScript [Set<string>]: insertion-ordered, no duplicates *)

Definition set_has (x : string) (s : list string) : bool :=
  existsb (String.eqb x) s.

Definition set_add (x : string) (s : list string) : list string :=
  if set_has x s then s else s ++ [x].

Definition set_delete (x : string) (s : list string) : list string :=
  List.filter (fun y => negb (String.eqb x y)) s.

(** ** The engine ([utils/algorithms.ts]) *)

(** [new Set(nodes.map(n => n.id))] over the active nodes; only membership
    is ever asked of it. *)
Definition activeNodeIds (data : GraphData) : list string :=
  map node_id (List.filter node_active (nodes data)).

(** The [data.nodes.forEach] that fills [distances], [previous] and
    [unvisited].

    Both tables are plain objects ([const distances: Record<string, number>
    = {}]), and an assignment does not store one key: ['__proto__'] is an
    accessor that a plain object inherits from [Object.prototype].
    Assigning a number to it does nothing, so [distances] never holds that
    key.  Assigning [null] to it sets the prototype of [previous] to [null]
    and stores nothing either; after that [previous] inherits no accessor
    any more, and a further assignment to the key creates an own property.
    The maps of the model are the own properties of the two objects;
    [nullProto] tells whether [previous] has lost its prototype.  Every
    other key, the other names of [Object.prototype] included, is stored as
    an own property. *)
Definition initNode (startNodeId : string)
    (acc : gmap string Z * gmap string (option string) * list string * bool)
    (node : Node)
  : gmap string Z * gmap string (option string) * list string * bool :=
  let '(d, p, unv, nullProto) := acc in
  let isProto := String.eqb (node_id node) "__proto__" in
  (if isProto then d
   else <[node_id node :=
            if String.eqb (node_id node) startNodeId && node_active node
            then 0 else INFINITY]> d,
   if isProto && negb nullProto then p else <[node_id node := None]> p,
   if node_active node then set_add (node_id node) unv else unv,
   nullProto || isProto).

(** [distances], [previous] and [unvisited] after the [forEach]. *)
Definition initAll (data : GraphData) (startNodeId : string)
  : gmap string Z * gmap string (option string) * list string :=
  (fold_left (initNode startNodeId) (nodes data) (∅, ∅, [], false)).1.

Record DState := mkDState {
  ds_distances : gmap string Z;
  ds_previous : gmap string (option string);
  ds_visited : list string;
  ds_unvisited : list string;
  ds_steps : list SimulationStep
}.

(** [unvisited.forEach(id => if (distances[id] < minDist) ...)].  The only
    identifier in [unvisited] that [distances] can fail to hold is
    ['__proto__']; reading it gives [Object.prototype], and [<] between it
    and a number is false. *)
Definition minStep (d : gmap string Z) (acc : option string * Z) (id : string)
  : option string * Z :=
  match d !! id with
  | Some x => if x <? snd acc then (Some id, x) else acc
  | None => acc
  end.

Definition findMin (d : gmap string Z) (unv : list string) : option string * Z :=
  fold_left (minStep d) unv (None, INFINITY).

Definition touches (currentId : string) (l : Link) : bool :=
  String.eqb (link_source l) currentId || String.eqb (link_target l) currentId.

Definition neighborOf (currentId : string) (l : Link) : string :=
  if String.eqb (link_source l) currentId then link_target l else link_source l.

(** Body of [for (const link of neighbors)].  [currentId] was selected, so
    [distances] holds it; a neighbour it does not hold is ['__proto__'],
    whose entry reads as an object, and [alt < currentDist] is false then.
    A key that is written is held already, so the write is a plain one. *)
Definition relaxNeighbor (act : list string) (currentId : string)
    (st : DState) (link : Link) : DState :=
  let neighborId := neighborOf currentId link in
  if negb (set_has neighborId act) then st
  else if set_has neighborId (ds_visited st) then st
  else
    match ds_distances st !! currentId, ds_distances st !! neighborId with
    | Some dc, Some currentDist =>
        let alt := dc + link_weight link in
        if alt <? currentDist then
          let d' := <[neighborId := alt]> (ds_distances st) in
          let p' := <[neighborId := Some currentId]> (ds_previous st) in
          mkDState d' p' (ds_visited st) (ds_unvisited st)
            (ds_steps st ++
               [mkStep (length (ds_steps st))
                  (DescDijkstraRelax currentId neighborId alt)
                  d' p' [currentId; neighborId] [link_id link] (ds_visited st)])
        else st
    | _, _ => st
    end.

(** One turn of the [while] body after a node has been selected. *)
Definition visitNode (act : list string) (lks : list Link)
    (currentId : string) (minDist : Z) (st : DState) : DState :=
  let unv := set_delete currentId (ds_unvisited st) in
  let vis := set_add currentId (ds_visited st) in
  let st1 :=
    mkDState (ds_distances st) (ds_previous st) vis unv
      (ds_steps st ++
         [mkStep (length (ds_steps st)) (DescSelected currentId minDist)
            (ds_distances st) (ds_previous st) [currentId] [] vis]) in
  fold_left (relaxNeighbor act currentId) (List.filter (touches currentId) lks) st1.

(** [while (unvisited.size > 0)].  Every turn that does not [break] deletes
    one element of [unvisited], so [length unvisited] turns are enough; the
    [fuel] argument is that bound. *)
Fixpoint dijkstraLoop (fuel : nat) (act : list string) (lks : list Link)
    (st : DState) : DState :=
  match fuel with
  | O => st
  | S fuel' =>
      match ds_unvisited st with
      | [] => st
      | _ :: _ =>
          match findMin (ds_distances st) (ds_unvisited st) with
          | (None, _) => st
          | (Some currentId, minDist) =>
              if bool_decide (ds_distances st !! currentId = Some INFINITY)
              then st
              else dijkstraLoop fuel' act lks
                     (visitNode act lks currentId minDist st)
          end
      end
  end.

Definition runDijkstra (data : GraphData) (startNodeId : string)
  : list SimulationStep :=
  let lks := List.filter link_active (links data) in
  let act := activeNodeIds data in
  let '(d, p, unv) := initAll data startNodeId in
  if negb (set_has startNodeId act) then
    [mkStep 0 (DescDijkstraStartInactive startNodeId) d p [] [] []]
  else
    let st0 :=
      mkDState d p [] unv
        [mkStep 0 (DescDijkstraInit startNodeId) d p [startNodeId] [] []] in
    let st := dijkstraLoop (length unv) act lks st0 in
    ds_steps st ++
      [mkStep (length (ds_steps st)) DescDijkstraComplete
         (ds_distances st) (ds_previous st) [] [] (ds_visited st)].

Record BState := mkBState {
  bs_distances : gmap string Z;
  bs_previous : gmap string (option string);
  bs_steps : list SimulationStep;
  bs_changed : bool
}.

(** Body of [for (const edge of edgesToCheck)]: one direction of one link,
    in outer iteration [i] (0-based).  An end point that [distances] does
    not hold is ['__proto__'] and reads as an object: as [edge.from] it
    passes [!== INFINITY] and turns the sum into a string, as [edge.to] it
    is the right operand of [<]; the comparison is false in each case. *)
Definition relaxEdge (i : nat) (link : Link) (st : BState)
    (from to : string) : BState :=
  match bs_distances st !! from, bs_distances st !! to with
  | Some df, Some dt =>
      if negb (df =? INFINITY) && (df + link_weight link <? dt) then
        let d' := <[to := df + link_weight link]> (bs_distances st) in
        let p' := <[to := Some from]> (bs_previous st) in
        mkBState d' p'
          (bs_steps st ++
             [mkStep (length (bs_steps st))
                (DescBFRelax (S i) from to (df + link_weight link))
                d' p' [from; to] [link_id link] []])
          true
      else st
  | _, _ => st
  end.

(** Body of [for (const link of links)]. *)
Definition scanLink (act : list string) (i : nat) (st : BState) (link : Link)
  : BState :=
  let u := link_source link in
  let v := link_target link in
  if negb (set_has u act) || negb (set_has v act) then st
  else relaxEdge i link (relaxEdge i link st u v) v u.

Definition scanLinks (act : list string) (lks : list Link) (i : nat)
    (st : BState) : BState :=
  fold_left (scanLink act i) lks
    (mkBState (bs_distances st) (bs_previous st) (bs_steps st) false).

(** [for (let i = 0; i < V - 1; i++)], with [remaining = V - 1 - i]. *)
Fixpoint bellmanLoop (remaining : nat) (i : nat) (act : list string)
    (lks : list Link) (st : BState) : BState :=
  match remaining with
  | O => st
  | S remaining' =>
      let st' := scanLinks act lks i st in
      if bs_changed st' then bellmanLoop remaining' (S i) act lks st'
      else
        mkBState (bs_distances st') (bs_previous st')
          (bs_steps st' ++
             [mkStep (length (bs_steps st')) (DescBFConverged (S i))
                (bs_distances st') (bs_previous st') [] [] []])
          false
  end.

Definition runBellmanFord (data : GraphData) (startNodeId : string)
  : list SimulationStep :=
  let lks := List.filter link_active (links data) in
  let act := activeNodeIds data in
  let '(d, p, _) := initAll data startNodeId in
  if negb (set_has startNodeId act) then
    [mkStep 0 (DescBFStartInactive startNodeId) d p [] [] []]
  else
    let st0 :=
      mkBState d p [mkStep 0 DescBFInit d p [startNodeId] [] []] false in
    let V := length (List.filter node_active (nodes data)) in
    let st := bellmanLoop (V - 1) 0 act lks st0 in
    bs_steps st ++
      [mkStep (length (bs_steps st)) DescBFComplete
         (bs_distances st) (bs_previous st) [] [] []].

Definition runAlgorithm (type : AlgorithmType) (data : GraphData)
    (startNodeId : string) : list SimulationStep :=
  match type with
  | DIJKSTRA => runDijkstra data startNodeId
  | BELLMAN_FORD => runBellmanFord data startNodeId
  end.

(** ** Path reconstruction and packet forwarding ([App.tsx]) *)

(** JavaScript truthiness of a string: only the empty string is falsy. *)
Definition truthy (s : string) : bool := negb (String.eqb s "").

(** The predicate of [graphData.links.find]: an undirected endpoint match.
    It does not look at [active]. *)
Definition connects (a b : string) (l : Link) : bool :=
  (String.eqb (link_source l) a && String.eqb (link_target l) b) ||
  (String.eqb (link_source l) b && String.eqb (link_target l) a).

(** [cost] is a number, or the string shown for an unreachable target. *)
Inductive Cost := CostNumber (c : Z) | CostUnreachable.

Record PathData := mkPathData {
  cost : Cost;
  pathIds : list string;
  pathString : string
}.

Fixpoint joinWith (sep : string) (l : list string) : string :=
  match l with
  | [] => ""
  | [x] => x
  | x :: rest => x +:+ sep +:+ joinWith sep rest
  end.

Definition arrow : string := " → ".

(** Loop state of the backward walk in [shortestPathData]; [ws_found] are
    the links whose identifiers have been pushed on [pathIds]. *)
Record WalkState := mkWalk {
  ws_curr : string;
  ws_found : list Link;
  ws_nodePath : list string;
  ws_safety : nat
}.

(** [while (curr !== startNode && safety < graphData.nodes.length)].  Each
    turn increments [safety], so [fuel = nodes.length] turns are enough. *)
Fixpoint walkBack (fuel : nat) (graphData : GraphData)
    (prevMap : gmap string (option string)) (startNode : string)
    (st : WalkState) : WalkState :=
  match fuel with
  | O => st
  | S fuel' =>
      if negb (String.eqb (ws_curr st) startNode)
         && (ws_safety st <? length (nodes graphData))%nat
      then
        match prevMap !! ws_curr st with
        | Some (Some prev) =>
            if truthy prev then
              let link := find (connects prev (ws_curr st)) (links graphData) in
              walkBack fuel' graphData prevMap startNode
                (mkWalk prev
                   (ws_found st ++ match link with Some l => [l] | None => [] end)
                   (prev :: ws_nodePath st)
                   (S (ws_safety st)))
            else st
        | _ => st
        end
      else st
  end.

Definition reconstruct (graphData : GraphData) (currentStep : SimulationStep)
    (startNode endNode : string) : WalkState :=
  walkBack (length (nodes graphData)) graphData (previous currentStep) startNode
    (mkWalk endNode [] [endNode] 0).

Definition shortestPathData (graphData : GraphData) (startNode : string)
    (endNode : option string) (currentStep : option SimulationStep) : PathData :=
  match endNode, currentStep with
  | Some endNode, Some currentStep =>
      if truthy endNode then
        match distances currentStep !! endNode with
        | None => mkPathData CostUnreachable [] "Unreachable"
        | Some c =>
            if c >=? INFINITY then mkPathData CostUnreachable [] "Unreachable"
            else
              let st := reconstruct graphData currentStep startNode endNode in
              mkPathData (CostNumber c) (map link_id (ws_found st))
                (joinWith arrow (ws_nodePath st))
        end
      else mkPathData (CostNumber 0) [] ""
  | _, _ => mkPathData (CostNumber 0) [] ""
  end.

Inductive PacketStatus := moving | delivered | lost.

(** [progress] and [speed] are floating-point numbers in the source; the
    model uses exact rationals. *)
Record Packet := mkPacket {
  packet_id : string;
  sourceId : string;
  targetId : string;
  currentEdgeId : option string;
  currentNodeId : string;
  nextHopId : option string;
  progress : Q;
  speed : Q;
  status : PacketStatus
}.

Definition setStatus (p : Packet) (s : PacketStatus) : Packet :=
  mkPacket (packet_id p) (sourceId p) (targetId p) (currentEdgeId p)
    (currentNodeId p) (nextHopId p) (progress p) (speed p) s.

Definition setProgress (p : Packet) (q : Q) : Packet :=
  mkPacket (packet_id p) (sourceId p) (targetId p) (currentEdgeId p)
    (currentNodeId p) (nextHopId p) q (speed p) (status p).

(** [while (curr && curr !== arrivedNodeId) { path.push(curr);
    curr = convergedStep.previous[curr]; }].  The loop has no bound of its
    own: [None] is returned when [fuel] turns were not enough. *)
Fixpoint tracePath (fuel : nat) (prevMap : gmap string (option string))
    (arrivedNodeId : string) (curr : option string) (path : list string)
  : option (list string) :=
  match fuel with
  | O => None
  | S fuel' =>
      match curr with
      | Some c =>
          if truthy c && negb (String.eqb c arrivedNodeId)
          then tracePath fuel' prevMap arrivedNodeId
                 (mjoin (prevMap !! c)) (path ++ [c])
          else Some path
      | None => Some path
      end
  end.

(** The branch of [updatePackets] taken when [newProgress >= 1], for a
    packet whose [nextHopId] is [arrivedNodeId].  No result ([None]) stands
    for the two ways the source would not return: reading [.distances] of
    an undefined last step, and a predecessor loop that outlasts [fuel].
    A lookup is the read of an own property of the step's snapshot, and a
    missing key reads as [undefined].  The keys read are the target and the
    predecessors met from it; for a target that is a node of the topology
    other than ['__proto__'] each of them is an own property.  What a read
    of an absent key inherits from [Object.prototype] (for a key such as
    ['__proto__'] or ['constructor']) is not modelled. *)
Definition routeOnArrival (fuel : nat) (algorithm : AlgorithmType)
    (graphData : GraphData) (p : Packet) (arrivedNodeId : string)
  : option Packet :=
  if String.eqb arrivedNodeId (targetId p) then
    Some (mkPacket (packet_id p) (sourceId p) (targetId p) None arrivedNodeId
            (nextHopId p) 1%Q (speed p) delivered)
  else
    let routeSteps := runAlgorithm algorithm graphData arrivedNodeId in
    match last routeSteps with
    | None => None
    | Some convergedStep =>
        if match distances convergedStep !! targetId p with
           | Some d => d >=? INFINITY
           | None => false
           end
        then Some (setProgress (setStatus p lost) 1%Q)
        else
          match tracePath fuel (previous convergedStep) arrivedNodeId
                  (Some (targetId p)) [] with
          | None => None
          | Some path =>
              match last path with
              | None => Some (setStatus p lost)
              | Some nextHop =>
                  match find (connects arrivedNodeId nextHop) (links graphData) with
                  | Some link =>
                      if link_active link then
                        Some (mkPacket (packet_id p) (sourceId p) (targetId p)
                                (Some (link_id link)) arrivedNodeId (Some nextHop)
                                0%Q (speed p) (status p))
                      else Some (setStatus p lost)
                  | None => Some (setStatus p lost)
                  end
              end
          end
    end.

(** The callback of [prevPackets.map].  [p.nextHopId!] is a non-null
    assertion, erased at run time.  Both places that build a moving packet
    give it a next hop; were it [null], it would equal neither the target
    nor an endpoint of any link, and the run from it would be the
    one-step trace with every node at the sentinel: the packet is lost,
    with progress 1 when the target is a node of the topology that
    [distances] has an entry for.  [progress], [speed] and [delta] are
    rationals, so the sum and its comparison with 1 are exact, where the
    source computes them in binary64: there a sum just below 1 can round
    up to 1. *)
Definition updatePacket (fuel : nat) (algorithm : AlgorithmType)
    (graphData : GraphData) (delta : Q) (p : Packet) : option Packet :=
  match status p with
  | moving =>
      let newProgress := (progress p + speed p * delta)%Q in
      if Qle_bool 1 newProgress then
        match nextHopId p with
        | Some arrivedNodeId =>
            routeOnArrival fuel algorithm graphData p arrivedNodeId
        | None =>
            if set_has (targetId p) (map node_id (nodes graphData)) &&
               negb (String.eqb (targetId p) "__proto__")
            then Some (setProgress (setStatus p lost) 1%Q)
            else Some (setStatus p lost)
        end
      else Some (setProgress p newProgress)
  | _ => Some p
  end.

Definition isMoving (p : Packet) : bool :=
  match status p with moving => true | _ => false end.

(** The state update of [updatePackets]: map, then keep the moving ones.
    [algorithm] and [graphData] are the values the callback closed over.
    The callback re-schedules itself with [requestAnimationFrame]; which
    render's values a running callback holds is not part of this
    function. *)
Definition updatePackets (fuel : nat) (algorithm : AlgorithmType)
    (graphData : GraphData) (delta : Q) (prevPackets : list Packet)
  : option (list Packet) :=
  List.filter isMoving <$> mapM (updatePacket fuel algorithm graphData delta) prevPackets.

(** ** State and handlers of the [App] component ([App.tsx]) *)

(** The [useState] cells the handlers below read or write.  The timing
    cells ([computeTime], [playbackSpeed], [isGenerating]) are left out. *)
Record AppState := mkApp {
  app_graphData : GraphData;
  app_startNode : string;
  app_endNode : option string;
  app_editMode : bool;
  app_algorithm : AlgorithmType;
  app_steps : list SimulationStep;
  app_currentStepIndex : nat;
  app_packets : list Packet;
  app_isPlaying : bool
}.

(** The effect on [graphData, algorithm, startNode]: run the engine, store
    the trace, and pull [currentStepIndex] back inside it.  A trace has at
    least one step, so [newSteps.length - 1] is a natural number. *)
Definition runEffect (s : AppState) : AppState :=
  let newSteps := runAlgorithm (app_algorithm s) (app_graphData s) (app_startNode s) in
  mkApp (app_graphData s) (app_startNode s) (app_endNode s) (app_editMode s)
    (app_algorithm s) newSteps
    (if (length newSteps <=? app_currentStepIndex s)%nat
     then (length newSteps - 1)%nat else app_currentStepIndex s)
    (app_packets s) (app_isPlaying s).

(** [steps[currentStepIndex] || null]. *)
Definition currentStep (s : AppState) : option SimulationStep :=
  app_steps s !! app_currentStepIndex s.

(** One firing of the playback interval, which exists only while
    [isPlaying].  [prev < steps.length - 1] is written without the
    subtraction, so that an empty trace compares as in the source. *)
Definition playbackTick (s : AppState) : AppState :=
  if app_isPlaying s then
    if (S (app_currentStepIndex s) <? length (app_steps s))%nat then
      mkApp (app_graphData s) (app_startNode s) (app_endNode s) (app_editMode s)
        (app_algorithm s) (app_steps s) (S (app_currentStepIndex s))
        (app_packets s) true
    else
      mkApp (app_graphData s) (app_startNode s) (app_endNode s) (app_editMode s)
        (app_algorithm s) (app_steps s) (app_currentStepIndex s)
        (app_packets s) false
  else s.

(** [onNext], [onPrev], [onReset] and [onPlayPause] of the control panel. *)
Definition onNext (s : AppState) : AppState :=
  if (S (app_currentStepIndex s) <? length (app_steps s))%nat then
    mkApp (app_graphData s) (app_startNode s) (app_endNode s) (app_editMode s)
      (app_algorithm s) (app_steps s) (S (app_currentStepIndex s))
      (app_packets s) (app_isPlaying s)
  else s.

Definition onPrev (s : AppState) : AppState :=
  if (0 <? app_currentStepIndex s)%nat then
    mkApp (app_graphData s) (app_startNode s) (app_endNode s) (app_editMode s)
      (app_algorithm s) (app_steps s) (app_currentStepIndex s - 1)%nat
      (app_packets s) (app_isPlaying s)
  else s.

Definition onReset (s : AppState) : AppState :=
  mkApp (app_graphData s) (app_startNode s) (app_endNode s) (app_editMode s)
    (app_algorithm s) (app_steps s) 0%nat (app_packets s) false.

Definition onPlayPause (s : AppState) : AppState :=
  mkApp (app_graphData s) (app_startNode s) (app_endNode s) (app_editMode s)
    (app_algorithm s) (app_steps s) (app_currentStepIndex s) (app_packets s)
    (negb (app_isPlaying s)).

(** [n.id === nodeId ? { ...n, active: !n.active } : n]. *)
Definition toggleNode (nodeId : string) (n : Node) : Node :=
  if String.eqb (node_id n) nodeId then mkNode (node_id n) (negb (node_active n)) else n.

Definition handleNodeClick (nodeId : string) (isShift : bool) (s : AppState)
  : AppState :=
  if app_editMode s then
    mkApp (mkGraph (map (toggleNode nodeId) (nodes (app_graphData s)))
             (links (app_graphData s)))
      (app_startNode s) (app_endNode s) (app_editMode s) (app_algorithm s)
      (app_steps s) (app_currentStepIndex s) (app_packets s) (app_isPlaying s)
  else if isShift then
    mkApp (app_graphData s) (app_startNode s)
      (if bool_decide (app_endNode s = Some nodeId) then None else Some nodeId)
      (app_editMode s) (app_algorithm s) (app_steps s) (app_currentStepIndex s)
      (app_packets s) (app_isPlaying s)
  else
    mkApp (app_graphData s) nodeId
      (if bool_decide (app_endNode s = Some nodeId) then None else app_endNode s)
      (app_editMode s) (app_algorithm s) (app_steps s) 0%nat
      (app_packets s) false.

(** [l.id === linkId ? { ...l, weight: newWeight } : l]. *)
Definition setWeight (linkId : string) (newWeight : Z) (l : Link) : Link :=
  if String.eqb (link_id l) linkId
  then mkLink (link_id l) (link_source l) (link_target l) newWeight (link_active l)
  else l.

(** [handleLinkClick].  [answer] is what [window.prompt] returned ([None]
    for a cancelled dialog) and [parseInt] is the browser's function, with
    [None] for [NaN]; both are parameters. *)
Definition handleLinkClick (parseInt : string → option Z) (linkId : string)
    (answer : option string) (s : AppState) : AppState :=
  if app_editMode s then
    match find (fun l => String.eqb (link_id l) linkId) (links (app_graphData s)) with
    | None => s
    | Some _ =>
        match answer with
        | None => s
        | Some newWeightStr =>
            match parseInt newWeightStr with
            | Some newWeight =>
                if 0 <? newWeight then
                  mkApp (mkGraph (nodes (app_graphData s))
                           (map (setWeight linkId newWeight) (links (app_graphData s))))
                    (app_startNode s) (app_endNode s) (app_editMode s)
                    (app_algorithm s) (app_steps s) (app_currentStepIndex s)
                    (app_packets s) (app_isPlaying s)
                else s
            | None => s
            end
        end
    end
  else s.

(** What [handleGenerateTopology] does with the answer of
    [generateTopology] ([None] for [null]): every node and link of the new
    graph is made active, the first node becomes the start node, the end
    node and the packets are cleared. *)
Definition handleGenerateTopology (newGraph : option GraphData) (s : AppState)
  : AppState :=
  match newGraph with
  | Some g =>
      let ns := map (fun n => mkNode (node_id n) true) (nodes g) in
      let ls := map (fun l => mkLink (link_id l) (link_source l) (link_target l)
                                (link_weight l) true) (links g) in
      match ns with
      | first :: _ =>
          mkApp (mkGraph ns ls) (node_id first) None (app_editMode s)
            (app_algorithm s) (app_steps s) (app_currentStepIndex s) []
            (app_isPlaying s)
      | [] =>
          mkApp (mkGraph ns ls) (app_startNode s) (app_endNode s) (app_editMode s)
            (app_algorithm s) (app_steps s) (app_currentStepIndex s) []
            (app_isPlaying s)
      end
  | None => s
  end.

(** The random values one turn of the loop of [handleSendTraffic] consumes:
    the two indices (the second after the re-draw loop has made it differ
    from the first), the packet identifier and the speed. *)
Record Draw := mkDraw {
  draw_src : nat;
  draw_tgt : nat;
  draw_id : string;
  draw_speed : Q
}.

(** One turn of [for (let i = 0; i < 5; i++)]: [Some None] when the turn
    pushes nothing, no result for draws the source cannot make (equal
    indices, an index outside [activeNodes]) or when the source would not
    return (a predecessor loop that outlasts [fuel]). *)
Definition spawnPacket (fuel : nat) (algorithm : AlgorithmType)
    (graphData : GraphData) (dr : Draw) : option (option Packet) :=
  let activeNodes := List.filter node_active (nodes graphData) in
  if (draw_src dr =? draw_tgt dr)%nat then None else
  match activeNodes !! draw_src dr, activeNodes !! draw_tgt dr with
  | Some src, Some tgt =>
      match last (runAlgorithm algorithm graphData (node_id src)) with
      | None => None
      | Some converged =>
          if match distances converged !! node_id tgt with
             | Some d => d >=? INFINITY
             | None => false
             end
          then Some None
          else
            match tracePath fuel (previous converged) (node_id src)
                    (Some (node_id tgt)) [] with
            | None => None
            | Some path =>
                match last path with
                | None => Some None
                | Some nextHop =>
                    match find (connects (node_id src) nextHop) (links graphData) with
                    | Some link =>
                        Some (Some (mkPacket (draw_id dr) (node_id src) (node_id tgt)
                                      (Some (link_id link)) (node_id src)
                                      (Some nextHop) 0%Q (draw_speed dr) moving))
                    | None => Some None
                    end
                end
            end
      end
  | _, _ => None
  end.

(** [handleSendTraffic], given the draws of its (five) turns. *)
Definition handleSendTraffic (fuel : nat) (draws : list Draw) (s : AppState)
  : option AppState :=
  if (length (List.filter node_active (nodes (app_graphData s))) <? 2)%nat
  then Some s
  else
    newPackets ← mapM (spawnPacket fuel (app_algorithm s) (app_graphData s)) draws;
    Some (mkApp (app_graphData s) (app_startNode s) (app_endNode s) (app_editMode s)
            (app_algorithm s) (app_steps s) (app_currentStepIndex s)
            (app_packets s ++ omap id newPackets) (app_isPlaying s)).

(** * Definitions used by the properties *)

(** The initialisation with the node list as a parameter: the state of
    the [forEach], and its three tables. *)
Definition initRaw (startNodeId : string) (ns : list Node)
  : gmap string Z * gmap string (option string) * list string * bool :=
  fold_left (initNode startNodeId) ns (∅, ∅, [], false).

Definition initFold (startNodeId : string) (ns : list Node)
  : gmap string Z * gmap string (option string) * list string :=
  (initRaw startNodeId ns).1.

(** ** Consecutive steps of a trace *)

(** What C7 asks of two consecutive steps. *)
Definition prevChangeDecreases (s1 s2 : SimulationStep) : Prop :=
  ∀ v, previous s1 !! v ≠ previous s2 !! v →
       ∃ d1 d2, distances s1 !! v = Some d1 ∧ distances s2 !! v = Some d2 ∧ d2 < d1.

(** [P] relates every two neighbouring steps of the trace [l]. *)
Definition consecutive (P : SimulationStep → SimulationStep → Prop)
    (l : list SimulationStep) : Prop :=
  ∀ pre s1 s2 post, l = pre ++ s1 :: s2 :: post → P s1 s2.

(** The trace is in step with the tables it snapshots. *)
Definition synced (st : DState) : Prop :=
  ∃ sl, last (ds_steps st) = Some sl ∧
        distances sl = ds_distances st ∧ previous sl = ds_previous st.

(** Invariant of the Dijkstra loop for C7. *)
Definition traceInv (st : DState) : Prop :=
  consecutive prevChangeDecreases (ds_steps st) ∧ synced st.

(** ** The Bellman-Ford run as the specification words it *)

(** The run as the specification words it, without the trace: tables, a
    count of relaxations, and the outer iterations. *)
Module BFSpec.

Record Tables := mkTables {
  dist : gmap string Z;
  pred : gmap string (option string);
  relaxations : nat
}.

(** One attempted relaxation [from -> to] over a link of weight [w]: the
    source must not be at the sentinel and the comparison is strict. *)
Definition attempt (w : Z) (from to : string) (t : Tables) : Tables :=
  match dist t !! from, dist t !! to with
  | Some df, Some dt =>
      if bool_decide (df ≠ INFINITY ∧ df + w < dt)
      then mkTables (<[to := df + w]> (dist t)) (<[to := Some from]> (pred t))
             (S (relaxations t))
      else t
  | _, _ => t
  end.

(** An active link whose both endpoints are active nodes. *)
Definition scanned (data : GraphData) (l : Link) : bool :=
  link_active l
  && bool_decide (link_source l ∈ activeNodeIds data)
  && bool_decide (link_target l ∈ activeNodeIds data).

(** One outer iteration: every scanned link, both directions. *)
Definition iteration (data : GraphData) (t : Tables) : Tables :=
  fold_left
    (fun t l =>
       if scanned data l
       then attempt (link_weight l) (link_target l) (link_source l)
              (attempt (link_weight l) (link_source l) (link_target l) t)
       else t)
    (links data) (mkTables (dist t) (pred t) 0).

Record Run := mkRun {
  final : Tables;        (* tables at the end; total relaxations *)
  iterations : nat;      (* outer iterations performed *)
  converged : bool       (* the last one performed relaxed nothing *)
}.

(** At most [budget] iterations; the first one without a relaxation is
    the last. *)
Fixpoint iterate (budget : nat) (data : GraphData) (t : Tables) : Run :=
  match budget with
  | O => mkRun t 0 false
  | S budget' =>
      let t' := iteration data t in
      if (relaxations t' =? 0)%nat
      then mkRun (mkTables (dist t') (pred t') (relaxations t)) 1 true
      else
        let r := iterate budget' data
                   (mkTables (dist t') (pred t') (relaxations t + relaxations t')) in
        mkRun (final r) (S (iterations r)) (converged r)
  end.

End BFSpec.

(** A relaxation step of the Bellman-Ford trace. *)
Definition isBFRelaxStep (s : SimulationStep) : Prop :=
  ∃ i from to x lid,
    description s = DescBFRelax i from to x ∧
    distances s !! to = Some x ∧ previous s !! to = Some (Some from) ∧
    activeNodes s = [from; to] ∧ activeLinks s = [lid] ∧ visitedNodes s = [].

(** The code state [st] extends the trace [base] by [relaxations t] steps
    and holds the tables of [t]. *)
Definition bfMatches (base : list SimulationStep) (st : BState) (t : BFSpec.Tables) : Prop :=
  bs_distances st = BFSpec.dist t ∧ bs_previous st = BFSpec.pred t ∧
  ∃ rs, bs_steps st = base ++ rs ∧ length rs = BFSpec.relaxations t ∧
        Forall isBFRelaxStep rs.

(** ** Paths over the active part of a topology *)

(** [l] joins [u] and [v], in either direction. *)
Definition joins (l : Link) (u v : string) : Prop :=
  (link_source l = u ∧ link_target l = v) ∨ (link_source l = v ∧ link_target l = u).

(** The nodes the engine can route through: the active ones whose
    identifier [distances] can hold. *)
Definition routableIds (data : GraphData) : list string :=
  List.filter (fun v => negb (String.eqb v "__proto__")) (activeNodeIds data).

(** An active link of weight [c] between the routable nodes [u] and [v]. *)
Definition edge (data : GraphData) (u v : string) (c : Z) : Prop :=
  ∃ l, l ∈ links data ∧ link_active l = true ∧ joins l u v ∧ link_weight l = c ∧
       u ∈ routableIds data ∧ v ∈ routableIds data.

(** [walk data s k v w]: a path of [k] active links through routable nodes
    from [s] to [v], of total weight [w]. *)
Inductive walk (data : GraphData) (s : string) : nat → string → Z → Prop :=
| walk_start : s ∈ routableIds data → walk data s 0 s 0
| walk_step k u v w c :
    walk data s k u w → edge data u v c → walk data s (S k) v (w + c).

(** ** Invariants of the two variants *)

Section Invariants.

Variable data : GraphData.
Variable start : string.

Local Abbreviation act := (activeNodeIds data).

(** The invariant both variants keep on [distances] and [previous]: entries
    lie between 0 and the sentinel; an entry below the sentinel is the
    weight of a path from the start node; the start node is at 0; the keys
    are the node identifiers a table can hold; a predecessor entry is backed
    by an active
    link that the two distances respect; and every node below the sentinel
    other than the start node has a predecessor. *)
Record tablesInv (d : gmap string Z) (p : gmap string (option string)) : Prop := {
  ti_range : ∀ v x, d !! v = Some x → 0 ≤ x ≤ INFINITY;
  ti_sound : ∀ v x, d !! v = Some x → x < INFINITY → ∃ k, walk data start k v x;
  ti_start : d !! start = Some 0;
  ti_dom : ∀ v, is_Some (d !! v) ↔ v ∈ map node_id (nodes data) ∧ v ≠ "__proto__";
  ti_prev : ∀ v u, p !! v = Some (Some u) →
              ∃ c du dv, edge data u v c ∧ d !! u = Some du ∧ d !! v = Some dv ∧
                         du + c ≤ dv ∧ dv < INFINITY;
  ti_prev_some : ∀ v x, d !! v = Some x → x < INFINITY → v ≠ start →
                   ∃ u, p !! v = Some (Some u)
}.

(** The link [l] out of [x] cannot improve the table any more. *)
Definition relaxedOver (d : gmap string Z) (x : string) (l : Link) : Prop :=
  ∀ y dx dy, joins l x y → y ∈ act → d !! x = Some dx → d !! y = Some dy →
             dy ≤ dx + link_weight l.

(** All links selected by [Q] out of visited nodes are relaxed. *)
Definition relaxedWhere (Q : string → Link → Prop) (st : DState) : Prop :=
  ∀ x l, x ∈ ds_visited st → l ∈ links data → link_active l = true → Q x l →
         relaxedOver (ds_distances st) x l.

(** The invariant of the [while] loop of [runDijkstra]: visited and
    unvisited partition the active identifiers, visited entries are no
    larger than unvisited ones, and an entry below the sentinel is the
    weight of a path with no more links than there are visited nodes (fewer,
    for a visited node). *)
Record dijkInv (st : DState) : Prop := {
  di_tables : tablesInv (ds_distances st) (ds_previous st);
  di_nodup : NoDup (ds_visited st);
  di_cover : ∀ v, v ∈ act ↔ v ∈ ds_visited st ∨ v ∈ ds_unvisited st;
  di_disj : ∀ v, v ∈ ds_visited st → v ∉ ds_unvisited st;
  di_order : ∀ x y dx dy, x ∈ ds_visited st → y ∈ ds_unvisited st →
               ds_distances st !! x = Some dx → ds_distances st !! y = Some dy →
               dx ≤ dy;
  di_hops : ∀ v x, ds_distances st !! v = Some x → x < INFINITY →
              ∃ k, walk data start k v x ∧ (k ≤ length (ds_visited st))%nat ∧
                   (v ∈ ds_visited st → (k < length (ds_visited st))%nat)
}.

(** While the links of [cur] are being scanned ([done] so far). *)
Record innerInv (cur : string) (done : list Link) (st : DState) : Prop := {
  ii_inv : dijkInv st;
  ii_cur : cur ∈ ds_visited st;
  ii_max : ∃ dc, ds_distances st !! cur = Some dc ∧ dc < INFINITY ∧
                 ∀ x dx, x ∈ ds_visited st → ds_distances st !! x = Some dx → dx ≤ dc;
  ii_relaxed : relaxedWhere (fun x l => x ≠ cur ∨ l ∈ done) st
}.

(** Between two turns of the [while] loop. *)
Definition outerInv (st : DState) : Prop :=
  dijkInv st ∧ relaxedWhere (fun _ _ => True) st.

(** The state in which the [while] loop of [runDijkstra] ends. *)
Definition dijkstraFinal : DState :=
  let d := (initAll data start).1.1 in
  let p := (initAll data start).1.2 in
  let unv := (initAll data start).2 in
  dijkstraLoop (length unv) act (List.filter link_active (links data))
    (mkDState d p [] unv [mkStep 0 (DescDijkstraInit start) d p [start] [] []]).

(** [d'] is pointwise at most [d]. *)
Definition below (d' d : gmap string Z) : Prop :=
  ∀ v x, d !! v = Some x → ∃ x', d' !! v = Some x' ∧ x' ≤ x.

(** What one attempted relaxation achieves. *)
Record attempted (l : Link) (from to : string) (st st' : BState) : Prop := {
  at_tables : tablesInv (bs_distances st') (bs_previous st');
  at_below : below (bs_distances st') (bs_distances st);
  at_edge : to ∈ routableIds data →
            ∀ df, bs_distances st !! from = Some df → df < INFINITY →
              ∃ dt, bs_distances st' !! to = Some dt ∧ dt ≤ df + link_weight l;
  at_quiet : bs_changed st' = false → st' = st;
  at_loud : bs_changed st = true → bs_changed st' = true
}.

(** What scanning a list of links achieves. *)
Record scannedOver (ls : list Link) (st st' : BState) : Prop := {
  sc_tables : tablesInv (bs_distances st') (bs_previous st');
  sc_below : below (bs_distances st') (bs_distances st);
  sc_edge : ∀ l u v du, l ∈ ls → joins l u v →
              u ∈ routableIds data → v ∈ routableIds data →
              bs_distances st !! u = Some du → du < INFINITY →
              ∃ dv, bs_distances st' !! v = Some dv ∧ dv ≤ du + link_weight l;
  sc_quiet : bs_changed st' = false → st' = st;
  sc_loud : bs_changed st = true → bs_changed st' = true
}.

(** Every path of at most [k] links and weight below the sentinel is
    matched by the table. *)
Definition reached (k : nat) (d : gmap string Z) : Prop :=
  ∀ j v w, (j ≤ k)%nat → walk data start j v w → w < INFINITY →
           ∃ dv, d !! v = Some dv ∧ dv ≤ w.

(** The state in which the outer loop of [runBellmanFord] ends. *)
Definition bellmanFinal : BState :=
  let d := (initAll data start).1.1 in
  let p := (initAll data start).1.2 in
  bellmanLoop (length (List.filter node_active (nodes data)) - 1) 0 act
    (List.filter link_active (links data))
    (mkBState d p [mkStep 0 DescBFInit d p [start] [] []] false).

End Invariants.

(** Every entry is at the sentinel. *)
Definition allUnreachable (d : gmap string Z) : Prop :=
  ∀ v x, d !! v = Some x → x = INFINITY.

(** What the final step of a run holds, when initialisation put the start
    node at [0]: the shared invariant, and no path below the sentinel beats
    an entry. *)
Definition convergedTables (data : GraphData) (start : string)
    (d : gmap string Z) (p : gmap string (option string)) : Prop :=
  tablesInv data start d p ∧
  ∀ k v w, walk data start k v w → w < INFINITY → ∃ dv, d !! v = Some dv ∧ dv ≤ w.

(** Total weight of a list of links. *)
Definition sumWeights (ls : list Link) : Z :=
  fold_right (fun l acc => link_weight l + acc) 0 ls.

(** A link the engine may route over. *)
Definition usable (data : GraphData) (l : Link) : Prop :=
  l ∈ links data ∧ link_active l = true.

(** Along a predecessor entry the distance strictly decreases and stays
    non-negative. *)
Definition descending (d : gmap string Z) (p : gmap string (option string)) : Prop :=
  ∀ v u, p !! v = Some (Some u) →
         ∃ du dv, d !! u = Some du ∧ d !! v = Some dv ∧ 0 ≤ du < dv.

(** [hopsTo prevMap arrived c h]: following predecessors from [c] through
    non-empty identifiers other than [arrived], [h] is the last one met:
    its own predecessor is missing, empty, or [arrived]. *)
Inductive hopsTo (prevMap : gmap string (option string)) (arrived : string)
  : string → string → Prop :=
| hops_last c :
    truthy c = true → c ≠ arrived →
    (∀ x, mjoin (prevMap !! c) = Some x → truthy x = false ∨ x = arrived) →
    hopsTo prevMap arrived c c
| hops_more c x h :
    truthy c = true → c ≠ arrived →
    mjoin (prevMap !! c) = Some x → hopsTo prevMap arrived x h →
    hopsTo prevMap arrived c h.

(** ** Fixtures *)

(** Three nodes in a line. *)
Definition cycleGraph : GraphData :=
  {| nodes := [mkNode "A" true; mkNode "B" true; mkNode "C" true];
     links := [mkLink "AB" "A" "B" 1 true; mkLink "BC" "B" "C" 1 true] |}.

(** A step whose [previous] pointers were tampered with into a cycle. *)
Definition cycleStep : SimulationStep :=
  mkStep 3 DescDijkstraComplete
    (list_to_map [("A", 0); ("B", 1); ("C", 2)])
    (list_to_map [("A", None); ("B", Some "C"); ("C", Some "B")])
    [] [] ["A"; "B"; "C"].

(** Two nodes, one link heavier than the sentinel. *)
Definition farGraph : GraphData :=
  {| nodes := [mkNode "A" true; mkNode "B" true];
     links := [mkLink "AB" "A" "B" 10000 true] |}.

(** Two nodes joined by two links of different weights. *)
Definition parallelGraph : GraphData :=
  {| nodes := [mkNode "A" true; mkNode "B" true];
     links := [mkLink "slow" "A" "B" 5 true; mkLink "fast" "A" "B" 1 true] |}.

(** [B] and [C] are joined by a failed link and, listed after it, by a
    working one. *)
Definition detourGraph : GraphData :=
  {| nodes := [mkNode "A" true; mkNode "B" true; mkNode "C" true];
     links := [mkLink "AB" "A" "B" 1 true;
               mkLink "BC-down" "B" "C" 1 false;
               mkLink "BC-up" "B" "C" 1 true] |}.

(** A packet for [C], about to arrive at [B]. *)
Definition detourPacket : Packet :=
  mkPacket "p" "A" "C" (Some "AB") "A" (Some "B") (9 # 10) 1 moving.

(** A packet for [F] on the initial graph, about to arrive at [C]. *)
Definition transitPacket : Packet :=
  mkPacket "p" "A" "F" (Some "AC") "A" (Some "C") (9 # 10) 1 moving.

(** ** How one step of a trace follows from the one before *)

(** The later step differs by one relaxation: the entry of an active node
    that is not (yet) visited went strictly down and got a predecessor. *)
Definition relaxesTo (data : GraphData) (s1 s2 : SimulationStep) : Prop :=
  ∃ from to x old,
    to ∈ activeNodeIds data ∧ (to ∉ visitedNodes s2) ∧
    distances s1 !! to = Some old ∧ x < old ∧
    distances s2 = <[to := x]> (distances s1) ∧
    previous s2 = <[to := Some from]> (previous s1).

Definition stepRel (data : GraphData) (s1 s2 : SimulationStep) : Prop :=
  stepIndex s2 = S (stepIndex s1) ∧
  (visitedNodes s1 `prefix_of` visitedNodes s2) ∧
  NoDup (visitedNodes s2) ∧
  ((distances s2 = distances s1 ∧ previous s2 = previous s1) ∨ relaxesTo data s1 s2).

(** The last step pushed is a snapshot of the current tables. *)
Definition snapshot (steps : list SimulationStep) (d : gmap string Z)
    (p : gmap string (option string)) (vis : list string) : Prop :=
  ∃ sl, last steps = Some sl ∧ distances sl = d ∧ previous sl = p ∧
        visitedNodes sl = vis ∧ S (stepIndex sl) = length steps.

(** A trace under construction: it starts with [s0], neighbouring steps
    are related by [stepRel], and its last step is a snapshot. *)
Definition traceOk (data : GraphData) (s0 : SimulationStep)
    (steps : list SimulationStep) (d : gmap string Z)
    (p : gmap string (option string)) (vis : list string) : Prop :=
  head steps = Some s0 ∧ consecutive (stepRel data) steps ∧ NoDup vis ∧
  snapshot steps d p vis.

(** [traceOk] on the state of either loop. *)
Definition dTraceOk data s0 (st : DState) : Prop :=
  traceOk data s0 (ds_steps st) (ds_distances st) (ds_previous st) (ds_visited st).

Definition bTraceOk data s0 (st : BState) : Prop :=
  traceOk data s0 (bs_steps st) (bs_distances st) (bs_previous st) [].

(** The first step of every trace. *)
Definition firstStepOk (data : GraphData) (start : string) (s0 : SimulationStep) : Prop :=
  stepIndex s0 = 0%nat ∧ distances s0 = (initAll data start).1.1 ∧
  previous s0 = (initAll data start).1.2 ∧ visitedNodes s0 = [].

(** The keys of both tables are node identifiers, and every node
    identifier other than ['__proto__'] is a key of both; [distances]
    never holds ['__proto__']. *)
Definition keysAreNodes (data : GraphData) (s : SimulationStep) : Prop :=
  ∀ v, (is_Some (distances s !! v) ↔ v ∈ map node_id (nodes data) ∧ v ≠ "__proto__") ∧
       (is_Some (previous s !! v) → v ∈ map node_id (nodes data)) ∧
       (v ∈ map node_id (nodes data) → v ≠ "__proto__" → is_Some (previous s !! v)).

(** Nodes outside the active set, ['__proto__'] apart, are at the sentinel,
    without predecessor. *)
Definition inactiveUntouched (data : GraphData) (s : SimulationStep) : Prop :=
  ∀ v, v ∈ map node_id (nodes data) → v ∉ activeNodeIds data → v ≠ "__proto__" →
       distances s !! v = Some INFINITY ∧ previous s !! v = Some None.

(** Invariant of the Dijkstra loop on any topology: visited nodes are below
    the sentinel, only active nodes are below it, and every active node is
    visited or still unvisited. *)
Definition visitedBelow (data : GraphData) (st : DState) : Prop :=
  (∀ v, v ∈ ds_visited st → ∃ x, ds_distances st !! v = Some x ∧ x < INFINITY) ∧
  (∀ v x, ds_distances st !! v = Some x → x < INFINITY → v ∈ activeNodeIds data) ∧
  (∀ v, v ∈ activeNodeIds data → v ∈ ds_visited st ∨ v ∈ ds_unvisited st).

(** What a packet keeps for its whole life. *)
Definition flow (p : Packet) : string * string * string * Q :=
  (packet_id p, sourceId p, targetId p, speed p).

(** Turns of fuel that suffice for the predecessor loops when weights are
    strictly positive: distances below the sentinel strictly decrease
    along predecessors. *)
Definition enoughFuel : nat := Z.to_nat INFINITY + 2.

(** Draws [handleSendTraffic] can make: two different positions of
    [activeNodes]. *)
Definition validDraw (data : GraphData) (dr : Draw) : Prop :=
  draw_src dr ≠ draw_tgt dr ∧
  (draw_src dr < length (List.filter node_active (nodes data)))%nat ∧
  (draw_tgt dr < length (List.filter node_active (nodes data)))%nat.

(** What [handleSendTraffic] pushes: a moving packet at progress [0],
    sitting on its source node, on the link the first search finds between
    that node and its next hop. *)
Definition freshPacket (data : GraphData) (p : Packet) : Prop :=
  status p = moving ∧ progress p = 0%Q ∧ currentNodeId p = sourceId p ∧
  sourceId p ∈ activeNodeIds data ∧ targetId p ∈ activeNodeIds data ∧
  ∃ l h, nextHopId p = Some h ∧ currentEdgeId p = Some (link_id l) ∧
         h ≠ sourceId p ∧
         find (connects (sourceId p) h) (links data) = Some l.

(** The visited list is in non-decreasing order of distance. *)
Definition visitedInOrder (d : gmap string Z) (vis : list string) : Prop :=
  ∀ i j x y dx dy, (i ≤ j)%nat → vis !! i = Some x → vis !! j = Some y →
                   d !! x = Some dx → d !! y = Some dy → dx ≤ dy.

(** * Properties *)

(** ** Basic facts on the set model and on initialisation *)

Lemma set_has_true (x : string) (s : list string) : set_has x s = true ↔ x ∈ s.
Proof.
  unfold set_has. rewrite existsb_exists. split.
  - intros (y & Hy & He). apply String.eqb_eq in He. subst.
    by apply list_elem_of_In.
  - intros H. exists x. split; [by apply list_elem_of_In | apply String.eqb_refl].
Qed.

Lemma set_has_false (x : string) (s : list string) : set_has x s = false ↔ x ∉ s.
Proof.
  rewrite <- set_has_true. destruct (set_has x s); split; congruence.
Qed.

Lemma elem_of_set_add (x y : string) (s : list string) :
  y ∈ set_add x s ↔ y = x ∨ y ∈ s.
Proof.
  unfold set_add. destruct (set_has x s) eqn:E.
  - apply set_has_true in E. split; [auto | intros [->|]; auto].
  - rewrite elem_of_app, list_elem_of_singleton. tauto.
Qed.

Lemma NoDup_set_add (x : string) (s : list string) : NoDup s → NoDup (set_add x s).
Proof.
  intros H. unfold set_add. destruct (set_has x s) eqn:E; [done |].
  apply set_has_false in E. apply NoDup_app. split_and!; [done | | apply NoDup_singleton].
  intros y Hy Hx. apply list_elem_of_singleton in Hx. by subst.
Qed.

Lemma elem_of_set_delete (x y : string) (s : list string) :
  y ∈ set_delete x s ↔ y ≠ x ∧ y ∈ s.
Proof.
  unfold set_delete. rewrite !list_elem_of_In, filter_In.
  rewrite negb_true_iff, String.eqb_neq. split; intros []; split; auto.
Qed.

Lemma NoDup_set_delete (x : string) (s : list string) : NoDup s → NoDup (set_delete x s).
Proof.
  intros H. unfold set_delete. apply NoDup_ListNoDup.
  apply List.NoDup_filter. by apply NoDup_ListNoDup.
Qed.

Lemma length_set_delete (x : string) (s : list string) :
  x ∈ s → (length (set_delete x s) < length s)%nat.
Proof.
  unfold set_delete. induction s as [|y s IH]; intros Hx.
  - by apply elem_of_nil in Hx.
  - simpl. destruct (String.eqb x y) eqn:E; simpl.
    + pose proof (List.filter_length_le (λ y0, negb (x =? y0)%string) s). lia.
    + apply String.eqb_neq in E. apply elem_of_cons in Hx as [->|Hx]; [done|].
      specialize (IH Hx). lia.
Qed.

Lemma elem_of_activeNodeIds (data : GraphData) (x : string) :
  x ∈ activeNodeIds data ↔ ∃ n, n ∈ nodes data ∧ node_id n = x ∧ node_active n = true.
Proof.
  unfold activeNodeIds. rewrite list_elem_of_fmap. split.
  - intros (n & -> & Hn). apply list_elem_of_In, filter_In in Hn as [Hn Ha].
    exists n. by rewrite list_elem_of_In.
  - intros (n & Hn & <- & Ha). exists n. split; [done|].
    apply list_elem_of_In, filter_In. by rewrite <- list_elem_of_In.
Qed.

Lemma initRaw_snoc (s : string) (ns : list Node) (n : Node) :
  initRaw s (ns ++ [n]) = initNode s (initRaw s ns) n.
Proof. unfold initRaw. by rewrite fold_left_app. Qed.

(** One more node, on the three tables. *)
Lemma initFold_snoc (s : string) (ns : list Node) (n : Node) :
  ∃ d p unv b,
    initRaw s ns = (d, p, unv, b) ∧ initFold s ns = (d, p, unv) ∧
    initFold s (ns ++ [n]) = (initNode s (d, p, unv, b) n).1.
Proof.
  unfold initFold. rewrite initRaw_snoc.
  destruct (initRaw s ns) as [[[d p] unv] b]. by exists d, p, unv, b.
Qed.

Ltac init_snoc s ns n d p unv b :=
  let H1 := fresh "Hraw" in
  let H2 := fresh in
  let H3 := fresh in
  destruct (initFold_snoc s ns n) as (d & p & unv & b & H1 & H2 & H3);
  rewrite H3; rewrite H2 in *; clear H2 H3; simpl in *.

(** [distances] holds every node identifier but ['__proto__']. *)
Lemma initFold_distances_dom (s : string) (ns : list Node) (v : string) :
  is_Some ((initFold s ns).1.1 !! v) ↔ v ∈ map node_id ns ∧ v ≠ "__proto__".
Proof.
  induction ns as [|n ns IH] using rev_ind.
  - simpl. rewrite lookup_empty. split; [by intros [? ?] | by intros [?%elem_of_nil _]].
  - rewrite map_app, elem_of_app. simpl. rewrite list_elem_of_singleton.
    init_snoc s ns n d p unv b.
    destruct (String.eqb (node_id n) "__proto__") eqn:E; simpl.
    + apply String.eqb_eq in E. rewrite IH. split; [tauto|]. intros [[|] ?]; [done|congruence].
    + apply String.eqb_neq in E. destruct (decide (node_id n = v)) as [<-|Hne].
      * rewrite lookup_insert_eq. split; [auto | eauto].
      * rewrite lookup_insert_ne by done. rewrite IH.
        split; [tauto | intros [[|] ?]; [done|congruence]].
Qed.

(** [previous] holds [null] wherever it holds anything, and only under
    node identifiers. *)
Lemma initFold_previous_values (s : string) (ns : list Node) (v : string)
    (x : option string) :
  (initFold s ns).1.2 !! v = Some x → x = None ∧ v ∈ map node_id ns.
Proof.
  revert x. induction ns as [|n ns IH] using rev_ind; intros x.
  - simpl. by rewrite lookup_empty.
  - rewrite map_app, elem_of_app. simpl. rewrite list_elem_of_singleton.
    init_snoc s ns n d p unv b.
    destruct (String.eqb (node_id n) "__proto__" && negb b).
    + intros H. destruct (IH _ H). auto.
    + destruct (decide (node_id n = v)) as [<-|Hne].
      * rewrite lookup_insert_eq. intros [= <-]. auto.
      * rewrite lookup_insert_ne by done. intros H. destruct (IH _ H). auto.
Qed.

(** It holds every node identifier but, possibly, ['__proto__']. *)
Lemma initFold_previous (s : string) (ns : list Node) (v : string) :
  v ≠ "__proto__" →
  (initFold s ns).1.2 !! v = if bool_decide (v ∈ map node_id ns) then Some None else None.
Proof.
  intros Hv. induction ns as [|n ns IH] using rev_ind.
  - change ((initFold s []).1.2) with (∅ : gmap string (option string)).
    rewrite lookup_empty. by rewrite bool_decide_eq_false_2 by apply not_elem_of_nil.
  - rewrite map_app. simpl. init_snoc s ns n d p unv b.
    destruct (decide (node_id n = v)) as [<-|Hne].
    + apply String.eqb_neq in Hv. rewrite Hv. simpl.
      rewrite lookup_insert_eq. rewrite bool_decide_eq_true_2; [done|].
      apply elem_of_app. right. by apply list_elem_of_singleton.
    + assert (Hext : bool_decide (v ∈ map node_id ns ++ [node_id n])
                     = bool_decide (v ∈ map node_id ns)).
      { apply bool_decide_ext. rewrite elem_of_app, list_elem_of_singleton.
        split; [intros [|]; [done|congruence] | auto]. }
      rewrite Hext.
      destruct (String.eqb (node_id n) "__proto__" && negb b); [done|].
      by rewrite lookup_insert_ne.
Qed.

Lemma initFold_unvisited (s : string) (ns : list Node) (v : string) :
  v ∈ (initFold s ns).2 ↔ v ∈ map node_id (List.filter node_active ns).
Proof.
  induction ns as [|n ns IH] using rev_ind.
  - done.
  - rewrite List.filter_app, map_app, elem_of_app. simpl.
    init_snoc s ns n d p unv b.
    destruct (node_active n); simpl.
    + rewrite elem_of_set_add, list_elem_of_singleton, IH. tauto.
    + rewrite IH. split; [auto | intros [|?%elem_of_nil]; done].
Qed.

Lemma initFold_unvisited_NoDup (s : string) (ns : list Node) :
  NoDup (initFold s ns).2.
Proof.
  induction ns as [|n ns IH] using rev_ind.
  - apply NoDup_nil_2.
  - init_snoc s ns n d p unv b.
    destruct (node_active n); [by apply NoDup_set_add | done].
Qed.

(** Every initial distance is [0] or the sentinel, and [0] is only ever
    written for an active start node. *)
Lemma initFold_distances_values (s : string) (ns : list Node) (v : string) (x : Z) :
  (initFold s ns).1.1 !! v = Some x →
  x = INFINITY ∨ (x = 0 ∧ v = s ∧ s ∈ map node_id (List.filter node_active ns)).
Proof.
  revert x. induction ns as [|n ns IH] using rev_ind; intros x.
  - simpl. by rewrite lookup_empty.
  - rewrite List.filter_app, map_app. simpl. init_snoc s ns n d p unv b.
    assert (Hold : d !! v = Some x →
              x = INFINITY ∨
              x = 0 ∧ v = s ∧
              s ∈ map node_id (List.filter node_active ns)
                  ++ map node_id (if node_active n then [n] else [])).
    { intros H. apply IH in H as [|(?&?&?)]; [by left|]. right. rewrite elem_of_app. auto. }
    destruct (String.eqb (node_id n) "__proto__"); [done|].
    destruct (decide (node_id n = v)) as [<-|Hne].
    + rewrite lookup_insert_eq. intros [= <-].
      destruct (String.eqb (node_id n) s) eqn:E; simpl; [|by left].
      destruct (node_active n) eqn:Ha; simpl; [|by left].
      apply String.eqb_eq in E. right. split_and!; [done..|].
      apply elem_of_app. right. simpl. rewrite E. apply list_elem_of_singleton. done.
    + by rewrite lookup_insert_ne.
Qed.

(** With unique node identifiers the initial table is the textbook one,
    ['__proto__'] apart. *)
Lemma initFold_distances_unique (s : string) (ns : list Node) (v : string) :
  NoDup (map node_id ns) →
  v ∈ map node_id ns →
  v ≠ "__proto__" →
  (initFold s ns).1.1 !! v =
    Some (if bool_decide (v = s ∧ s ∈ map node_id (List.filter node_active ns))
          then 0 else INFINITY).
Proof.
  intros Hnd Hin Hv. induction ns as [|n ns IH] using rev_ind.
  - by apply elem_of_nil in Hin.
  - rewrite List.filter_app, map_app. simpl.
    rewrite map_app in Hnd, Hin. apply NoDup_app in Hnd as (Hnd & Hfresh & _).
    init_snoc s ns n d p unv b.
    assert (Hsub : ∀ y, y ∈ map node_id (List.filter node_active ns) → y ∈ map node_id ns).
    { intros y (m & -> & Hm)%list_elem_of_fmap. apply list_elem_of_fmap. exists m. split; [done|].
      apply list_elem_of_In, filter_In in Hm as [Hm _]. by apply list_elem_of_In. }
    destruct (decide (node_id n = v)) as [<-|Hne].
    + apply String.eqb_neq in Hv. rewrite Hv.
      rewrite lookup_insert_eq. f_equal.
      destruct (String.eqb (node_id n) s) eqn:E; simpl.
      * apply String.eqb_eq in E. destruct (node_active n) eqn:Ha; simpl.
        -- rewrite bool_decide_eq_true_2; [done|]. split; [done|].
           apply elem_of_app. right. rewrite E. by apply list_elem_of_singleton.
        -- rewrite bool_decide_eq_false_2; [done|]. intros [_ Hs].
           rewrite app_nil_r in Hs. apply Hsub in Hs. rewrite <- E in Hs.
           apply (Hfresh _ Hs). by apply list_elem_of_singleton.
      * apply String.eqb_neq in E. by rewrite bool_decide_eq_false_2 by tauto.
    + apply elem_of_app in Hin as [Hin | Hin%list_elem_of_singleton]; [|congruence].
      assert (Hgoal : d !! v =
                Some (if bool_decide (v = s ∧
                        s ∈ map node_id (List.filter node_active ns)
                            ++ map node_id (if node_active n then [n] else []))
                      then 0 else INFINITY)).
      { rewrite (IH Hnd Hin). f_equal. erewrite bool_decide_ext; [reflexivity|].
        rewrite elem_of_app. split; [tauto|]. intros [-> [Hs|Hs]]; [done|].
        destruct (node_active n); simpl in Hs.
        * apply list_elem_of_singleton in Hs. congruence.
        * by apply elem_of_nil in Hs. }
      destruct (String.eqb (node_id n) "__proto__"); [done|].
      by rewrite lookup_insert_ne.
Qed.

Lemma not_active_set_has (data : GraphData) (startNodeId : string) :
  (∀ n, n ∈ nodes data → node_id n = startNodeId → node_active n = false) →
  set_has startNodeId (activeNodeIds data) = false.
Proof.
  intros H. apply set_has_false. intros (n & Hn & Hid & Ha)%elem_of_activeNodeIds.
  rewrite (H n Hn Hid) in Ha. done.
Qed.

Lemma initAll_all_unreachable (data : GraphData) (startNodeId : string) :
  startNodeId ∉ activeNodeIds data →
  (∀ n, n ∈ nodes data → node_id n ≠ "__proto__" →
        (initAll data startNodeId).1.1 !! node_id n = Some INFINITY) ∧
  (∀ v x, (initAll data startNodeId).1.1 !! v = Some x → x = INFINITY).
Proof.
  intros Hs. assert (Hval : ∀ v x, (initAll data startNodeId).1.1 !! v = Some x → x = INFINITY).
  { intros v x Hx. apply initFold_distances_values in Hx as [|(_&_&?)]; done. }
  split; [|done]. intros n Hn Hp.
  destruct (proj2 (initFold_distances_dom startNodeId (nodes data) (node_id n))) as [x Hx].
  { split; [|done]. apply list_elem_of_fmap. eauto. }
  change (initAll data startNodeId) with (initFold startNodeId (nodes data)).
  rewrite Hx. f_equal. eauto.
Qed.

(** ** C4: an inactive or unknown start node *)

(** When every node carrying [startNodeId] is inactive (in particular when
    no node carries it), both variants return exactly one step; in it every
    node of the topology not named ['__proto__'] is at the unreachable
    sentinel, no entry of [distances] holds anything else, and
    [activeNodes], [activeLinks] and [visitedNodes] are empty. *)
Lemma invalid_start_single_step (type : AlgorithmType) (data : GraphData)
    (startNodeId : string) :
  (∀ n, n ∈ nodes data → node_id n = startNodeId → node_active n = false) →
  ∃ st, runAlgorithm type data startNodeId = [st] ∧
        (∀ n, n ∈ nodes data → node_id n ≠ "__proto__" →
              distances st !! node_id n = Some INFINITY) ∧
        (∀ v x, distances st !! v = Some x → x = INFINITY) ∧
        activeNodes st = [] ∧ activeLinks st = [] ∧ visitedNodes st = [].
Proof.
  intros H. pose proof (not_active_set_has _ _ H) as Hhas.
  pose proof (initAll_all_unreachable data startNodeId (proj1 (set_has_false _ _) Hhas)) as [H1 H2].
  destruct type; simpl; unfold runDijkstra, runBellmanFord;
    destruct (initAll data startNodeId) as [[d p] unv]; rewrite Hhas; simpl;
    eexists; (split; [reflexivity|]); simpl; auto.
Qed.

Lemma invalid_start_single_step_witness :
  ∃ st, runAlgorithm BELLMAN_FORD INITIAL_GRAPH "Z" = [st] ∧
        (∀ n, n ∈ nodes INITIAL_GRAPH → node_id n ≠ "__proto__" →
              distances st !! node_id n = Some INFINITY) ∧
        (∀ v x, distances st !! v = Some x → x = INFINITY) ∧
        activeNodes st = [] ∧ activeLinks st = [] ∧ visitedNodes st = [].
Proof.
  apply (invalid_start_single_step BELLMAN_FORD INITIAL_GRAPH "Z").
  intros n Hn Hid. simpl in Hn.
  repeat (apply elem_of_cons in Hn as [-> | Hn]; [discriminate Hid|]).
  by apply elem_of_nil in Hn.
Defined.

(** C4. The code at a failing input: two nodes, one of them named
    ['__proto__'], and a start node that is not in the topology.  Both
    variants return the single step, with the ordinary node at the
    sentinel, but its [distances] has no entry for the node ['__proto__']
    (the assignment of the [forEach] is swallowed by the inherited
    accessor), where the claim, and the comment above the [forEach]
    ("Initialize all known nodes in data (even inactive ones) to
    Infinity"), ask for the sentinel. *)
Theorem invalid_start_proto_node_unreported :
  let data := mkGraph [mkNode "__proto__" true; mkNode "B" true] [] in
  ∃ sd sb,
    runAlgorithm DIJKSTRA data "Z" = [sd] ∧ runAlgorithm BELLMAN_FORD data "Z" = [sb] ∧
    distances sd !! "B" = Some INFINITY ∧ distances sb !! "B" = Some INFINITY ∧
    distances sd !! "__proto__" = None ∧ distances sb !! "__proto__" = None ∧
    distances sd !! "__proto__" ≠ Some INFINITY.
Proof. do 2 eexists. split_and!; by vm_compute. Qed.

(** ** C10: the trace is never empty *)

(** C10. Whatever the topology, the variant and the start node, the trace
    has a last element, and it is the one found at index [length - 1], the
    index read by packet re-routing and by traffic spawning. *)
Theorem runAlgorithm_last_defined (type : AlgorithmType) (data : GraphData)
    (startNodeId : string) :
  ∃ st, last (runAlgorithm type data startNodeId) = Some st ∧
        runAlgorithm type data startNodeId
          !! (length (runAlgorithm type data startNodeId) - 1)%nat = Some st.
Proof.
  assert (Hl : ∃ st, last (runAlgorithm type data startNodeId) = Some st).
  { destruct type; simpl; unfold runDijkstra, runBellmanFord;
      destruct (initAll data startNodeId) as [[d p] unv];
      destruct (negb _); simpl; eauto; rewrite last_snoc; eauto. }
  destruct Hl as [st Hst]. exists st. split; [done|].
  rewrite last_lookup in Hst. by replace (_ - 1)%nat with (pred (length (runAlgorithm type data startNodeId))) by lia.
Qed.

(** ** C2: the fixture on the initial graph *)

(** C2, as stated, fails: on the initial graph the final predecessor of [E]
    is [C] and that of [F] is [E], not [D]; the stated route A-C-B-D-F
    would cost 14. *)
Lemma initial_graph_previous_differs :
  ∃ st, last (runAlgorithm DIJKSTRA INITIAL_GRAPH "A") = Some st ∧
        previous st !! "E" ≠ Some (Some "D") ∧
        previous st !! "F" ≠ Some (Some "D") ∧
        2 + 1 + 5 + 6 ≠ 13.
Proof.
  eexists. split; [vm_compute; reflexivity|]. split_and!; [by vm_compute..|lia].
Qed.

(** C2 (amended). Dijkstra from [A] on the initial graph ends with distances
    {A:0, B:3, C:2, D:8, E:10, F:13} and predecessors
    {A:none, B:C, C:A, D:B, E:C, F:E}: the cost 13 of [F] is that of the
    route A-C-E-F. *)
Theorem initial_graph_dijkstra :
  ∃ st, last (runAlgorithm DIJKSTRA INITIAL_GRAPH "A") = Some st ∧
        distances st =
          list_to_map [("A", 0); ("B", 3); ("C", 2); ("D", 8); ("E", 10); ("F", 13)] ∧
        previous st =
          list_to_map [("A", None); ("B", Some "C"); ("C", Some "A");
                       ("D", Some "B"); ("E", Some "C"); ("F", Some "E")] ∧
        2 + 8 + 3 = 13.
Proof.
  eexists. split; [vm_compute; reflexivity|]. split_and!; [by vm_compute..|lia].
Qed.

(** ** C7: predecessors change only on a strict decrease *)

Lemma consecutive_singleton P (s : SimulationStep) : consecutive P [s].
Proof.
  intros pre s1 s2 post H. apply (f_equal length) in H.
  rewrite length_app in H. simpl in H. lia.
Qed.

Lemma consecutive_snoc P (l : list SimulationStep) (s : SimulationStep) :
  consecutive P l → (∀ sl, last l = Some sl → P sl s) → consecutive P (l ++ [s]).
Proof.
  intros Hl Hs pre s1 s2 post Heq.
  destruct post as [|x post _] using rev_ind.
  - replace (pre ++ [s1; s2]) with ((pre ++ [s1]) ++ [s2]) in Heq by by rewrite <- app_assoc.
    apply app_inj_tail in Heq as [-> ->]. apply Hs. apply last_snoc.
  - replace (pre ++ s1 :: s2 :: post ++ [x]) with ((pre ++ s1 :: s2 :: post) ++ [x]) in Heq
      by by rewrite <- app_assoc.
    apply app_inj_tail in Heq as [-> ->]. by eapply Hl.
Qed.

Lemma relaxNeighbor_traceInv act cur st l :
  traceInv st → traceInv (relaxNeighbor act cur st l).
Proof.
  intros [Hc (sl & Hlast & Hd & Hp)]. unfold relaxNeighbor.
  destruct (negb _); [by split; [|exists sl]|].
  destruct (set_has _ (ds_visited st)); [by split; [|exists sl]|].
  destruct (ds_distances st !! cur) as [dc|] eqn:Hcur; [|by split; [|exists sl]].
  destruct (ds_distances st !! neighborOf cur l) as [dn|] eqn:Hnb; [|by split; [|exists sl]].
  destruct (dc + link_weight l <? dn) eqn:Hlt; [|by split; [|exists sl]].
  apply Z.ltb_lt in Hlt. split; simpl.
  - apply consecutive_snoc; [done|]. intros sl' Hsl'. rewrite Hlast in Hsl'.
    injection Hsl' as <-. intros v Hv. simpl in *.
    destruct (decide (neighborOf cur l = v)) as [<-|Hne].
    + exists dn, (dc + link_weight l). rewrite Hd, Hnb, lookup_insert_eq. done.
    + rewrite lookup_insert_ne in Hv by done. by rewrite Hp in Hv.
  - unfold synced. simpl. eexists. rewrite last_snoc. done.
Qed.

Lemma fold_relaxNeighbor_traceInv act cur ls st :
  traceInv st → traceInv (fold_left (relaxNeighbor act cur) ls st).
Proof.
  revert st. induction ls as [|l ls IH]; intros st H; simpl; [done|].
  by apply IH, relaxNeighbor_traceInv.
Qed.

Lemma visitNode_traceInv act lks cur m st :
  traceInv st → traceInv (visitNode act lks cur m st).
Proof.
  intros [Hc (sl & Hlast & Hd & Hp)]. unfold visitNode.
  apply fold_relaxNeighbor_traceInv. split; simpl.
  - apply consecutive_snoc; [done|]. intros sl' Hsl'. rewrite Hlast in Hsl'.
    injection Hsl' as <-. intros v Hv. simpl in Hv. by rewrite Hp in Hv.
  - unfold synced. simpl. eexists. rewrite last_snoc. done.
Qed.

Lemma dijkstraLoop_traceInv fuel act lks st :
  traceInv st → traceInv (dijkstraLoop fuel act lks st).
Proof.
  revert st. induction fuel as [|fuel IH]; intros st H; simpl; [done|].
  destruct (ds_unvisited st); [done|].
  destruct (findMin _ _) as [[cur|] m]; [|done].
  case_bool_decide; [done|]. by apply IH, visitNode_traceInv.
Qed.

(** C7. In a Dijkstra trace, whenever the [previous] entry of a node differs
    between two consecutive steps, the [distances] entry of that node is
    strictly smaller in the later step: an equal-cost alternative never
    replaces a predecessor. *)
Theorem dijkstra_previous_changes_only_on_decrease
    (data : GraphData) (startNodeId : string)
    (pre post : list SimulationStep) (s1 s2 : SimulationStep) (v : string) :
  runDijkstra data startNodeId = pre ++ s1 :: s2 :: post →
  previous s1 !! v ≠ previous s2 !! v →
  ∃ d1 d2, distances s1 !! v = Some d1 ∧ distances s2 !! v = Some d2 ∧ d2 < d1.
Proof.
  intros Hrun. revert v.
  change (prevChangeDecreases s1 s2).
  cut (consecutive prevChangeDecreases (runDijkstra data startNodeId)).
  { intros Hc. by eapply Hc. }
  clear. unfold runDijkstra. destruct (initAll data startNodeId) as [[d p] unv].
  destruct (negb _); [apply consecutive_singleton|].
  match goal with |- context [dijkstraLoop ?f ?a ?l ?s] =>
    pose proof (dijkstraLoop_traceInv f a l s) as H end.
  destruct H as [Hc (sl & Hlast & Hd & Hp)].
  { split; [apply consecutive_singleton|]. eexists. simpl. done. }
  apply consecutive_snoc; [done|]. intros sl' Hsl'. rewrite Hlast in Hsl'.
  injection Hsl' as <-. intros v Hv. simpl in Hv. by rewrite Hp in Hv.
Qed.

Lemma dijkstra_previous_changes_only_on_decrease_witness :
  ∃ d1 d2,
    distances (default (mkStep 0 DescBFInit ∅ ∅ [] [] [])
                 (runDijkstra INITIAL_GRAPH "A" !! 4%nat)) !! "B" = Some d1 ∧
    distances (default (mkStep 0 DescBFInit ∅ ∅ [] [] [])
                 (runDijkstra INITIAL_GRAPH "A" !! 5%nat)) !! "B" = Some d2 ∧
    d2 < d1.
Proof.
  apply (dijkstra_previous_changes_only_on_decrease INITIAL_GRAPH "A"
           (take 4 (runDijkstra INITIAL_GRAPH "A"))
           (drop 6 (runDijkstra INITIAL_GRAPH "A"))).
  - vm_compute. reflexivity.
  - vm_compute. discriminate.
Defined.

(** ** C9: the safety bound of the backward walk *)

Lemma walkBack_safety_le fuel g prevMap startNode st :
  (ws_safety st ≤ length (nodes g))%nat →
  (ws_safety (walkBack fuel g prevMap startNode st) ≤ length (nodes g))%nat.
Proof.
  revert st. induction fuel as [|fuel IH]; intros st H; simpl; [done|].
  destruct (negb _); simpl; [|done].
  destruct (ws_safety st <? length (nodes g))%nat eqn:E; [|done].
  apply Nat.ltb_lt in E.
  destruct (prevMap !! ws_curr st) as [[prev|]|]; [|done..].
  destruct (truthy prev); [|done]. apply IH. simpl. lia.
Qed.

(** Turns beyond [nodes.length - safety] are never taken: the guard of the
    loop is false by then. *)
Lemma walkBack_fuel_stable fuel fuel' g prevMap startNode st :
  (length (nodes g) - ws_safety st ≤ fuel)%nat → (fuel ≤ fuel')%nat →
  walkBack fuel' g prevMap startNode st = walkBack fuel g prevMap startNode st.
Proof.
  revert fuel' st. induction fuel as [|fuel IH]; intros fuel' st H1 H2.
  - simpl. destruct fuel'; [done|]. simpl.
    replace (ws_safety st <? length (nodes g))%nat with false
      by (symmetry; apply Nat.ltb_ge; lia).
    by rewrite andb_false_r.
  - destruct fuel' as [|fuel']; [lia|]. simpl.
    destruct (negb _ && _); [|done].
    destruct (prevMap !! ws_curr st) as [[prev|]|]; [|done..].
    destruct (truthy prev); [|done]. apply IH; simpl; lia.
Qed.

(** C9, as stated, fails in its second half: with cyclic pointers the walk
    stops at the bound (three turns for three nodes) and the reconstructor
    returns the numeric cost with the partial path, not Unreachable. *)
Lemma cycle_returns_partial_path :
  ws_safety (reconstruct cycleGraph cycleStep "A" "B") = length (nodes cycleGraph) ∧
  shortestPathData cycleGraph "A" (Some "B") (Some cycleStep) =
    mkPathData (CostNumber 1) ["BC"; "BC"; "BC"] (joinWith arrow ["C"; "B"; "C"; "B"]) ∧
  cost (shortestPathData cycleGraph "A" (Some "B") (Some cycleStep)) ≠ CostUnreachable.
Proof. split_and!; [by vm_compute.. | vm_compute; discriminate]. Qed.

(** C9 (amended). For a target with a finite distance entry, the backward
    walk takes at most as many turns as the topology has nodes, further
    fuel changes nothing, and the reconstructor returns the numeric cost
    with whatever identifiers and nodes the walk collected, also when the
    bound stopped it: the bound only guarantees termination. *)
Theorem reconstruct_bounded (graphData : GraphData) (currentStep : SimulationStep)
    (startNode endNode : string) (c : Z) :
  truthy endNode = true →
  distances currentStep !! endNode = Some c →
  c < INFINITY →
  let st := reconstruct graphData currentStep startNode endNode in
  (ws_safety st ≤ length (nodes graphData))%nat ∧
  (∀ fuel, (length (nodes graphData) ≤ fuel)%nat →
           walkBack fuel graphData (previous currentStep) startNode
             (mkWalk endNode [] [endNode] 0) = st) ∧
  shortestPathData graphData startNode (Some endNode) (Some currentStep) =
    mkPathData (CostNumber c) (map link_id (ws_found st))
      (joinWith arrow (ws_nodePath st)).
Proof.
  intros Ht Hc Hlt st. split_and!.
  - apply walkBack_safety_le. simpl. lia.
  - intros fuel Hf. apply walkBack_fuel_stable; simpl; lia.
  - unfold shortestPathData. rewrite Ht, Hc.
    replace (c >=? INFINITY) with false by (symmetry; rewrite Z.geb_leb; apply Z.leb_gt; lia).
    done.
Qed.

Lemma reconstruct_bounded_witness :
  let st := reconstruct cycleGraph cycleStep "A" "B" in
  (ws_safety st ≤ length (nodes cycleGraph))%nat ∧
  (∀ fuel, (length (nodes cycleGraph) ≤ fuel)%nat →
           walkBack fuel cycleGraph (previous cycleStep) "A"
             (mkWalk "B" [] ["B"] 0) = st) ∧
  shortestPathData cycleGraph "A" (Some "B") (Some cycleStep) =
    mkPathData (CostNumber 1) (map link_id (ws_found st))
      (joinWith arrow (ws_nodePath st)).
Proof.
  apply (reconstruct_bounded cycleGraph cycleStep "A" "B" 1).
  - reflexivity.
  - vm_compute. reflexivity.
  - reflexivity.
Defined.

(** ** C6: the shape of a Bellman-Ford run *)

Lemma BFSpec_iterations_le budget data t :
  (BFSpec.iterations (BFSpec.iterate budget data t) ≤ budget)%nat.
Proof.
  revert t. induction budget as [|b IH]; intros t; simpl; [done|].
  destruct (_ =? 0)%nat; simpl; [lia|].
  specialize (IH (BFSpec.mkTables (BFSpec.dist (BFSpec.iteration data t))
    (BFSpec.pred (BFSpec.iteration data t))
    (BFSpec.relaxations t + BFSpec.relaxations (BFSpec.iteration data t)))). lia.
Qed.

Lemma BFSpec_exhausted_or_converged budget data t :
  BFSpec.converged (BFSpec.iterate budget data t) = false →
  BFSpec.iterations (BFSpec.iterate budget data t) = budget.
Proof.
  revert t. induction budget as [|b IH]; intros t; simpl; [done|].
  destruct (_ =? 0)%nat; simpl; [done|]. intros H. f_equal. by apply IH.
Qed.

Lemma relaxEdge_attempt base i l st t from to :
  bfMatches base st t →
  bs_changed st = (0 <? BFSpec.relaxations t)%nat →
  bfMatches base (relaxEdge i l st from to) (BFSpec.attempt (link_weight l) from to t) ∧
  bs_changed (relaxEdge i l st from to) =
    (0 <? BFSpec.relaxations (BFSpec.attempt (link_weight l) from to t))%nat.
Proof.
  intros (Hd & Hp & rs & Hs & Hlen & Hrs) Hch.
  unfold relaxEdge, BFSpec.attempt. rewrite <- Hd.
  destruct (bs_distances st !! from) as [df|]; [|by split; [split_and!; eauto|]].
  destruct (bs_distances st !! to) as [dt|]; [|by split; [split_and!; eauto|]].
  destruct (decide (df ≠ INFINITY ∧ df + link_weight l < dt)) as [[H1 H2]|Hn].
  - rewrite bool_decide_eq_true_2 by done.
    replace (negb (df =? INFINITY) && (df + link_weight l <? dt)) with true; last first.
    { symmetry. apply andb_true_iff. rewrite negb_true_iff, Z.eqb_neq, Z.ltb_lt. done. }
    split; [|done]. split_and!; simpl; [by rewrite Hd | by rewrite Hp |].
    eexists (rs ++ [_]). rewrite Hs, <- app_assoc. split; [done|].
    rewrite length_app. simpl. split; [lia|].
    apply Forall_app. split; [done|]. apply Forall_singleton.
    exists (S i), from, to, (df + link_weight l), (link_id l). simpl.
    by rewrite !lookup_insert_eq.
  - rewrite bool_decide_eq_false_2 by done.
    replace (negb (df =? INFINITY) && (df + link_weight l <? dt)) with false; last first.
    { symmetry. apply not_true_iff_false. rewrite andb_true_iff, negb_true_iff, Z.eqb_neq, Z.ltb_lt. done. }
    split; [|done]. split_and!; eauto.
Qed.

Lemma fold_left_filter {A B} (f : A → B → A) (P : B → bool) (l : list B) (a : A) :
  fold_left f (List.filter P l) a = fold_left (fun a x => if P x then f a x else a) l a.
Proof.
  revert a. induction l as [|x l IH]; intros a; simpl; [done|].
  destruct (P x); simpl; by rewrite IH.
Qed.

Lemma scanLinks_iteration base data i st t :
  bs_distances st = BFSpec.dist t → bs_previous st = BFSpec.pred t →
  bs_steps st = base →
  let st' := scanLinks (activeNodeIds data) (List.filter link_active (links data)) i st in
  bfMatches base st' (BFSpec.iteration data t) ∧
  bs_changed st' = (0 <? BFSpec.relaxations (BFSpec.iteration data t))%nat.
Proof.
  intros Hd Hp Hs. unfold scanLinks, BFSpec.iteration. rewrite fold_left_filter.
  set (s0 := mkBState _ _ _ false). set (t0 := BFSpec.mkTables _ _ 0).
  assert (H0 : bfMatches base s0 t0 ∧ bs_changed s0 = (0 <? BFSpec.relaxations t0)%nat).
  { split; [|done]. split_and!; [done..|]. exists []. by rewrite app_nil_r. }
  clearbody s0 t0. clear Hd Hp Hs. revert s0 t0 H0.
  induction (links data) as [|l ls IH]; intros s0 t0 [Hm Hc]; simpl; [done|].
  apply IH. unfold scanLink, BFSpec.scanned.
  destruct (link_active l); simpl; [|done].
  destruct (set_has (link_source l) (activeNodeIds data)) eqn:Eu; simpl.
  - apply set_has_true in Eu. rewrite (bool_decide_eq_true_2 _ Eu). simpl.
    destruct (set_has (link_target l) (activeNodeIds data)) eqn:Ev; simpl.
    + apply set_has_true in Ev. rewrite (bool_decide_eq_true_2 _ Ev).
      destruct (relaxEdge_attempt base i l s0 t0 (link_source l) (link_target l) Hm Hc) as [Hm1 Hc1].
      apply (relaxEdge_attempt base i l _ _ (link_target l) (link_source l) Hm1 Hc1).
    + apply set_has_false in Ev. by rewrite (bool_decide_eq_false_2 _ Ev).
  - apply set_has_false in Eu. by rewrite (bool_decide_eq_false_2 _ Eu).
Qed.

Lemma bellmanLoop_iterate data base remaining i st t :
  bs_distances st = BFSpec.dist t → bs_previous st = BFSpec.pred t →
  (∃ rs, bs_steps st = base ++ rs ∧ length rs = BFSpec.relaxations t ∧
         Forall isBFRelaxStep rs) →
  let r := BFSpec.iterate remaining data t in
  let st' := bellmanLoop remaining i (activeNodeIds data)
               (List.filter link_active (links data)) st in
  bs_distances st' = BFSpec.dist (BFSpec.final r) ∧
  bs_previous st' = BFSpec.pred (BFSpec.final r) ∧
  ∃ rs, length rs = BFSpec.relaxations (BFSpec.final r) ∧ Forall isBFRelaxStep rs ∧
        bs_steps st' =
          base ++ rs ++
            (if BFSpec.converged r
             then [mkStep (length base + length rs)
                     (DescBFConverged (i + BFSpec.iterations r))
                     (BFSpec.dist (BFSpec.final r)) (BFSpec.pred (BFSpec.final r))
                     [] [] []]
             else []).
Proof.
  revert i st t. induction remaining as [|n IH]; intros i st t Hd Hp (rs & Hs & Hlen & Hrs); simpl.
  - split_and!; [done..|]. exists rs. by rewrite app_nil_r.
  - pose proof (scanLinks_iteration (bs_steps st) data i st t Hd Hp eq_refl)
      as [(Hd' & Hp' & rs' & Hs' & Hlen' & Hrs') Hch].
    rewrite Hch.
    destruct (BFSpec.relaxations (BFSpec.iteration data t)) as [|c] eqn:Ec; simpl.
    + destruct rs'; [|done]. rewrite app_nil_r in Hs'.
      split_and!; [done..|]. exists rs. split_and!; [done..|].
      rewrite Hs', Hd', Hp', Hs, <- app_assoc, length_app, Nat.add_1_r. reflexivity.
    + specialize (IH (S i) _ (BFSpec.mkTables (BFSpec.dist (BFSpec.iteration data t))
        (BFSpec.pred (BFSpec.iteration data t)) (BFSpec.relaxations t + S c)) Hd' Hp').
      destruct IH as (Hd2 & Hp2 & rs2 & Hlen2 & Hrs2 & Hs2).
      { exists (rs ++ rs'). rewrite Hs', Hs, <- app_assoc, length_app. split_and!; [done|simpl; lia|].
        by apply Forall_app. }
      split_and!; [done..|]. exists rs2. split_and!; [done..|].
      rewrite Hs2. set (r := BFSpec.iterate n data _).
      by replace (i + S (BFSpec.iterations r))%nat with (S i + BFSpec.iterations r)%nat by lia.
Qed.

(** C6. From an active start node the Bellman-Ford trace is: the initial
    step; one step per successful relaxation of the outer iterations, of
    which there are at most [V - 1] ([V] active nodes), each iteration
    scanning every active link between active nodes in both directions
    (strict comparison, source not at the sentinel); a "converged" step
    exactly when the last iteration performed relaxed nothing, after which
    no further iteration runs (otherwise all [V - 1] were run); and, in
    every case, the final "complete" step holding the final tables. *)
Theorem bellman_ford_run_shape (data : GraphData) (startNodeId : string) :
  startNodeId ∈ activeNodeIds data →
  let V := length (List.filter node_active (nodes data)) in
  let d0 := (initAll data startNodeId).1.1 in
  let p0 := (initAll data startNodeId).1.2 in
  let r := BFSpec.iterate (V - 1) data (BFSpec.mkTables d0 p0 0) in
  let d := BFSpec.dist (BFSpec.final r) in
  let p := BFSpec.pred (BFSpec.final r) in
  (BFSpec.iterations r ≤ V - 1)%nat ∧
  (BFSpec.converged r = false → BFSpec.iterations r = (V - 1)%nat) ∧
  ∃ rs, length rs = BFSpec.relaxations (BFSpec.final r) ∧
        Forall isBFRelaxStep rs ∧
        runBellmanFord data startNodeId =
          [mkStep 0 DescBFInit d0 p0 [startNodeId] [] []] ++ rs ++
          (if BFSpec.converged r
           then [mkStep (1 + length rs) (DescBFConverged (BFSpec.iterations r))
                   d p [] [] []]
           else []) ++
          [mkStep (1 + length rs + (if BFSpec.converged r then 1 else 0))
             DescBFComplete d p [] [] []].
Proof.
  intros Hact V d0 p0 r d p. split; [apply BFSpec_iterations_le|].
  split; [apply BFSpec_exhausted_or_converged|].
  apply set_has_true in Hact. unfold runBellmanFord.
  subst d0 p0. destruct (initAll data startNodeId) as [[d0 p0] unv] eqn:Hinit.
  rewrite Hact. simpl negb. cbv iota. simpl fst in *. simpl snd in *.
  set (base := [mkStep 0 DescBFInit d0 p0 [startNodeId] [] []]).
  destruct (bellmanLoop_iterate data base (V - 1) 0
              (mkBState d0 p0 base false) (BFSpec.mkTables d0 p0 0) eq_refl eq_refl)
    as (Hd & Hp & rs & Hlen & Hrs & Hs).
  { exists []. by rewrite app_nil_r. }
  fold V. fold r in Hd, Hp, Hlen, Hs. exists rs. split_and!; [done..|].
  rewrite Hs, Hd, Hp. fold d p. rewrite <- !app_assoc. do 2 f_equal.
  rewrite !length_app. simpl length.
  destruct (BFSpec.converged r); simpl; repeat f_equal; lia.
Qed.

Lemma bellman_ford_run_shape_witness :
  let V := length (List.filter node_active (nodes INITIAL_GRAPH)) in
  let d0 := (initAll INITIAL_GRAPH "A").1.1 in
  let p0 := (initAll INITIAL_GRAPH "A").1.2 in
  let r := BFSpec.iterate (V - 1) INITIAL_GRAPH (BFSpec.mkTables d0 p0 0) in
  let d := BFSpec.dist (BFSpec.final r) in
  let p := BFSpec.pred (BFSpec.final r) in
  (BFSpec.iterations r ≤ V - 1)%nat ∧
  (BFSpec.converged r = false → BFSpec.iterations r = (V - 1)%nat) ∧
  ∃ rs, length rs = BFSpec.relaxations (BFSpec.final r) ∧
        Forall isBFRelaxStep rs ∧
        runBellmanFord INITIAL_GRAPH "A" =
          [mkStep 0 DescBFInit d0 p0 ["A"] [] []] ++ rs ++
          (if BFSpec.converged r
           then [mkStep (1 + length rs) (DescBFConverged (BFSpec.iterations r))
                   d p [] [] []]
           else []) ++
          [mkStep (1 + length rs + (if BFSpec.converged r then 1 else 0))
             DescBFComplete d p [] [] []].
Proof.
  apply (bellman_ford_run_shape INITIAL_GRAPH "A").
  vm_compute. apply list_elem_of_here.
Defined.

(** On the initial graph the second iteration relaxes nothing: two
    iterations out of five, seven relaxations, then "converged". *)
Example bellman_ford_initial_graph :
  map description (runBellmanFord INITIAL_GRAPH "A") =
    [DescBFInit;
     DescBFRelax 1 "A" "B" 4; DescBFRelax 1 "A" "C" 2; DescBFRelax 1 "C" "B" 3;
     DescBFRelax 1 "B" "D" 8; DescBFRelax 1 "C" "E" 10; DescBFRelax 1 "D" "F" 14;
     DescBFRelax 1 "E" "F" 13;
     DescBFConverged 2; DescBFComplete].
Proof. vm_compute. reflexivity. Qed.

(** A neighbour named ['__proto__'] is never relaxed: [distances] has no
    entry for it, and what is read in its place compares false with every
    number.  From [B], with the one link from [B] to ['__proto__'], the
    single iteration relaxes nothing, and the trace is: initial,
    converged, complete.  Dijkstra selects [B] and then finds no node
    below the sentinel. *)
Example proto_neighbour_never_relaxed :
  let g := mkGraph [mkNode "B" true; mkNode "__proto__" true]
                   [mkLink "l" "B" "__proto__" 1 true] in
  let r := BFSpec.iterate 1 g
             (BFSpec.mkTables (initAll g "B").1.1 (initAll g "B").1.2 0) in
  BFSpec.relaxations (BFSpec.final r) = 0%nat ∧ BFSpec.converged r = true ∧
  map description (runBellmanFord g "B") = [DescBFInit; DescBFConverged 1; DescBFComplete] ∧
  map description (runDijkstra g "B") =
    [DescDijkstraInit "B"; DescSelected "B" 0; DescDijkstraComplete] ∧
  (∀ st, st ∈ runBellmanFord g "B" ++ runDijkstra g "B" →
         distances st !! "__proto__" = None ∧ distances st !! "B" = Some 0).
Proof.
  split_and!; [by vm_compute..|].
  intros st Hst. vm_compute in Hst.
  repeat (apply elem_of_cons in Hst as [->|Hst]; [split; by vm_compute|]).
  by apply elem_of_nil in Hst.
Qed.

Lemma joins_connects (l : Link) (u v : string) :
  connects u v l = true ↔ joins l u v.
Proof.
  unfold connects, joins.
  rewrite orb_true_iff, !andb_true_iff, !String.eqb_eq. tauto.
Qed.

Lemma joins_sym (l : Link) (u v : string) : joins l u v → joins l v u.
Proof. unfold joins. tauto. Qed.

Lemma joins_neighborOf (l : Link) (u v : string) : joins l u v → neighborOf u l = v.
Proof.
  unfold neighborOf. intros [[Hs Ht]|[Hs Ht]].
  - rewrite Hs, String.eqb_refl. done.
  - destruct (String.eqb (link_source l) u) eqn:E; [|done].
    apply String.eqb_eq in E. congruence.
Qed.

Lemma joins_touches (l : Link) (u v : string) : joins l u v → touches u l = true.
Proof.
  unfold touches. intros [[Hs Ht]|[Hs Ht]].
  - by rewrite Hs, String.eqb_refl.
  - by rewrite Ht, String.eqb_refl, orb_true_r.
Qed.

Lemma touches_joins (l : Link) (u : string) : touches u l = true → joins l u (neighborOf u l).
Proof.
  unfold touches, neighborOf, joins. rewrite orb_true_iff, !String.eqb_eq.
  destruct (String.eqb (link_source l) u) eqn:E.
  - apply String.eqb_eq in E. auto.
  - apply String.eqb_neq in E. intros [|]; [done|auto].
Qed.

Lemma edge_sym data u v c : edge data u v c → edge data v u c.
Proof.
  intros (l & ? & ? & ? & ? & ? & ?). exists l. split_and!; auto using joins_sym.
Qed.

Lemma elem_of_routableIds data v :
  v ∈ routableIds data ↔ v ∈ activeNodeIds data ∧ v ≠ "__proto__".
Proof.
  unfold routableIds. rewrite !list_elem_of_In, filter_In, negb_true_iff, String.eqb_neq.
  done.
Qed.

Lemma routable_active data v : v ∈ routableIds data → v ∈ activeNodeIds data.
Proof. by intros [? _]%elem_of_routableIds. Qed.

Lemma walk_routable data s k v w : walk data s k v w → v ∈ routableIds data.
Proof. destruct 1 as [|k u v w c _ (l & _ & _ & _ & _ & _ & Hv)]; done. Qed.

Lemma walk_active data s k v w : walk data s k v w → v ∈ activeNodeIds data.
Proof. intros H. by apply walk_routable, routable_active in H. Qed.

Lemma active_is_node data v : v ∈ activeNodeIds data → v ∈ map node_id (nodes data).
Proof.
  intros (n & Hn & <- & _)%elem_of_activeNodeIds. apply list_elem_of_fmap. eauto.
Qed.

(** Without a node named ['__proto__'] the routable nodes are the active
    ones. *)
Lemma routableIds_no_proto data :
  "__proto__" ∉ map node_id (nodes data) → routableIds data = activeNodeIds data.
Proof.
  intros Hp. unfold routableIds.
  assert (H : ∀ v, v ∈ activeNodeIds data → v ≠ "__proto__").
  { intros v Hv ->. by apply active_is_node in Hv. }
  induction (activeNodeIds data) as [|a l IH]; [done|]. simpl.
  assert (Ha : a ≠ "__proto__") by apply H, list_elem_of_here.
  apply String.eqb_neq in Ha. rewrite Ha. simpl. f_equal. apply IH.
  intros v Hv. by apply H, list_elem_of_further.
Qed.

(** ** Correctness of the two variants *)

Section Correctness.

Variable data : GraphData.
Variable start : string.

(** Inside this section the invariants are read at [data] and [start]. *)
Local Abbreviation act := (activeNodeIds data).
Local Abbreviation tablesInv := (tablesInv data start).
Local Abbreviation ti_range := (ti_range data start).
Local Abbreviation ti_sound := (ti_sound data start).
Local Abbreviation ti_start := (ti_start data start).
Local Abbreviation ti_dom := (ti_dom data start).
Local Abbreviation ti_prev := (ti_prev data start).
Local Abbreviation ti_prev_some := (ti_prev_some data start).
Local Abbreviation relaxedOver := (relaxedOver data).
Local Abbreviation relaxedWhere := (relaxedWhere data).
Local Abbreviation dijkInv := (dijkInv data start).
Local Abbreviation di_tables := (di_tables data start).
Local Abbreviation di_nodup := (di_nodup data start).
Local Abbreviation di_cover := (di_cover data start).
Local Abbreviation di_disj := (di_disj data start).
Local Abbreviation di_order := (di_order data start).
Local Abbreviation di_hops := (di_hops data start).
Local Abbreviation innerInv := (innerInv data start).
Local Abbreviation outerInv := (outerInv data start).
Local Abbreviation dijkstraFinal := (dijkstraFinal data start).
Local Abbreviation attempted := (attempted data start).
Local Abbreviation at_tables := (at_tables data start).
Local Abbreviation at_below := (at_below data start).
Local Abbreviation at_edge := (at_edge data start).
Local Abbreviation at_quiet := (at_quiet data start).
Local Abbreviation at_loud := (at_loud data start).
Local Abbreviation scannedOver := (scannedOver data start).
Local Abbreviation sc_tables := (sc_tables data start).
Local Abbreviation sc_below := (sc_below data start).
Local Abbreviation sc_edge := (sc_edge data start).
Local Abbreviation sc_quiet := (sc_quiet data start).
Local Abbreviation sc_loud := (sc_loud data start).
Local Abbreviation reached := (reached data start).
Local Abbreviation bellmanFinal := (bellmanFinal data start).

(** Active links carry non-negative weights. *)
Hypothesis Hweights :
  ∀ l, l ∈ links data → link_active l = true → 0 ≤ link_weight l.

Lemma edge_nonneg u v c : edge data u v c → 0 ≤ c.
Proof. intros (l & Hl & Ha & _ & <- & _). by apply Hweights. Qed.

Lemma walk_nonneg k v w : walk data start k v w → 0 ≤ w.
Proof.
  induction 1 as [|k u v w c _ IH He]; [done|]. apply edge_nonneg in He. lia.
Qed.

Lemma tablesInv_active d p v : tablesInv d p → v ∈ routableIds data → is_Some (d !! v).
Proof.
  intros H [Hv Hp]%elem_of_routableIds. apply (ti_dom _ _ H). split; [|done].
  by apply active_is_node.
Qed.

(** An active node that the table holds is routable. *)
Lemma tablesInv_held d p v x :
  tablesInv d p → v ∈ activeNodeIds data → d !! v = Some x → v ∈ routableIds data.
Proof.
  intros H Hv Hx. apply elem_of_routableIds. split; [done|].
  apply (ti_dom _ _ H). eauto.
Qed.

(** The one way either variant changes the tables. *)
Lemma tablesInv_relax d p from to c df dt :
  tablesInv d p → edge data from to c →
  d !! from = Some df → df < INFINITY → d !! to = Some dt → df + c < dt →
  tablesInv (<[to := df + c]> d) (<[to := Some from]> p).
Proof.
  intros H He Hf Hdf Ht Hlt.
  pose proof (edge_nonneg _ _ _ He) as Hc.
  pose proof (ti_range _ _ H _ _ Hf) as Hrf. pose proof (ti_range _ _ H _ _ Ht) as Hrt.
  assert (Hne : from ≠ to) by (intros ->; rewrite Hf in Ht; injection Ht as ->; lia).
  split.
  - intros v x. destruct (decide (to = v)) as [->|Hv].
    + rewrite lookup_insert_eq. intros [= <-]. lia.
    + rewrite lookup_insert_ne by done. apply (ti_range _ _ H).
  - intros v x. destruct (decide (to = v)) as [->|Hv].
    + rewrite lookup_insert_eq. intros [= <-] _.
      destruct (ti_sound _ _ H _ _ Hf Hdf) as [k Hk]. exists (S k). by eapply walk_step.
    + rewrite lookup_insert_ne by done. apply (ti_sound _ _ H).
  - destruct (decide (to = start)) as [->|Hv].
    + rewrite (ti_start _ _ H) in Ht. injection Ht as <-. lia.
    + rewrite lookup_insert_ne by done. apply (ti_start _ _ H).
  - intros v. rewrite <- (ti_dom _ _ H). destruct (decide (to = v)) as [->|Hv].
    + rewrite lookup_insert_eq. split; eauto.
    + by rewrite lookup_insert_ne.
  - intros v u. destruct (decide (to = v)) as [->|Hv].
    + rewrite lookup_insert_eq. intros [= <-].
      exists c, df, (df + c). rewrite lookup_insert_ne, lookup_insert_eq by done.
      split_and!; [done..|lia|lia].
    + rewrite lookup_insert_ne by done. intros Hp.
      destruct (ti_prev _ _ H _ _ Hp) as (c' & du & dv & He' & Hu & Hdv & Hle & Hi).
      rewrite (lookup_insert_ne _ to v) by done.
      destruct (decide (to = u)) as [->|Hu'].
      * rewrite Ht in Hu. injection Hu as <-.
        exists c', (df + c), dv. rewrite lookup_insert_eq. split_and!; [done..|lia|done].
      * exists c', du, dv. rewrite lookup_insert_ne by done. done.
  - intros v x. destruct (decide (to = v)) as [->|Hv].
    + rewrite !lookup_insert_eq. eauto.
    + rewrite !lookup_insert_ne by done. apply (ti_prev_some _ _ H).
Qed.

(** Initial tables, for a start node that initialisation set to [0]. *)
Hypothesis Hstart : (initAll data start).1.1 !! start = Some 0.

Lemma start_active : start ∈ activeNodeIds data.
Proof. apply initFold_distances_values in Hstart as [|(_&_&?)]; done. Qed.

Lemma start_routable : start ∈ routableIds data.
Proof.
  apply elem_of_routableIds. split; [apply start_active|].
  apply (initFold_distances_dom start (nodes data) start). eauto.
Qed.

Lemma tablesInv_init :
  tablesInv (initAll data start).1.1 (initAll data start).1.2.
Proof.
  split.
  - intros v x Hx. apply initFold_distances_values in Hx as [->|(->&_)]; done.
  - intros v x Hx Hlt. apply initFold_distances_values in Hx as [->|(->&->&_)]; [done|].
    exists 0%nat. apply walk_start, start_routable.
  - done.
  - apply initFold_distances_dom.
  - intros v u Hp. by apply initFold_previous_values in Hp as [? _].
  - intros v x Hx Hlt Hne.
    apply initFold_distances_values in Hx as [->|(_&->&_)]; done.
Qed.

(** *** Dijkstra *)

Lemma innerInv_skip cur done st l :
  innerInv cur done st → relaxedOver (ds_distances st) cur l →
  innerInv cur (done ++ [l]) st.
Proof.
  intros [Hi Hc Hm Hr] Hl. split; [done..|].
  intros x l' Hx Hl' Ha [Hne|Hin]; [apply Hr; auto|].
  apply elem_of_app in Hin as [Hin|Hin%list_elem_of_singleton]; [apply Hr; auto|].
  subst l'. destruct (decide (x = cur)) as [->|Hne]; [done|apply Hr; auto].
Qed.

Lemma relaxNeighbor_inner cur done st l :
  l ∈ links data → link_active l = true → touches cur l = true →
  innerInv cur done st →
  innerInv cur (done ++ [l]) (relaxNeighbor act cur st l).
Proof.
  intros Hl Ha Ht Hinv. pose proof Hinv as [Hi Hc (dc & Hdc & Hlt & Hmax) Hr].
  pose proof (Hweights l Hl Ha) as Hw.
  pose proof (touches_joins _ _ Ht) as Hj.
  unfold relaxNeighbor. set (nb := neighborOf cur l) in *.
  destruct (set_has nb act) eqn:Enb; simpl.
  2: { apply innerInv_skip; [done|]. intros y dx dy Hy Hya.
       apply joins_neighborOf in Hy. fold nb in Hy. subst y.
       apply set_has_false in Enb. done. }
  apply set_has_true in Enb.
  destruct (set_has nb (ds_visited st)) eqn:Evis.
  { apply set_has_true in Evis. apply innerInv_skip; [done|].
    intros y dx dy Hy _ Hx Hdy. apply joins_neighborOf in Hy. fold nb in Hy. subst y.
    rewrite Hdc in Hx. injection Hx as <-. specialize (Hmax _ _ Evis Hdy). lia. }
  apply set_has_false in Evis.
  assert (Hunv : nb ∈ ds_unvisited st).
  { apply (di_cover _ Hi) in Enb as [|]; done. }
  rewrite Hdc.
  destruct (ds_distances st !! nb) as [dn|] eqn:Hdn.
  2: { apply innerInv_skip; [done|]. intros y dx dy Hy _ _ Hdy.
       apply joins_neighborOf in Hy. fold nb in Hy. subst y. congruence. }
  destruct (dc + link_weight l <? dn) eqn:Elt.
  2: { apply Z.ltb_ge in Elt. apply innerInv_skip; [done|].
       intros y dx dy Hy _ Hx Hdy. apply joins_neighborOf in Hy. fold nb in Hy. subst y.
       rewrite Hdc in Hx. rewrite Hdn in Hdy. injection Hx as <-. injection Hdy as <-. done. }
  apply Z.ltb_lt in Elt.
  assert (Hne : nb ≠ cur) by (intros E; apply Evis; by rewrite E).
  assert (Hcact : cur ∈ act) by (apply (di_cover _ Hi); auto).
  assert (Hedge : edge data cur nb (link_weight l)).
  { exists l. split_and!; [done..| |].
    - exact (tablesInv_held _ _ _ _ (di_tables _ Hi) Hcact Hdc).
    - exact (tablesInv_held _ _ _ _ (di_tables _ Hi) Enb Hdn). }
  split; simpl.
  - split; simpl.
    + apply (tablesInv_relax _ _ cur nb (link_weight l) dc dn (di_tables _ Hi) Hedge Hdc Hlt Hdn Elt).
    + apply (di_nodup _ Hi).
    + apply (di_cover _ Hi).
    + apply (di_disj _ Hi).
    + intros x y dx dy Hx Hy.
      assert (nb ≠ x) by (intros <-; done).
      rewrite lookup_insert_ne by done. intros Hdx.
      destruct (decide (nb = y)) as [<-|Hy'].
      * rewrite lookup_insert_eq. intros [= <-]. specialize (Hmax _ _ Hx Hdx). lia.
      * rewrite lookup_insert_ne by done. intros Hdy.
        exact (di_order _ Hi x y dx dy Hx Hy Hdx Hdy).
    + intros v x. destruct (decide (nb = v)) as [<-|Hv].
      * rewrite lookup_insert_eq. intros [= <-] _.
        destruct (di_hops _ Hi _ _ Hdc Hlt) as (k & Hk & _ & Hk2).
        exists (S k). split_and!; [by eapply walk_step| specialize (Hk2 Hc); lia | done].
      * rewrite lookup_insert_ne by done. apply (di_hops _ Hi).
  - done.
  - exists dc. rewrite lookup_insert_ne by done. split_and!; [done..|].
    intros x dx Hx. assert (nb ≠ x) by (intros <-; done).
    rewrite lookup_insert_ne by done. by apply Hmax.
  - unfold relaxedWhere, relaxedOver. simpl. intros x l' Hx Hl' Ha' HQ y dx dy Hy Hya.
    assert (nb ≠ x) by (intros <-; done).
    rewrite lookup_insert_ne by done. intros Hdx.
    assert (Hold : x ≠ cur ∨ l' ∈ done → ∀ dy0, ds_distances st !! y = Some dy0 →
                   dy0 ≤ dx + link_weight l').
    { intros HQ' dy0 Hdy0. by apply (Hr x l' Hx Hl' Ha' HQ' y dx dy0). }
    assert (Hnew : x = cur → l' = l → y = nb ∧ dx = dc).
    { intros -> ->. apply joins_neighborOf in Hy. split; [done|congruence]. }
    destruct (decide (nb = y)) as [<-|Hy'].
    + rewrite lookup_insert_eq. intros [= <-].
      destruct HQ as [HQ|HQ].
      * specialize (Hold (or_introl HQ) _ Hdn). lia.
      * apply elem_of_app in HQ as [HQ|HQ%list_elem_of_singleton].
        -- specialize (Hold (or_intror HQ) _ Hdn). lia.
        -- destruct (decide (x = cur)) as [Hxc|Hxc].
           ++ destruct (Hnew Hxc HQ) as [_ ->]. subst l'. lia.
           ++ specialize (Hold (or_introl Hxc) _ Hdn). lia.
    + rewrite lookup_insert_ne by done. intros Hdy.
      destruct HQ as [HQ|HQ]; [by apply Hold; auto|].
      apply elem_of_app in HQ as [HQ|HQ%list_elem_of_singleton]; [by apply Hold; auto|].
      destruct (decide (x = cur)) as [Hxc|Hxc]; [|by apply Hold; auto].
      destruct (Hnew Hxc HQ) as [-> _]. done.
Qed.

Lemma relaxNeighbor_sets cur st l :
  ds_visited (relaxNeighbor act cur st l) = ds_visited st ∧
  ds_unvisited (relaxNeighbor act cur st l) = ds_unvisited st.
Proof.
  unfold relaxNeighbor. destruct (negb _); [done|].
  destruct (set_has _ (ds_visited st)); [done|].
  destruct (ds_distances st !! cur); [|done].
  destruct (ds_distances st !! _); [|done].
  by destruct (_ <? _).
Qed.

Lemma fold_relaxNeighbor_sets cur ls st :
  ds_visited (fold_left (relaxNeighbor act cur) ls st) = ds_visited st ∧
  ds_unvisited (fold_left (relaxNeighbor act cur) ls st) = ds_unvisited st.
Proof.
  revert st. induction ls as [|l ls IH]; intros st; simpl; [done|].
  destruct (IH (relaxNeighbor act cur st l)) as [-> ->]. apply relaxNeighbor_sets.
Qed.

Lemma fold_relaxNeighbor_inner cur ls done st :
  (∀ l, l ∈ ls → l ∈ links data ∧ link_active l = true ∧ touches cur l = true) →
  innerInv cur done st →
  innerInv cur (done ++ ls) (fold_left (relaxNeighbor act cur) ls st).
Proof.
  revert done st. induction ls as [|l ls IH]; intros done st Hls Hinv; simpl.
  - by rewrite app_nil_r.
  - replace (done ++ l :: ls) with ((done ++ [l]) ++ ls) by by rewrite <- app_assoc.
    apply IH; [intros l' Hl'; apply Hls; by right|].
    destruct (Hls l) as (? & ? & ?); [by left|]. by apply relaxNeighbor_inner.
Qed.

Lemma length_set_add_fresh (x : string) (s : list string) :
  x ∉ s → length (set_add x s) = S (length s).
Proof.
  intros H. unfold set_add. apply set_has_false in H. rewrite H, length_app. simpl. lia.
Qed.

Lemma visitNode_outer cur m st :
  outerInv st → cur ∈ ds_unvisited st →
  ds_distances st !! cur = Some m → m < INFINITY →
  (∀ y dy, y ∈ ds_unvisited st → ds_distances st !! y = Some dy → m ≤ dy) →
  outerInv (visitNode act (List.filter link_active (links data)) cur m st) ∧
  ds_unvisited (visitNode act (List.filter link_active (links data)) cur m st)
    = set_delete cur (ds_unvisited st).
Proof.
  intros [Hi Hr] Hcur Hm Hlt Hmin. unfold visitNode.
  set (st1 := mkDState _ _ _ _ _).
  assert (Hfresh : cur ∉ ds_visited st) by (intros H; by apply (di_disj _ Hi) in H).
  assert (H1 : innerInv cur [] st1).
  { split; [split|..]; simpl.
    - apply (di_tables _ Hi).
    - apply NoDup_set_add, (di_nodup _ Hi).
    - intros v. rewrite (di_cover _ Hi), elem_of_set_add, elem_of_set_delete.
      destruct (decide (v = cur)) as [->|]; [tauto|]. tauto.
    - intros v. rewrite elem_of_set_add, elem_of_set_delete.
      intros [->|Hv]; [tauto|]. intros [_ Hv']. by apply (di_disj _ Hi) in Hv.
    - intros x y dx dy. rewrite elem_of_set_add, elem_of_set_delete.
      intros [->|Hx] [_ Hy] Hdx Hdy.
      + rewrite Hm in Hdx. injection Hdx as <-. eauto.
      + exact (di_order _ Hi x y dx dy Hx Hy Hdx Hdy).
    - intros v x Hv Hx. destruct (di_hops _ Hi _ _ Hv Hx) as (k & Hk & Hle & _).
      exists k. rewrite length_set_add_fresh by done. split_and!; [done|lia|lia].
    - apply elem_of_set_add. by left.
    - exists m. split_and!; [done..|]. intros x dx [->|Hx]%elem_of_set_add Hdx.
      + rewrite Hm in Hdx. injection Hdx as <-. lia.
      + exact (di_order _ Hi x cur dx m Hx Hcur Hdx Hm).
    - intros x l [->|Hx]%elem_of_set_add Hl Ha [Hne|Hin]; [done| |by apply Hr|].
      + by apply elem_of_nil in Hin.
      + by apply elem_of_nil in Hin. }
  pose proof (fold_relaxNeighbor_sets cur
                (List.filter (touches cur) (List.filter link_active (links data))) st1)
    as [Hvis Hunv].
  split; [|by rewrite Hunv].
  destruct (fold_relaxNeighbor_inner cur
              (List.filter (touches cur) (List.filter link_active (links data))) [] st1)
    as [Hi' Hc' _ Hr']; [|done|].
  { intros l Hl. apply list_elem_of_In, filter_In in Hl as [Hl Ht].
    apply filter_In in Hl as [Hl Ha]. by rewrite list_elem_of_In. }
  split; [done|]. intros x l Hx Hl Ha _.
  destruct (decide (x = cur)) as [->|Hne]; [|apply Hr'; auto].
  intros y dx dy Hy. apply (Hr' cur l Hx Hl Ha); [|done]. right. simpl.
  apply list_elem_of_In, filter_In. split; [|by eapply joins_touches].
  apply filter_In. by rewrite <- list_elem_of_In.
Qed.

Lemma findMin_snoc d unv y : findMin d (unv ++ [y]) = minStep d (findMin d unv) y.
Proof. unfold findMin. by rewrite fold_left_app. Qed.

Lemma findMin_spec d unv :
  (∀ y dy, y ∈ unv → d !! y = Some dy → (findMin d unv).2 ≤ dy) ∧
  match (findMin d unv).1 with
  | Some c => c ∈ unv ∧ d !! c = Some (findMin d unv).2 ∧ (findMin d unv).2 < INFINITY
  | None => (findMin d unv).2 = INFINITY
  end.
Proof.
  induction unv as [|y unv [IH1 IH2]] using rev_ind.
  - split; [by intros ? ? ?%elem_of_nil|done].
  - rewrite findMin_snoc. unfold minStep.
    assert (Hbound : (findMin d unv).2 ≤ INFINITY).
    { destruct (findMin d unv).1; [lia|]. lia. }
    destruct (d !! y) as [x|] eqn:Hy.
    + destruct (x <? (findMin d unv).2) eqn:E.
      * apply Z.ltb_lt in E. simpl. split.
        -- intros z dz [Hz|Hz%list_elem_of_singleton]%elem_of_app Hdz.
           ++ specialize (IH1 _ _ Hz Hdz). lia.
           ++ subst z. rewrite Hy in Hdz. injection Hdz as <-. lia.
        -- split_and!; [|done|lia]. apply elem_of_app. right. by apply list_elem_of_singleton.
      * apply Z.ltb_ge in E. split.
        -- intros z dz [Hz|Hz%list_elem_of_singleton]%elem_of_app Hdz; [eauto|].
           subst z. rewrite Hy in Hdz. by injection Hdz as <-.
        -- destruct (findMin d unv).1; [|done].
           destruct IH2 as (? & ? & ?). split_and!; [|done..]. apply elem_of_app. by left.
    + split.
      * intros z dz [Hz|Hz%list_elem_of_singleton]%elem_of_app Hdz; [eauto|].
        subst z. congruence.
      * destruct (findMin d unv).1; [|done].
        destruct IH2 as (? & ? & ?). split_and!; [|done..]. apply elem_of_app. by left.
Qed.

(** The loop keeps the invariant, and leaves only nodes at the sentinel
    unvisited. *)
Lemma dijkstraLoop_outer fuel st :
  (length (ds_unvisited st) ≤ fuel)%nat → outerInv st →
  let st' := dijkstraLoop fuel act (List.filter link_active (links data)) st in
  outerInv st' ∧
  ∀ y dy, y ∈ ds_unvisited st' → ds_distances st' !! y = Some dy → INFINITY ≤ dy.
Proof.
  revert st. induction fuel as [|fuel IH]; intros st Hlen Hinv; simpl.
  - split; [done|]. destruct (ds_unvisited st); [|simpl in Hlen; lia].
    by intros ? ? ?%elem_of_nil.
  - destruct (ds_unvisited st) as [|u0 unv] eqn:Hunv.
    { split; [done|]. rewrite Hunv. by intros ? ? ?%elem_of_nil. }
    rewrite <- Hunv in *.
    pose proof (findMin_spec (ds_distances st) (ds_unvisited st)) as [Hmin Hsel].
    destruct (findMin (ds_distances st) (ds_unvisited st)) as [[cur|] m]; simpl in *.
    2: { subst m. done. }
    destruct Hsel as (Hcur & Hm & Hlt).
    rewrite bool_decide_eq_false_2 by (rewrite Hm; intros [= ->]; lia).
    destruct (visitNode_outer cur m st Hinv Hcur Hm Hlt Hmin) as [Hinv' Hunv'].
    apply IH; [|done]. rewrite Hunv'.
    pose proof (length_set_delete cur (ds_unvisited st) Hcur). lia.
Qed.

Lemma runDijkstra_final :
  runDijkstra data start =
    ds_steps dijkstraFinal ++
      [mkStep (length (ds_steps dijkstraFinal)) DescDijkstraComplete
         (ds_distances dijkstraFinal) (ds_previous dijkstraFinal) [] []
         (ds_visited dijkstraFinal)].
Proof.
  pose proof (proj2 (set_has_true _ _) start_active) as Hact.
  unfold runDijkstra, dijkstraFinal.
  destruct (initAll data start) as [[d p] unv]. simpl.
  by rewrite Hact.
Qed.

Lemma outerInv_init :
  outerInv (mkDState (initAll data start).1.1 (initAll data start).1.2 []
              (initAll data start).2
              [mkStep 0 (DescDijkstraInit start) (initAll data start).1.1
                 (initAll data start).1.2 [start] [] []]).
Proof.
  split; [split|]; simpl.
  - apply tablesInv_init.
  - apply NoDup_nil_2.
  - intros v. change (initAll data start) with (initFold start (nodes data)).
    rewrite initFold_unvisited. unfold activeNodeIds. split; [auto|].
    intros [?%elem_of_nil|]; done.
  - by intros v ?%elem_of_nil.
  - by intros x y dx dy ?%elem_of_nil.
  - intros v x Hv Hx.
    apply initFold_distances_values in Hv as [->|(->&->&_)]; [done|].
    exists 0%nat. split_and!; [apply walk_start, start_routable|done|by intros ?%elem_of_nil].
  - by intros x l ?%elem_of_nil.
Qed.

Lemma dijkstraFinal_inv :
  outerInv dijkstraFinal ∧
  ∀ y dy, y ∈ ds_unvisited dijkstraFinal → ds_distances dijkstraFinal !! y = Some dy →
          INFINITY ≤ dy.
Proof. apply dijkstraLoop_outer; [done|apply outerInv_init]. Qed.

(** A path either ends in a visited node whose entry it does not beat, or
    some unvisited node has an entry it does not beat. *)
Lemma outerInv_reach st k v w :
  outerInv st → walk data start k v w →
  (v ∈ ds_visited st ∧ ∃ dv, ds_distances st !! v = Some dv ∧ dv ≤ w) ∨
  (∃ y dy, y ∈ ds_unvisited st ∧ ds_distances st !! y = Some dy ∧ dy ≤ w).
Proof.
  intros [Hi Hr]. induction 1 as [Hs|k u v w c Hw IH He].
  - pose proof (ti_start _ _ (di_tables _ Hi)) as H0. apply routable_active in Hs.
    apply (di_cover _ Hi) in Hs as [Hs|Hs]; [left|right]; eauto 6 with lia.
  - pose proof (edge_nonneg _ _ _ He) as Hc.
    destruct IH as [(Hu & du & Hdu & Hle)|(y & dy & Hy & Hdy & Hle)].
    2: { right. exists y, dy. split_and!; [done..|lia]. }
    destruct He as (l & Hl & Ha & Hj & <- & Hua & Hva).
    destruct (tablesInv_active _ _ v (di_tables _ Hi) Hva) as [dv Hdv].
    apply routable_active in Hva.
    pose proof (Hr u l Hu Hl Ha I v du dv Hj Hva Hdu Hdv) as Hrel.
    apply (di_cover _ Hi) in Hva as [Hv|Hv]; [left|right].
    + split; [done|]. exists dv. split; [done|lia].
    + exists v, dv. split_and!; [done..|lia].
Qed.

Lemma dijkstraFinal_tables :
  tablesInv (ds_distances dijkstraFinal) (ds_previous dijkstraFinal).
Proof. apply di_tables, dijkstraFinal_inv. Qed.

(** Completeness: no path below the sentinel beats the final entry. *)
Lemma dijkstraFinal_complete k v w :
  walk data start k v w → w < INFINITY →
  ∃ dv, ds_distances dijkstraFinal !! v = Some dv ∧ dv ≤ w.
Proof.
  intros Hw Hlt. destruct dijkstraFinal_inv as [Hinv Hexit].
  destruct (outerInv_reach _ _ _ _ Hinv Hw) as [(_ & dv & ? & ?)|(y & dy & Hy & Hdy & Hle)];
    [eauto|].
  specialize (Hexit _ _ Hy Hdy). lia.
Qed.

(** Every finite final entry is the weight of a path of at most [V - 1]
    links, [V] being the number of active nodes. *)
Lemma dijkstraFinal_hops v x :
  ds_distances dijkstraFinal !! v = Some x → x < INFINITY →
  ∃ k, walk data start k v x ∧
       (k ≤ length (List.filter node_active (nodes data)) - 1)%nat.
Proof.
  intros Hv Hx. destruct dijkstraFinal_inv as [[Hi _] Hexit].
  destruct (di_hops _ Hi _ _ Hv Hx) as (k & Hk & _ & Hvis).
  exists k. split; [done|].
  assert (Hin : v ∈ ds_visited dijkstraFinal).
  { pose proof (walk_active _ _ _ _ _ Hk) as Ha.
    apply (di_cover _ Hi) in Ha as [|Hu]; [done|]. specialize (Hexit _ _ Hu Hv). lia. }
  specialize (Hvis Hin).
  assert (length (ds_visited dijkstraFinal) ≤ length act)%nat.
  { apply submseteq_length, NoDup_submseteq; [apply (di_nodup _ Hi)|].
    intros y Hy. apply (di_cover _ Hi). by left. }
  unfold activeNodeIds in *. rewrite length_map in *. lia.
Qed.

(** *** Bellman-Ford *)

Lemma below_refl d : below d d.
Proof. intros v x Hx. exists x. split; [done|lia]. Qed.

Lemma below_trans d1 d2 d3 : below d1 d2 → below d2 d3 → below d1 d3.
Proof.
  intros H12 H23 v x Hx. destruct (H23 _ _ Hx) as (x2 & Hx2 & ?).
  destruct (H12 _ _ Hx2) as (x1 & Hx1 & ?). exists x1. split; [done|lia].
Qed.

Lemma relaxEdge_attempted i l st from to :
  tablesInv (bs_distances st) (bs_previous st) →
  l ∈ links data → link_active l = true → joins l from to →
  from ∈ act → to ∈ act →
  attempted l from to st (relaxEdge i l st from to).
Proof.
  intros Hinv Hl Ha Hj Hf Ht. unfold relaxEdge.
  destruct (bs_distances st !! from) as [df|] eqn:Hdf.
  2: { split; [done|apply below_refl| |done|done]. intros _ df'. congruence. }
  destruct (bs_distances st !! to) as [dt|] eqn:Hdt.
  2: { split; [done|apply below_refl| |done|done]. intros Hr.
       destruct (tablesInv_active _ _ _ Hinv Hr). congruence. }
  destruct (negb (df =? INFINITY) && (df + link_weight l <? dt)) eqn:E.
  - apply andb_true_iff in E as [E1 E2].
    apply negb_true_iff, Z.eqb_neq in E1. apply Z.ltb_lt in E2.
    pose proof (ti_range _ _ Hinv _ _ Hdf) as Hr.
    assert (Hedge : edge data from to (link_weight l)).
    { exists l. split_and!; [done..| |].
      - exact (tablesInv_held _ _ _ _ Hinv Hf Hdf).
      - exact (tablesInv_held _ _ _ _ Hinv Ht Hdt). }
    split; simpl.
    + apply (tablesInv_relax _ _ from to (link_weight l) df dt); auto with lia.
    + intros v x Hx. destruct (decide (to = v)) as [<-|Hne].
      * rewrite lookup_insert_eq. exists (df + link_weight l). split; [done|].
        rewrite Hdt in Hx. injection Hx as <-. lia.
      * rewrite lookup_insert_ne by done. exists x. split; [done|lia].
    + intros _ df' Hdf' _. rewrite Hdf in Hdf'. injection Hdf' as <-.
      exists (df + link_weight l). rewrite lookup_insert_eq. split; [done|lia].
    + done.
    + done.
  - split; [done|apply below_refl| |done|done].
    intros _ df' Hdf' Hlt. rewrite Hdf in Hdf'. injection Hdf' as <-.
    exists dt. split; [done|].
    apply andb_false_iff in E as [E|E].
    + apply negb_false_iff, Z.eqb_eq in E. lia.
    + apply Z.ltb_ge in E. lia.
Qed.

Lemma scanLink_scanned i l st :
  tablesInv (bs_distances st) (bs_previous st) →
  l ∈ links data → link_active l = true →
  scannedOver [l] st (scanLink act i st l).
Proof.
  intros Hinv Hl Ha. unfold scanLink.
  destruct (set_has (link_source l) act) eqn:Eu; simpl.
  2: { apply set_has_false in Eu. split; [done|apply below_refl| |done..].
       intros l' u v du ->%list_elem_of_singleton [[<- <-]|[<- <-]]
         ?%routable_active ?%routable_active; done. }
  destruct (set_has (link_target l) act) eqn:Ev; simpl.
  2: { apply set_has_false in Ev. split; [done|apply below_refl| |done..].
       intros l' u v du ->%list_elem_of_singleton [[<- <-]|[<- <-]]
         ?%routable_active ?%routable_active; done. }
  apply set_has_true in Eu, Ev.
  pose proof (relaxEdge_attempted i l st (link_source l) (link_target l) Hinv Hl Ha
                (or_introl (conj eq_refl eq_refl)) Eu Ev) as H1.
  pose proof (relaxEdge_attempted i l _ (link_target l) (link_source l) (at_tables _ _ _ _ _ H1)
                Hl Ha (or_intror (conj eq_refl eq_refl)) Ev Eu) as H2.
  set (st1 := relaxEdge i l st (link_source l) (link_target l)) in *.
  set (st2 := relaxEdge i l st1 (link_target l) (link_source l)) in *.
  split.
  - apply (at_tables _ _ _ _ _ H2).
  - eapply below_trans; [apply (at_below _ _ _ _ _ H2)|apply (at_below _ _ _ _ _ H1)].
  - intros l' u v du ->%list_elem_of_singleton [[<- <-]|[<- <-]] Hu Hv Hdu Hlt.
    + destruct (at_edge _ _ _ _ _ H1 Hv _ Hdu Hlt) as (dv & Hdv & Hle).
      destruct (at_below _ _ _ _ _ H2 _ _ Hdv) as (dv' & Hdv' & Hle').
      exists dv'. split; [done|lia].
    + destruct (at_below _ _ _ _ _ H1 _ _ Hdu) as (du' & Hdu' & Hle).
      destruct (at_edge _ _ _ _ _ H2 Hv du' Hdu') as (dv & Hdv & Hle'); [lia|].
      exists dv. split; [done|lia].
  - intros Hq. pose proof (at_quiet _ _ _ _ _ H2 Hq) as E2. rewrite E2 in Hq |- *.
    apply (at_quiet _ _ _ _ _ H1 Hq).
  - intros Hc. apply (at_loud _ _ _ _ _ H2), (at_loud _ _ _ _ _ H1 Hc).
Qed.

Lemma fold_scanLink_scanned i ls st :
  tablesInv (bs_distances st) (bs_previous st) →
  (∀ l, l ∈ ls → l ∈ links data ∧ link_active l = true) →
  scannedOver ls st (fold_left (scanLink act i) ls st).
Proof.
  revert st. induction ls as [|l ls IH]; intros st Hinv Hls; simpl.
  - split; [done|apply below_refl| |done..]. by intros l u v du ?%elem_of_nil.
  - destruct (Hls l) as [Hl Ha]; [by left|].
    pose proof (scanLink_scanned i l st Hinv Hl Ha) as H1.
    assert (H2 := IH (scanLink act i st l) (sc_tables _ _ _ H1)
                    (fun l' Hl' => Hls l' (list_elem_of_further _ _ _ Hl'))).
    set (st1 := scanLink act i st l) in *.
    split.
    + apply (sc_tables _ _ _ H2).
    + eapply below_trans; [apply (sc_below _ _ _ H2)|apply (sc_below _ _ _ H1)].
    + intros l' u v du [->|Hl']%elem_of_cons Hj Hu Hv Hdu Hlt.
      * destruct (sc_edge _ _ _ H1 l u v du) as (dv & Hdv & Hle); [by left|done..|].
        destruct (sc_below _ _ _ H2 _ _ Hdv) as (dv' & Hdv' & Hle').
        exists dv'. split; [done|lia].
      * destruct (sc_below _ _ _ H1 _ _ Hdu) as (du' & Hdu' & Hle).
        destruct (sc_edge _ _ _ H2 l' u v du') as (dv & Hdv & Hle'); [done..|lia|].
        exists dv. split; [done|lia].
    + intros Hq. pose proof (sc_quiet _ _ _ H2 Hq) as E2. rewrite E2 in Hq |- *.
      apply (sc_quiet _ _ _ H1 Hq).
    + intros Hc. apply (sc_loud _ _ _ H2), (sc_loud _ _ _ H1 Hc).
Qed.

Lemma reached_below k d d' : reached k d → below d' d → reached k d'.
Proof.
  intros Hr Hb j v w Hj Hw Hlt. destruct (Hr j v w Hj Hw Hlt) as (dv & Hdv & Hle).
  destruct (Hb _ _ Hdv) as (dv' & ? & ?). exists dv'. split; [done|lia].
Qed.

Lemma reached_scan k st st' :
  reached k (bs_distances st) →
  scannedOver (List.filter link_active (links data)) st st' →
  reached (S k) (bs_distances st').
Proof.
  intros Hr Hs j v w Hj Hw Hlt.
  inversion Hw as [Hsa Ej Ev Ew|j' u v' w' c Hw' He Ej Ev Ew].
  - subst j v w.
    eapply (reached_below k); [done|apply (sc_below _ _ _ Hs)|..|done|done]. lia.
  - subst j v' w. pose proof (edge_nonneg _ _ _ He) as Hc.
    destruct (Hr j' u w') as (du & Hdu & Hle); [lia|done|lia|].
    destruct He as (l & Hl & Ha & Hjn & <- & Hu & Hv).
    destruct (sc_edge _ _ _ Hs l u v du) as (dv & Hdv & Hle'); [|done..|lia|].
    { apply list_elem_of_In, filter_In. by rewrite <- list_elem_of_In. }
    exists dv. split; [done|lia].
Qed.

Lemma active_links_ok l :
  l ∈ List.filter link_active (links data) → l ∈ links data ∧ link_active l = true.
Proof. intros H. apply list_elem_of_In, filter_In in H. by rewrite list_elem_of_In. Qed.

Lemma scanLinks_scanned i st :
  tablesInv (bs_distances st) (bs_previous st) →
  scannedOver (List.filter link_active (links data))
    (mkBState (bs_distances st) (bs_previous st) (bs_steps st) false)
    (scanLinks act (List.filter link_active (links data)) i st).
Proof.
  intros Hinv. unfold scanLinks.
  apply fold_scanLink_scanned; [done|apply active_links_ok].
Qed.

Lemma bellmanLoop_reached remaining i k st :
  tablesInv (bs_distances st) (bs_previous st) →
  reached k (bs_distances st) →
  let st' := bellmanLoop remaining i act (List.filter link_active (links data)) st in
  tablesInv (bs_distances st') (bs_previous st') ∧
  reached (k + remaining) (bs_distances st').
Proof.
  revert i k st. induction remaining as [|n IH]; intros i k st Hinv Hr; simpl.
  - by rewrite Nat.add_0_r.
  - pose proof (scanLinks_scanned i st Hinv) as Hs.
    set (st1 := scanLinks act _ i st) in *.
    destruct (bs_changed st1) eqn:Ech.
    + replace (k + S n)%nat with (S k + n)%nat by lia.
      apply IH; [apply (sc_tables _ _ _ Hs)|].
      exact (reached_scan k (mkBState _ _ _ false) st1 Hr Hs).
    + simpl. pose proof (sc_quiet _ _ _ Hs Ech) as E. rewrite E in Hs |- *. simpl.
      split; [done|]. clear -Hr Hs Hweights.
      assert (Hall : ∀ m, reached (k + m) (bs_distances st)).
      { induction m as [|m IHm]; [by rewrite Nat.add_0_r|].
        rewrite Nat.add_succ_r.
        exact (reached_scan (k + m) (mkBState _ _ _ false) (mkBState _ _ _ false) IHm Hs). }
      apply Hall.
Qed.

Lemma runBellmanFord_final :
  runBellmanFord data start =
    bs_steps bellmanFinal ++
      [mkStep (length (bs_steps bellmanFinal)) DescBFComplete
         (bs_distances bellmanFinal) (bs_previous bellmanFinal) [] [] []].
Proof.
  pose proof (proj2 (set_has_true _ _) start_active) as Hact.
  unfold runBellmanFord, bellmanFinal.
  destruct (initAll data start) as [[d p] unv]. simpl.
  by rewrite Hact.
Qed.

Lemma bellmanFinal_inv :
  tablesInv (bs_distances bellmanFinal) (bs_previous bellmanFinal) ∧
  reached (length (List.filter node_active (nodes data)) - 1)
    (bs_distances bellmanFinal).
Proof.
  apply (bellmanLoop_reached _ 0 0 (mkBState _ _ _ false)); simpl.
  - apply tablesInv_init.
  - intros j v w Hj Hw _. inversion Hw; subst; [|lia]. exists 0. split; [done|lia].
Qed.

(** Both variants end with the same distances. *)
Lemma final_distances_agree :
  ds_distances dijkstraFinal = bs_distances bellmanFinal.
Proof.
  pose proof dijkstraFinal_tables as HD. destruct bellmanFinal_inv as [HB Hreach].
  apply map_eq. intros v.
  destruct (ds_distances dijkstraFinal !! v) as [x|] eqn:Hx;
    destruct (bs_distances bellmanFinal !! v) as [y|] eqn:Hy.
  - f_equal.
    pose proof (ti_range _ _ HD _ _ Hx). pose proof (ti_range _ _ HB _ _ Hy).
    assert (y ≤ x).
    { destruct (decide (x < INFINITY)) as [Hlt|]; [|lia].
      destruct (dijkstraFinal_hops _ _ Hx Hlt) as (k & Hk & Hle).
      destruct (Hreach k v x Hle Hk Hlt) as (y' & Hy' & ?). congruence. }
    assert (x ≤ y).
    { destruct (decide (y < INFINITY)) as [Hlt|]; [|lia].
      destruct (ti_sound _ _ HB _ _ Hy Hlt) as [k Hk].
      destruct (dijkstraFinal_complete _ _ _ Hk Hlt) as (x' & Hx' & ?). congruence. }
    lia.
  - assert (is_Some (bs_distances bellmanFinal !! v)) as [? ?]; [|congruence].
    apply (ti_dom _ _ HB), (ti_dom _ _ HD). eauto.
  - assert (is_Some (ds_distances dijkstraFinal !! v)) as [? ?]; [|congruence].
    apply (ti_dom _ _ HD), (ti_dom _ _ HB). eauto.
  - done.
Qed.

(** The final distances of either variant are those of [dijkstraFinal]. *)
Lemma runAlgorithm_final_distances (type : AlgorithmType) :
  ∃ st, last (runAlgorithm type data start) = Some st ∧
        distances st = ds_distances dijkstraFinal.
Proof.
  destruct type; simpl.
  - rewrite runDijkstra_final, last_snoc. eauto.
  - rewrite runBellmanFord_final, last_snoc. eexists. split; [done|].
    simpl. symmetry. apply final_distances_agree.
Qed.

(** Shortest-path content of the final table. *)
Lemma dijkstraFinal_unreachable v :
  v ∈ map node_id (nodes data) → v ≠ "__proto__" →
  (∀ k w, walk data start k v w → INFINITY ≤ w) →
  ds_distances dijkstraFinal !! v = Some INFINITY.
Proof.
  intros Hv Hp Hno. pose proof dijkstraFinal_tables as HD.
  destruct (proj2 (ti_dom _ _ HD v) (conj Hv Hp)) as [x Hx]. rewrite Hx. f_equal.
  pose proof (ti_range _ _ HD _ _ Hx).
  destruct (decide (x < INFINITY)) as [Hlt|]; [|lia].
  destruct (ti_sound _ _ HD _ _ Hx Hlt) as [k Hk]. specialize (Hno _ _ Hk). lia.
Qed.

Lemma dijkstraFinal_minimum k v w :
  walk data start k v w → w < INFINITY →
  ∃ m j, ds_distances dijkstraFinal !! v = Some m ∧ walk data start j v m ∧
         ∀ k' w', walk data start k' v w' → m ≤ w'.
Proof.
  intros Hw Hlt. pose proof dijkstraFinal_tables as HD.
  destruct (dijkstraFinal_complete _ _ _ Hw Hlt) as (m & Hm & Hle).
  destruct (ti_sound _ _ HD _ _ Hm) as [j Hj]; [lia|].
  exists m, j. split_and!; [done..|]. intros k' w' Hw'.
  destruct (decide (w' < INFINITY)) as [Hlt'|]; [|lia].
  destruct (dijkstraFinal_complete _ _ _ Hw' Hlt') as (m' & Hm' & ?). congruence.
Qed.

End Correctness.

(** ** The fuel of the Dijkstra loop is never what stops it *)

Lemma visitNode_unvisited data lks cur m st :
  ds_unvisited (visitNode (activeNodeIds data) lks cur m st)
    = set_delete cur (ds_unvisited st).
Proof.
  unfold visitNode.
  by destruct (fold_relaxNeighbor_sets data cur (List.filter (touches cur) lks)
                 (mkDState (ds_distances st) (ds_previous st)
                    (set_add cur (ds_visited st)) (set_delete cur (ds_unvisited st))
                    (ds_steps st ++
                       [mkStep (length (ds_steps st)) (DescSelected cur m)
                          (ds_distances st) (ds_previous st) [cur] []
                          (set_add cur (ds_visited st))]))) as [_ ->].
Qed.

(** Whatever the topology, any fuel of at least [unvisited.size] gives the
    same run: the loop ends on its own guard or on its [break]. *)
Lemma dijkstraLoop_fuel_stable data lks n fuel st :
  (length (ds_unvisited st) ≤ n)%nat → (n ≤ fuel)%nat →
  dijkstraLoop fuel (activeNodeIds data) lks st
    = dijkstraLoop n (activeNodeIds data) lks st.
Proof.
  revert fuel st. induction n as [|n IH]; intros fuel st Hlen Hle.
  - destruct (ds_unvisited st) eqn:E; [|simpl in Hlen; lia].
    destruct fuel; simpl; [done|]. by rewrite E.
  - destruct fuel as [|fuel]; [lia|]. simpl.
    destruct (ds_unvisited st) as [|u0 unv] eqn:Hunv; [done|]. rewrite <- Hunv in *.
    pose proof (findMin_spec (ds_distances st) (ds_unvisited st)) as [_ Hsel].
    destruct (findMin (ds_distances st) (ds_unvisited st)) as [[cur|] m]; [|done].
    simpl in Hsel. destruct Hsel as (Hcur & _ & _).
    case_bool_decide; [done|]. apply IH; [|lia].
    rewrite visitNode_unvisited.
    pose proof (length_set_delete cur (ds_unvisited st) Hcur). lia.
Qed.

(** ** Runs in which nothing is reachable *)

Lemma findMin_all_unreachable d unv :
  allUnreachable d → findMin d unv = (None, INFINITY).
Proof.
  intros H. induction unv as [|y unv IH] using rev_ind; [done|].
  unfold findMin in *. rewrite fold_left_app, IH. simpl. unfold minStep.
  destruct (d !! y) as [x|] eqn:Hy; [|done]. by rewrite (H _ _ Hy).
Qed.

Lemma dijkstraLoop_all_unreachable fuel act lks st :
  allUnreachable (ds_distances st) → dijkstraLoop fuel act lks st = st.
Proof.
  intros H. destruct fuel; simpl; [done|]. destruct (ds_unvisited st) eqn:E; [done|].
  rewrite <- E. by rewrite findMin_all_unreachable.
Qed.

Lemma relaxEdge_all_unreachable i l st from to :
  allUnreachable (bs_distances st) → relaxEdge i l st from to = st.
Proof.
  intros H. unfold relaxEdge. destruct (bs_distances st !! from) as [df|] eqn:Hf; [|done].
  destruct (bs_distances st !! to); [|done]. by rewrite (H _ _ Hf).
Qed.

Lemma fold_scanLink_all_unreachable act i ls st :
  allUnreachable (bs_distances st) → fold_left (scanLink act i) ls st = st.
Proof.
  intros H. induction ls as [|l ls IH]; simpl; [done|].
  assert (scanLink act i st l = st) as ->; [|done].
  unfold scanLink. destruct (_ || _); [done|].
  rewrite (relaxEdge_all_unreachable i l st _ _ H).
  apply (relaxEdge_all_unreachable i l st _ _ H).
Qed.

Lemma bellmanLoop_all_unreachable remaining i act lks st :
  allUnreachable (bs_distances st) →
  bs_distances (bellmanLoop remaining i act lks st) = bs_distances st ∧
  bs_previous (bellmanLoop remaining i act lks st) = bs_previous st.
Proof.
  intros H. destruct remaining; simpl; [done|]. unfold scanLinks.
  by rewrite fold_scanLink_all_unreachable.
Qed.

Lemma run_all_unreachable type data startNodeId :
  allUnreachable (initAll data startNodeId).1.1 →
  ∃ st, last (runAlgorithm type data startNodeId) = Some st ∧
        distances st = (initAll data startNodeId).1.1 ∧
        previous st = (initAll data startNodeId).1.2.
Proof.
  intros H. destruct type; simpl; unfold runDijkstra, runBellmanFord;
    destruct (initAll data startNodeId) as [[d p] unv]; simpl in H;
    destruct (negb _); simpl; eauto; rewrite last_snoc; eexists; (split; [done|]); simpl.
  - by rewrite dijkstraLoop_all_unreachable.
  - by apply (bellmanLoop_all_unreachable _ _ _ _ (mkBState d p _ false)).
Qed.

Lemma init_zero_or_all_unreachable data startNodeId :
  (initAll data startNodeId).1.1 !! startNodeId = Some 0 ∨
  allUnreachable (initAll data startNodeId).1.1.
Proof.
  destruct (decide ((initAll data startNodeId).1.1 !! startNodeId = Some 0)) as [|Hn];
    [by left|right].
  intros v x Hx. pose proof Hx as Hx'.
  apply initFold_distances_values in Hx as [|(-> & -> & _)]; done.
Qed.

Lemma walk_needs_active_start data s k v w :
  walk data s k v w → s ∈ activeNodeIds data.
Proof. induction 1; [by apply routable_active|done]. Qed.

Lemma walk_needs_routable_start data s k v w :
  walk data s k v w → s ∈ routableIds data.
Proof. induction 1; done. Qed.

(** ** C3: the two variants agree *)

(** C3. On every topology whose link weights are strictly positive, and for
    every start node, the final steps of the two variants carry the same
    [distances] map, hence the same nodes at the unreachable sentinel. *)
Theorem dijkstra_bellman_ford_agree (data : GraphData) (startNodeId : string) :
  (∀ l, l ∈ links data → 0 < link_weight l) →
  ∃ sd sb,
    last (runAlgorithm DIJKSTRA data startNodeId) = Some sd ∧
    last (runAlgorithm BELLMAN_FORD data startNodeId) = Some sb ∧
    distances sd = distances sb ∧
    ∀ v, distances sd !! v = Some INFINITY ↔ distances sb !! v = Some INFINITY.
Proof.
  intros Hpos.
  assert (Hw : ∀ l, l ∈ links data → link_active l = true → 0 ≤ link_weight l).
  { intros l Hl _. specialize (Hpos l Hl). lia. }
  assert (∃ sd sb,
    last (runAlgorithm DIJKSTRA data startNodeId) = Some sd ∧
    last (runAlgorithm BELLMAN_FORD data startNodeId) = Some sb ∧
    distances sd = distances sb) as (sd & sb & H1 & H2 & H3).
  { destruct (init_zero_or_all_unreachable data startNodeId) as [H0|Hall].
    - destruct (runAlgorithm_final_distances data startNodeId Hw H0 DIJKSTRA) as (sd & ? & Hd).
      destruct (runAlgorithm_final_distances data startNodeId Hw H0 BELLMAN_FORD) as (sb & ? & Hb).
      exists sd, sb. split_and!; [done..|congruence].
    - destruct (run_all_unreachable DIJKSTRA _ _ Hall) as (sd & ? & Hd & _).
      destruct (run_all_unreachable BELLMAN_FORD _ _ Hall) as (sb & ? & Hb & _).
      exists sd, sb. split_and!; [done..|congruence]. }
  exists sd, sb. split_and!; [done..|]. intros v. by rewrite H3.
Qed.

Lemma INITIAL_GRAPH_positive : ∀ l, l ∈ links INITIAL_GRAPH → 0 < link_weight l.
Proof.
  intros l Hl. simpl in Hl.
  repeat (apply elem_of_cons in Hl as [-> | Hl]; [simpl; lia|]).
  by apply elem_of_nil in Hl.
Qed.

Lemma dijkstra_bellman_ford_agree_witness :
  ∃ sd sb,
    last (runAlgorithm DIJKSTRA INITIAL_GRAPH "C") = Some sd ∧
    last (runAlgorithm BELLMAN_FORD INITIAL_GRAPH "C") = Some sb ∧
    distances sd = distances sb ∧
    ∀ v, distances sd !! v = Some INFINITY ↔ distances sb !! v = Some INFINITY.
Proof.
  apply (dijkstra_bellman_ford_agree INITIAL_GRAPH "C"), INITIAL_GRAPH_positive.
Defined.

(** ** C1: the final distances are shortest-path weights, up to the sentinel *)

(** C1, as stated, fails: [B] is one active link of weight 10000 away from
    [A], that is the least weight of a path to it, and both variants leave
    [B] at the sentinel 9999. *)
Lemma far_node_left_at_sentinel :
  walk farGraph "A" 1 "B" 10000 ∧
  (∀ k w, walk farGraph "A" k "B" w → 10000 ≤ w) ∧
  ∃ sd sb, last (runAlgorithm DIJKSTRA farGraph "A") = Some sd ∧
           last (runAlgorithm BELLMAN_FORD farGraph "A") = Some sb ∧
           distances sd !! "B" = Some 9999 ∧ distances sb !! "B" = Some 9999.
Proof.
  assert (Hw : ∀ l, l ∈ links farGraph → link_active l = true → 0 ≤ link_weight l).
  { intros l [->|[]%elem_of_nil]%elem_of_cons _. simpl. lia. }
  split_and!.
  - apply (walk_step farGraph "A" 0 "A" "B" 0 10000).
    + apply walk_start. vm_compute. apply list_elem_of_here.
    + exists (mkLink "AB" "A" "B" 10000 true).
      split_and!; [apply list_elem_of_here|done|by left|done| |]; vm_compute.
      * apply list_elem_of_here.
      * apply list_elem_of_further, list_elem_of_here.
  - intros k w Hwalk. inversion Hwalk as [|k' u v' w' c Hw' He]; subst.
    pose proof (walk_nonneg _ _ Hw _ _ _ Hw').
    destruct He as (l & [->|[]%elem_of_nil]%elem_of_cons & _ & _ & <- & _). simpl. lia.
  - do 2 eexists. split_and!; by vm_compute.
Qed.

(** C1 (amended). On a topology with unique node identifiers, none of them
    ['__proto__'], and non-negative weights on its active links, for either
    variant and any start node, the final [distances] entry of a node is
    the least weight of a path of active links through active nodes from
    the start node whenever some such path weighs less than the sentinel
    9999, and is the sentinel otherwise (no path at all, or none below
    9999).  Without a node named ['__proto__'] the routable nodes that
    [walk] goes through are the active ones ([routableIds_no_proto]). *)
Theorem final_distances_shortest (type : AlgorithmType) (data : GraphData)
    (startNodeId v : string) :
  NoDup (map node_id (nodes data)) →
  "__proto__" ∉ map node_id (nodes data) →
  (∀ l, l ∈ links data → link_active l = true → 0 ≤ link_weight l) →
  v ∈ map node_id (nodes data) →
  ∃ st, last (runAlgorithm type data startNodeId) = Some st ∧
        ((∀ k w, walk data startNodeId k v w → INFINITY ≤ w) →
         distances st !! v = Some INFINITY) ∧
        (∀ k w, walk data startNodeId k v w → w < INFINITY →
           ∃ m j, distances st !! v = Some m ∧ walk data startNodeId j v m ∧
                  ∀ k' w', walk data startNodeId k' v w' → m ≤ w').
Proof.
  intros Hnd Hproto Hw Hv.
  assert (Hvp : v ≠ "__proto__") by (by intros ->).
  destruct (decide (startNodeId ∈ activeNodeIds data)) as [Hact|Hact].
  - assert (H0 : (initAll data startNodeId).1.1 !! startNodeId = Some 0).
    { change (initAll data startNodeId) with (initFold startNodeId (nodes data)).
      pose proof (active_is_node _ _ Hact) as Hs.
      rewrite initFold_distances_unique; [|done|done|by intros ->].
      by rewrite bool_decide_eq_true_2. }
    destruct (runAlgorithm_final_distances data startNodeId Hw H0 type) as (st & Hst & Hd).
    exists st. rewrite Hd. split_and!; [done| |].
    + by apply dijkstraFinal_unreachable.
    + intros k w. by apply dijkstraFinal_minimum.
  - destruct (initAll_all_unreachable data startNodeId Hact) as [Hn Hall].
    destruct (run_all_unreachable type data startNodeId Hall) as (st & Hst & Hd & _).
    exists st. rewrite Hd. split_and!; [done| |].
    + intros _. apply list_elem_of_fmap in Hv as (n & -> & Hn'). by apply Hn.
    + intros k w Hwalk. by apply walk_needs_active_start in Hwalk.
Qed.

Lemma final_distances_shortest_witness :
  ∃ st, last (runAlgorithm BELLMAN_FORD INITIAL_GRAPH "A") = Some st ∧
        ((∀ k w, walk INITIAL_GRAPH "A" k "F" w → INFINITY ≤ w) →
         distances st !! "F" = Some INFINITY) ∧
        (∀ k w, walk INITIAL_GRAPH "A" k "F" w → w < INFINITY →
           ∃ m j, distances st !! "F" = Some m ∧ walk INITIAL_GRAPH "A" j "F" m ∧
                  ∀ k' w', walk INITIAL_GRAPH "A" k' "F" w' → m ≤ w').
Proof.
  apply (final_distances_shortest BELLMAN_FORD INITIAL_GRAPH "A" "F").
  - apply (bool_decide_unpack _). vm_compute. exact I.
  - apply (bool_decide_unpack _). vm_compute. exact I.
  - intros l Hl _. pose proof (INITIAL_GRAPH_positive l Hl). lia.
  - apply (bool_decide_unpack _). vm_compute. exact I.
Defined.

(** ** The converged tables of either variant *)

Lemma runAlgorithm_converged (type : AlgorithmType) (data : GraphData) (start : string) :
  (∀ l, l ∈ links data → link_active l = true → 0 ≤ link_weight l) →
  (initAll data start).1.1 !! start = Some 0 →
  ∃ st, last (runAlgorithm type data start) = Some st ∧
        convergedTables data start (distances st) (previous st).
Proof.
  intros Hw H0. destruct type; simpl.
  - rewrite (runDijkstra_final data start H0), last_snoc. eexists. split; [done|]. simpl.
    split; [by apply dijkstraFinal_tables|]. intros k v w. by apply dijkstraFinal_complete.
  - rewrite (runBellmanFord_final data start H0), last_snoc. eexists. split; [done|]. simpl.
    split; [by apply bellmanFinal_inv|]. rewrite <- (final_distances_agree data start Hw H0).
    intros k v w. by apply dijkstraFinal_complete.
Qed.

(** In converged tables a predecessor entry is tight: some active link
    from the predecessor accounts exactly for the difference. *)
Lemma converged_prev_tight data start d p v u :
  (∀ l, l ∈ links data → link_active l = true → 0 ≤ link_weight l) →
  convergedTables data start d p →
  p !! v = Some (Some u) →
  ∃ l du dv, l ∈ links data ∧ link_active l = true ∧ joins l u v ∧
             u ∈ activeNodeIds data ∧ v ∈ activeNodeIds data ∧
             d !! u = Some du ∧ d !! v = Some dv ∧
             dv = du + link_weight l ∧ 0 ≤ du ∧ dv < INFINITY.
Proof.
  intros Hw [Hinv Hcomp] Hp.
  destruct (ti_prev _ _ _ _ Hinv _ _ Hp) as (c & du & dv & He & Hu & Hv & Hle & Hlt).
  pose proof (edge_nonneg _ Hw _ _ _ He) as Hc.
  pose proof (ti_range _ _ _ _ Hinv _ _ Hu) as Hru.
  destruct (ti_sound _ _ _ _ Hinv _ _ Hu) as [k Hk]; [lia|].
  destruct (Hcomp (S k) v (du + c)) as (dv' & Hdv' & Hle'); [by eapply walk_step|lia|].
  rewrite Hv in Hdv'. injection Hdv' as <-.
  destruct He as (l & Hl & Ha & Hj & <- & Hua%routable_active & Hva%routable_active).
  exists l, du, dv. split_and!; [done..|lia|lia|done].
Qed.

(** ** C8: the reconstructed links add up to the cost *)

Lemma sumWeights_app ls1 ls2 : sumWeights (ls1 ++ ls2) = sumWeights ls1 + sumWeights ls2.
Proof. induction ls1 as [|l ls1 IH]; simpl; [done|]. rewrite IH. lia. Qed.

(** C8, as stated, fails when two links join the same pair of nodes: the
    engine routes over the cheaper one (cost 1), the reconstructor picks
    the first link joining the pair (weight 5). *)
Lemma parallel_links_sum_differs :
  ∃ st, last (runAlgorithm DIJKSTRA parallelGraph "A") = Some st ∧
        distances st !! "B" = Some 1 ∧
        shortestPathData parallelGraph "A" (Some "B") (Some st) =
          mkPathData (CostNumber 1) ["slow"] (joinWith arrow ["A"; "B"]) ∧
        ws_found (reconstruct parallelGraph st "A" "B") = [mkLink "slow" "A" "B" 5 true] ∧
        sumWeights (ws_found (reconstruct parallelGraph st "A" "B")) ≠ 1.
Proof. eexists. split_and!; [by vm_compute..|]. vm_compute. discriminate. Qed.

Section Reconstruction.

Variable data : GraphData.
Variable start : string.
Variable d : gmap string Z.
Variable p : gmap string (option string).

Local Abbreviation usable := (usable data).

Hypothesis Hpos : ∀ l, l ∈ links data → 0 < link_weight l.
Hypothesis Hids : ∀ n, n ∈ nodes data → node_id n ≠ "".
Hypothesis Hsimple :
  ∀ l1 l2 u v, l1 ∈ links data → l2 ∈ links data →
               joins l1 u v → joins l2 u v → l1 = l2.
Hypothesis Hconv : convergedTables data start d p.

Lemma weights_nonneg : ∀ l, l ∈ links data → link_active l = true → 0 ≤ link_weight l.
Proof. intros l Hl _. specialize (Hpos l Hl). lia. Qed.

Lemma active_truthy u : u ∈ activeNodeIds data → truthy u = true.
Proof.
  intros (n & Hn & <- & _)%elem_of_activeNodeIds. unfold truthy.
  apply negb_true_iff, String.eqb_neq. by apply Hids.
Qed.

Lemma find_connects l u v :
  l ∈ links data → joins l u v → find (connects u v) (links data) = Some l.
Proof.
  intros Hl Hj. destruct (find (connects u v) (links data)) as [l'|] eqn:E.
  - apply find_some in E as [Hl' Hc]. apply joins_connects in Hc.
    f_equal. apply (Hsimple l' l u v); [by apply list_elem_of_In|done..].
  - apply list_elem_of_In in Hl. pose proof (find_none _ _ E l Hl) as Hc.
    apply joins_connects in Hj. congruence.
Qed.

(** From a state whose node path is duplicate-free and lies above the
    current node, the walk arrives at the start node and the links it
    adds weigh what the current node is away from it. *)
Lemma walkBack_reaches fuel ws dc :
  d !! ws_curr ws = Some dc → dc < INFINITY →
  length (ws_nodePath ws) = S (ws_safety ws) →
  NoDup (ws_nodePath ws) →
  head (ws_nodePath ws) = Some (ws_curr ws) →
  (∀ x, x ∈ ws_nodePath ws →
        x ∈ map node_id (nodes data) ∧ ∃ dx, d !! x = Some dx ∧ dc ≤ dx) →
  (fuel + ws_safety ws = length (nodes data))%nat →
  let ws' := walkBack fuel data p start ws in
  ws_curr ws' = start ∧
  sumWeights (ws_found ws') = sumWeights (ws_found ws) + dc ∧
  (Forall usable (ws_found ws) → Forall usable (ws_found ws')) ∧
  head (ws_nodePath ws') = Some start ∧
  last (ws_nodePath ws') = last (ws_nodePath ws).
Proof.
  destruct Hconv as [Hinv Hcomp].
  revert ws dc. induction fuel as [|fuel IH]; intros ws dc Hdc Hlt Hlen Hnd Hhd Hpath Hfuel.
  - assert (length (ws_nodePath ws) ≤ length (map node_id (nodes data)))%nat.
    { apply submseteq_length, NoDup_submseteq; [done|]. intros x Hx. by apply Hpath. }
    rewrite length_map in *. simpl in Hfuel. lia.
  - simpl. destruct (String.eqb (ws_curr ws) start) eqn:Ecur; simpl.
    { apply String.eqb_eq in Ecur. rewrite Ecur, (ti_start _ _ _ _ Hinv) in Hdc.
      injection Hdc as <-. split_and!; [done|lia|done|congruence|done]. }
    apply String.eqb_neq in Ecur.
    replace (ws_safety ws <? length (nodes data))%nat with true
      by (symmetry; apply Nat.ltb_lt; lia).
    destruct (ti_prev_some _ _ _ _ Hinv _ _ Hdc Hlt Ecur) as [u Hu]. rewrite Hu.
    destruct (converged_prev_tight _ _ _ _ _ _ weights_nonneg Hconv Hu)
      as (l & du & dv & Hl & Ha & Hj & Hua & Hva & Hdu & Hdv & Heq & Hdu0 & _).
    rewrite Hdc in Hdv. injection Hdv as <-.
    rewrite (active_truthy _ Hua), (find_connects l _ _ Hl Hj).
    pose proof (Hpos l Hl) as Hwl.
    set (ws1 := mkWalk u (ws_found ws ++ [l]) (u :: ws_nodePath ws) (S (ws_safety ws))).
    destruct (IH ws1 du) as (H1 & H2 & H3 & H4 & H5); simpl.
    + done.
    + lia.
    + by rewrite Hlen.
    + apply NoDup_cons. split; [|done]. intros Hin.
      destruct (Hpath _ Hin) as (_ & dx & Hdx & Hle). rewrite Hdu in Hdx.
      injection Hdx as <-. lia.
    + done.
    + intros x [->|Hx]%elem_of_cons.
      * split; [by apply active_is_node|]. exists du. split; [done|lia].
      * destruct (Hpath _ Hx) as (? & dx & ? & ?). split; [done|].
        exists dx. split; [done|lia].
    + lia.
    + split_and!; [done| | |done|].
      * rewrite H2. simpl. rewrite sumWeights_app. simpl. lia.
      * intros Hf. apply H3. simpl. apply Forall_app. split; [done|].
        by apply Forall_singleton.
      * rewrite H5. simpl. destruct (ws_nodePath ws) eqn:E; [done|]. done.
Qed.

End Reconstruction.

(** C8 (amended). On a topology with strictly positive weights, non-empty
    node identifiers and at most one link between any two nodes, for the
    final step of either variant and every target whose entry is below the
    sentinel, the reconstructor reports that entry as the cost and returns
    the identifiers of active links of the topology whose weights add up to
    it, along a node path from the start node to the target. *)
Theorem reconstruction_cost_matches (type : AlgorithmType) (data : GraphData)
    (startNode endNode : string) (st : SimulationStep) (c : Z) :
  (∀ l, l ∈ links data → 0 < link_weight l) →
  (∀ n, n ∈ nodes data → node_id n ≠ "") →
  (∀ l1 l2 u v, l1 ∈ links data → l2 ∈ links data →
                joins l1 u v → joins l2 u v → l1 = l2) →
  last (runAlgorithm type data startNode) = Some st →
  distances st !! endNode = Some c →
  c < INFINITY →
  ∃ found nodePath,
    shortestPathData data startNode (Some endNode) (Some st) =
      mkPathData (CostNumber c) (map link_id found) (joinWith arrow nodePath) ∧
    Forall (fun l => l ∈ links data ∧ link_active l = true) found ∧
    sumWeights found = c ∧
    head nodePath = Some startNode ∧ last nodePath = Some endNode.
Proof.
  intros Hpos Hids Hsimple Hlast Hc Hlt.
  assert (Hw : ∀ l, l ∈ links data → link_active l = true → 0 ≤ link_weight l).
  { intros l Hl _. specialize (Hpos l Hl). lia. }
  assert (Hconv : convergedTables data startNode (distances st) (previous st)).
  { destruct (init_zero_or_all_unreachable data startNode) as [H0|Hall].
    - destruct (runAlgorithm_converged type data startNode Hw H0) as (st' & Hst' & Hconv).
      congruence.
    - destruct (run_all_unreachable type data startNode Hall) as (st' & Hst' & Hd & _).
      assert (st' = st) as -> by congruence. rewrite Hd in Hc.
      specialize (Hall _ _ Hc). lia. }
  assert (Hnode : endNode ∈ map node_id (nodes data)).
  { apply (ti_dom _ _ _ _ (proj1 Hconv)). eauto. }
  assert (Htruthy : truthy endNode = true).
  { apply list_elem_of_fmap in Hnode as (n & -> & Hn). unfold truthy.
    apply negb_true_iff, String.eqb_neq. by apply Hids. }
  exists (ws_found (reconstruct data st startNode endNode)),
         (ws_nodePath (reconstruct data st startNode endNode)).
  split.
  { unfold shortestPathData. rewrite Htruthy, Hc.
    replace (c >=? INFINITY) with false by (symmetry; rewrite Z.geb_leb; apply Z.leb_gt; lia).
    done. }
  destruct (walkBack_reaches data startNode (distances st) (previous st) Hpos Hids Hsimple
              Hconv (length (nodes data)) (mkWalk endNode [] [endNode] 0) c)
    as (_ & Hsum & Hok & Hhd & Hlst); simpl; try done.
  - apply NoDup_singleton.
  - intros x ->%list_elem_of_singleton. split; [done|]. exists c. split; [done|lia].
  - unfold reconstruct. split_and!; [by apply Hok|rewrite Hsum; simpl; lia|done..].
Qed.

Lemma INITIAL_GRAPH_simple :
  ∀ l1 l2 u v, l1 ∈ links INITIAL_GRAPH → l2 ∈ links INITIAL_GRAPH →
               joins l1 u v → joins l2 u v → l1 = l2.
Proof.
  intros l1 l2 u v H1 H2. simpl in H1, H2.
  repeat (apply elem_of_cons in H1 as [-> | H1]);
    try (by apply elem_of_nil in H1);
    repeat (apply elem_of_cons in H2 as [-> | H2]);
    try (by apply elem_of_nil in H2);
    unfold joins; simpl; intros [[<- <-]|[<- <-]] [[? ?]|[? ?]]; congruence.
Qed.

Lemma reconstruction_cost_matches_witness :
  ∃ found nodePath,
    shortestPathData INITIAL_GRAPH "A" (Some "F")
      (Some (default cycleStep (last (runAlgorithm DIJKSTRA INITIAL_GRAPH "A")))) =
      mkPathData (CostNumber 13) (map link_id found) (joinWith arrow nodePath) ∧
    Forall (fun l => l ∈ links INITIAL_GRAPH ∧ link_active l = true) found ∧
    sumWeights found = 13 ∧
    head nodePath = Some "A" ∧ last nodePath = Some "F".
Proof.
  apply (reconstruction_cost_matches DIJKSTRA INITIAL_GRAPH "A" "F").
  - apply INITIAL_GRAPH_positive.
  - intros n Hn. simpl in Hn.
    repeat (apply elem_of_cons in Hn as [-> | Hn]; [discriminate|]).
    by apply elem_of_nil in Hn.
  - apply INITIAL_GRAPH_simple.
  - vm_compute. reflexivity.
  - vm_compute. reflexivity.
  - reflexivity.
Defined.

(** ** C5: what happens to a packet on arrival *)

Lemma final_descending (type : AlgorithmType) (data : GraphData) (start : string) :
  (∀ l, l ∈ links data → 0 < link_weight l) →
  ∃ st, last (runAlgorithm type data start) = Some st ∧
        descending (distances st) (previous st).
Proof.
  intros Hpos.
  assert (Hw : ∀ l, l ∈ links data → link_active l = true → 0 ≤ link_weight l).
  { intros l Hl _. specialize (Hpos l Hl). lia. }
  destruct (init_zero_or_all_unreachable data start) as [H0|Hall].
  - destruct (runAlgorithm_converged type data start Hw H0) as (st & Hst & Hinv & _).
    exists st. split; [done|]. intros v u Hp.
    destruct (ti_prev _ _ _ _ Hinv _ _ Hp) as (c & du & dv & He & Hu & Hv & Hle & _).
    pose proof (ti_range _ _ _ _ Hinv _ _ Hu).
    destruct He as (l & Hl & _ & _ & <- & _). specialize (Hpos l Hl).
    exists du, dv. split_and!; [done..|lia|lia].
  - destruct (run_all_unreachable type data start Hall) as (st & Hst & _ & Hp).
    exists st. split; [done|]. intros v u Hv. rewrite Hp in Hv.
    by apply initFold_previous_values in Hv as [? _].
Qed.



Lemma tracePath_stops prevMap arrived c acc fuel :
  truthy c && negb (String.eqb c arrived) = false →
  tracePath (S fuel) prevMap arrived (Some c) acc = Some acc.
Proof. intros E. simpl. by rewrite E. Qed.

(** With a descending table the forward loop ends, within a number of
    turns bounded by the distance entry of the node it starts from. *)
Lemma tracePath_terminates d prevMap arrived n :
  descending d prevMap →
  ∀ c acc, (∀ dv, d !! c = Some dv → dv < Z.of_nat n) →
  ∃ path,
    (∀ fuel, (n + 2 ≤ fuel)%nat →
             tracePath fuel prevMap arrived (Some c) acc = Some path) ∧
    ((truthy c = false ∨ c = arrived) ∧ path = acc ∨
     ∃ h, hopsTo prevMap arrived c h ∧ last path = Some h).
Proof.
  intros Hdesc. induction n as [|n IH]; intros c acc Hb.
  all: destruct (truthy c && negb (String.eqb c arrived)) eqn:E.
  all: try (exists acc; split;
            [intros [|fuel] Hf; [lia|by apply tracePath_stops]
            |left; split; [|done];
             apply andb_false_iff in E as [E|E];
             [by left|right; by apply negb_false_iff, String.eqb_eq in E]]).
  all: apply andb_true_iff in E as [Ht Hne]; pose proof Hne as Hne';
       apply negb_true_iff, String.eqb_neq in Hne'.
  all: destruct (mjoin (prevMap !! c)) as [u|] eqn:Hu.
  all: try (exists (acc ++ [c]); split;
            [intros [|[|fuel]] Hf; [lia..|]; simpl; by rewrite Ht, Hne, Hu
            |right; exists c; split; [|by rewrite last_snoc];
             apply hops_last; [done..|]; intros x Hx; congruence]).
  all: assert (Hpu : prevMap !! c = Some (Some u))
         by (destruct (prevMap !! c) as [[?|]|]; simpl in Hu; congruence).
  all: destruct (Hdesc _ _ Hpu) as (du & dv & Hdu & Hdv & Hlt).
  all: specialize (Hb _ Hdv).
  - lia.
  - destruct (IH u (acc ++ [c])) as (path & Hrun & Hchar).
    { intros du' Hdu'. rewrite Hdu in Hdu'. injection Hdu' as <-. lia. }
    exists path. split.
    + intros [|fuel] Hf; [lia|]. simpl. rewrite Ht, Hne, Hu. apply Hrun. lia.
    + right. destruct Hchar as [[Hstop ->]|(h & Hh & Hlast)].
      * exists c. split; [|by rewrite last_snoc].
        apply hops_last; [done..|]. intros x Hx. rewrite Hu in Hx. by injection Hx as <-.
      * exists h. split; [|done]. by eapply hops_more.
Qed.



(** ** Why the amended statements carry their side conditions *)

(** An empty node identifier is falsy in the reconstructor's
    [if (!prev) break]: the walk stops before the start node and no link is
    returned for a target at cost 1. *)
Example empty_identifier_stops_walk :
  let g := mkGraph [mkNode "" true; mkNode "B" true] [mkLink "l" "" "B" 1 true] in
  ∃ st, last (runAlgorithm DIJKSTRA g "") = Some st ∧
        shortestPathData g "" (Some "B") (Some st) = mkPathData (CostNumber 1) [] "B".
Proof. eexists. split; by vm_compute. Qed.

(** With a repeated node identifier the last entry decides the initial
    distance: here the start node is active for the traversal, and yet its
    own distance is the sentinel. *)
Example repeated_identifier_masks_start :
  let g := mkGraph [mkNode "A" true; mkNode "A" false] [] in
  "A" ∈ activeNodeIds g ∧
  ∃ st, last (runAlgorithm DIJKSTRA g "A") = Some st ∧
        distances st !! "A" = Some INFINITY.
Proof.
  split; [vm_compute; apply list_elem_of_here|]. eexists. split; by vm_compute.
Qed.


(** * Further properties of the engine and of the application handlers *)

(** ** Every trace, step by step *)

Lemma consecutive_lookup P (l : list SimulationStep) i a b :
  consecutive P l → l !! i = Some a → l !! S i = Some b → P a b.
Proof.
  intros Hc Ha Hb. apply (Hc (take i l) a b (drop (S (S i)) l)).
  rewrite <- (drop_S l b (S i) Hb), <- (drop_S l a i Ha). by rewrite take_drop.
Qed.

(** A relation that is reflexive and absorbs [P] on the right holds between
    any step and any later one. *)
Lemma consecutive_later P T (l : list SimulationStep) :
  (∀ a, T a a) → (∀ a b c, T a b → P b c → T a c) →
  consecutive P l →
  ∀ i j a b, (i ≤ j)%nat → l !! i = Some a → l !! j = Some b → T a b.
Proof.
  intros Hrefl Hstep Hc i j. induction j as [|j IH]; intros a b Hij Ha Hb.
  - assert (i = 0%nat) as -> by lia. rewrite Ha in Hb. injection Hb as <-. apply Hrefl.
  - destruct (decide (i = S j)) as [->|Hne].
    + rewrite Ha in Hb. injection Hb as <-. apply Hrefl.
    + destruct (l !! j) as [m|] eqn:Hm.
      * apply (Hstep a m b); [apply IH; [lia|done..]|].
        by apply (consecutive_lookup P l j).
      * apply lookup_ge_None in Hm. apply lookup_lt_Some in Hb. lia.
Qed.

Lemma prefix_set_add (x : string) (s : list string) : s `prefix_of` set_add x s.
Proof.
  unfold set_add. destruct (set_has x s); [done|]. by apply prefix_app_r.
Qed.

Lemma traceOk_push data s0 steps d p vis s' d' p' vis' :
  traceOk data s0 steps d p vis →
  stepIndex s' = length steps → distances s' = d' → previous s' = p' →
  visitedNodes s' = vis' → NoDup vis' → (vis `prefix_of` vis') →
  ((d' = d ∧ p' = p) ∨
   ∃ from to x old, to ∈ activeNodeIds data ∧ (to ∉ vis') ∧ d !! to = Some old ∧
                    x < old ∧ d' = <[to := x]> d ∧ p' = <[to := Some from]> p) →
  traceOk data s0 (steps ++ [s']) d' p' vis'.
Proof.
  intros (Hhd & Hc & Hnd & sl & Hlast & Hd & Hp & Hv & Hidx) Hi Hd' Hp' Hv' Hnd' Hpre Hch.
  split_and!.
  - destruct steps; [done|]. done.
  - apply consecutive_snoc; [done|]. intros sl' Hsl'. rewrite Hlast in Hsl'.
    injection Hsl' as <-. split_and!.
    + lia.
    + by rewrite Hv, Hv'.
    + by rewrite Hv'.
    + unfold relaxesTo. rewrite Hd, Hp, Hd', Hp', Hv'.
      destruct Hch as [[-> ->]|(from & to & x & old & ? & ? & ? & ? & -> & ->)]; [by left|].
      right. exists from, to, x, old. done.
  - done.
  - exists s'. rewrite last_snoc, length_app. simpl. split_and!; [done..|lia].
Qed.

Lemma relaxNeighbor_dTraceOk data s0 cur st l :
  dTraceOk data s0 st → dTraceOk data s0 (relaxNeighbor (activeNodeIds data) cur st l).
Proof.
  intros H. unfold relaxNeighbor.
  destruct (set_has (neighborOf cur l) (activeNodeIds data)) eqn:Eact; simpl; [|done].
  destruct (set_has _ (ds_visited st)) eqn:Evis; [done|].
  destruct (ds_distances st !! cur) as [dc|]; [|done].
  destruct (ds_distances st !! neighborOf cur l) as [dn|] eqn:Hdn; [|done].
  destruct (dc + link_weight l <? dn) eqn:Hlt; [|done].
  apply Z.ltb_lt in Hlt. apply set_has_true in Eact. apply set_has_false in Evis.
  unfold dTraceOk. simpl. eapply traceOk_push; try done.
  - apply H.
  - right. exists cur, (neighborOf cur l), (dc + link_weight l), dn. done.
Qed.

Lemma fold_relaxNeighbor_dTraceOk data s0 cur ls st :
  dTraceOk data s0 st →
  dTraceOk data s0 (fold_left (relaxNeighbor (activeNodeIds data) cur) ls st).
Proof.
  revert st. induction ls as [|l ls IH]; intros st H; simpl; [done|].
  by apply IH, relaxNeighbor_dTraceOk.
Qed.

Lemma visitNode_dTraceOk data s0 lks cur m st :
  dTraceOk data s0 st → dTraceOk data s0 (visitNode (activeNodeIds data) lks cur m st).
Proof.
  intros H. unfold visitNode. apply fold_relaxNeighbor_dTraceOk.
  unfold dTraceOk. simpl. eapply traceOk_push; try done.
  - apply NoDup_set_add, H.
  - apply prefix_set_add.
  - by left.
Qed.

Lemma dijkstraLoop_dTraceOk data s0 fuel lks st :
  dTraceOk data s0 st → dTraceOk data s0 (dijkstraLoop fuel (activeNodeIds data) lks st).
Proof.
  revert st. induction fuel as [|fuel IH]; intros st H; simpl; [done|].
  destruct (ds_unvisited st); [done|].
  destruct (findMin _ _) as [[cur|] m]; [|done].
  case_bool_decide; [done|]. by apply IH, visitNode_dTraceOk.
Qed.

Lemma relaxEdge_bTraceOk data s0 i l st from to :
  to ∈ activeNodeIds data →
  bTraceOk data s0 st → bTraceOk data s0 (relaxEdge i l st from to).
Proof.
  intros Hto H. unfold relaxEdge.
  destruct (bs_distances st !! from) as [df|]; [|done].
  destruct (bs_distances st !! to) as [dt|] eqn:Hdt; [|done].
  destruct (negb (df =? INFINITY) && (df + link_weight l <? dt)) eqn:E; [|done].
  apply andb_true_iff in E as [_ Hlt%Z.ltb_lt].
  unfold bTraceOk. simpl. eapply traceOk_push; try done.
  - apply H.
  - right. exists from, to, (df + link_weight l), dt.
    split_and!; [done|apply not_elem_of_nil|done..].
Qed.

Lemma scanLink_bTraceOk data s0 i st l :
  bTraceOk data s0 st → bTraceOk data s0 (scanLink (activeNodeIds data) i st l).
Proof.
  intros H. unfold scanLink.
  destruct (set_has (link_source l) _) eqn:Eu; simpl; [|done].
  destruct (set_has (link_target l) _) eqn:Ev; simpl; [|done].
  apply set_has_true in Eu, Ev. by apply relaxEdge_bTraceOk, relaxEdge_bTraceOk.
Qed.

Lemma scanLinks_bTraceOk data s0 lks i st :
  bTraceOk data s0 st → bTraceOk data s0 (scanLinks (activeNodeIds data) lks i st).
Proof.
  intros H. unfold scanLinks.
  assert (H0 : bTraceOk data s0 (mkBState (bs_distances st) (bs_previous st) (bs_steps st) false))
    by done.
  revert H0. generalize (mkBState (bs_distances st) (bs_previous st) (bs_steps st) false).
  induction lks as [|l lks IH]; intros b Hb; simpl; [done|].
  by apply IH, scanLink_bTraceOk.
Qed.

Lemma bellmanLoop_bTraceOk data s0 remaining i lks st :
  bTraceOk data s0 st →
  bTraceOk data s0 (bellmanLoop remaining i (activeNodeIds data) lks st).
Proof.
  revert i st. induction remaining as [|n IH]; intros i st H; simpl; [done|].
  pose proof (scanLinks_bTraceOk data s0 lks i st H) as H1.
  destruct (bs_changed _); [by apply IH|].
  unfold bTraceOk. simpl.
  apply (traceOk_push data s0 _ _ _ [] _ _ _ [] H1); try done.
  - apply NoDup_nil_2.
  - by left.
Qed.

Lemma traceOk_init data s0 d p :
  stepIndex s0 = 0%nat → distances s0 = d → previous s0 = p → visitedNodes s0 = [] →
  traceOk data s0 [s0] d p [].
Proof.
  intros Hi Hd Hp Hv. split_and!; [done|apply consecutive_singleton|apply NoDup_nil_2|].
  exists s0. simpl. by rewrite Hi.
Qed.

(** The master statement: a trace starts with the initial tables at index
    0, and every step follows from the one before by [stepRel]. *)
Lemma runAlgorithm_trace (type : AlgorithmType) (data : GraphData) (start : string) :
  ∃ s0, head (runAlgorithm type data start) = Some s0 ∧
        firstStepOk data start s0 ∧
        consecutive (stepRel data) (runAlgorithm type data start).
Proof.
  destruct type; simpl; unfold runDijkstra, runBellmanFord, firstStepOk;
    destruct (initAll data start) as [[d p] unv]; simpl;
    destruct (negb _); simpl.
  - eexists. split_and!; [done..|apply consecutive_singleton].
  - match goal with |- context [dijkstraLoop ?f ?a ?l ?s] =>
      pose proof (dijkstraLoop_dTraceOk data
        (mkStep 0 (DescDijkstraInit start) d p [start] [] []) f l s) as H end.
    destruct H as (Hhd & Hc & Hnd & Hsnap); [by apply traceOk_init|].
    pose proof (traceOk_push data _ _ _ _ _
      (mkStep (length (ds_steps _)) DescDijkstraComplete _ _ [] [] _) _ _ _
      (conj Hhd (conj Hc (conj Hnd Hsnap))) eq_refl eq_refl eq_refl eq_refl Hnd
      (reflexivity _) (or_introl (conj eq_refl eq_refl))) as (Hhd' & Hc' & _).
    eexists. split_and!; [exact Hhd'|done..|exact Hc'].
  - eexists. split_and!; [done..|apply consecutive_singleton].
  - match goal with |- context [bellmanLoop ?r ?i ?a ?l ?s] =>
      pose proof (bellmanLoop_bTraceOk data
        (mkStep 0 DescBFInit d p [start] [] []) r i l s) as H end.
    destruct H as (Hhd & Hc & Hnd & Hsnap); [by apply traceOk_init|].
    pose proof (traceOk_push data _ _ _ _ _
      (mkStep (length (bs_steps _)) DescBFComplete _ _ [] [] []) _ _ _
      (conj Hhd (conj Hc (conj Hnd Hsnap))) eq_refl eq_refl eq_refl eq_refl Hnd
      (reflexivity _) (or_introl (conj eq_refl eq_refl))) as (Hhd' & Hc' & _).
    eexists. split_and!; [exact Hhd'|done..|exact Hc'].
Qed.

Lemma trace_lookup_from_first (type : AlgorithmType) (data : GraphData) (start : string)
    (T : SimulationStep → SimulationStep → Prop) :
  (∀ a, T a a) → (∀ a b c, T a b → stepRel data b c → T a c) →
  ∀ i j a b, (i ≤ j)%nat →
    runAlgorithm type data start !! i = Some a →
    runAlgorithm type data start !! j = Some b → T a b.
Proof.
  intros Hrefl Hstep. destruct (runAlgorithm_trace type data start) as (s0 & _ & _ & Hc).
  by apply (consecutive_later (stepRel data) T).
Qed.

(** A property of the first step that [stepRel] carries over holds of
    every step. *)
Lemma trace_all_steps (type : AlgorithmType) (data : GraphData) (start : string)
    (Q : SimulationStep → Prop) :
  (∀ s0, firstStepOk data start s0 → Q s0) →
  (∀ a b, Q a → stepRel data a b → Q b) →
  ∀ st, st ∈ runAlgorithm type data start → Q st.
Proof.
  intros Hfirst Hstep st Hin.
  destruct (runAlgorithm_trace type data start) as (s0 & Hhd & H0 & Hc).
  apply list_elem_of_lookup in Hin as [j Hj].
  assert (H0' : runAlgorithm type data start !! 0%nat = Some s0).
  { by destruct (runAlgorithm type data start). }
  apply (consecutive_later (stepRel data) (fun a b => Q a → Q b)
           (runAlgorithm type data start)) with (i := 0%nat) (j := j) (a := s0);
    [tauto|intros a b c Hab Hbc Ha; by apply (Hstep b c); [apply Hab|]|done|lia|done..|].
  by apply Hfirst.
Qed.

(** X1. [stepIndex] is the position of the step in the trace. *)
Theorem stepIndex_is_position (type : AlgorithmType) (data : GraphData)
    (startNodeId : string) (i : nat) (st : SimulationStep) :
  runAlgorithm type data startNodeId !! i = Some st → stepIndex st = i.
Proof.
  destruct (runAlgorithm_trace type data startNodeId) as (s0 & Hhd & (H0 & _) & Hc).
  revert st. induction i as [|i IH]; intros st Hi.
  - destruct (runAlgorithm type data startNodeId); simpl in *; congruence.
  - destruct (runAlgorithm type data startNodeId !! i) as [a|] eqn:Ha.
    + destruct (consecutive_lookup _ _ i a st Hc Ha Hi) as (Hidx & _).
      rewrite Hidx. f_equal. by apply IH.
    + apply lookup_ge_None in Ha. apply lookup_lt_Some in Hi. lia.
Qed.

Lemma stepIndex_is_position_witness :
  stepIndex (mkStep 4 (DescSelected "C" 2)
               (list_to_map [("A", 0); ("B", 4); ("C", 2); ("D", 9999); ("E", 9999); ("F", 9999)])
               (list_to_map [("A", None); ("B", Some "A"); ("C", Some "A");
                             ("D", None); ("E", None); ("F", None)])
               ["C"] [] ["A"; "C"]) = 4%nat.
Proof.
  apply (stepIndex_is_position DIJKSTRA INITIAL_GRAPH "A").
  vm_compute. reflexivity.
Defined.

Lemma keysAreNodes_all_steps (type : AlgorithmType) (data : GraphData)
    (startNodeId : string) (st : SimulationStep) :
  st ∈ runAlgorithm type data startNodeId → keysAreNodes data st.
Proof.
  apply trace_all_steps.
  - intros s0 (_ & Hd & Hp & _) v. rewrite Hd, Hp.
    change (initAll data startNodeId) with (initFold startNodeId (nodes data)).
    split_and!.
    + apply initFold_distances_dom.
    + intros [x Hx]. by apply initFold_previous_values in Hx as [_ ?].
    + intros Hv Hproto. rewrite initFold_previous by done.
      rewrite bool_decide_eq_true_2 by done. eauto.
  - intros a b Ha (_ & _ & _ & [[Hd Hp]|(from & to & x & old & _ & _ & Hold & _ & Hd & Hp)]) v;
      rewrite Hd, Hp; [apply Ha|].
    assert (Hto : to ∈ map node_id (nodes data) ∧ to ≠ "__proto__")
      by (apply (proj1 (Ha to)); eauto).
    destruct (Ha v) as (Hdv & Hpv1 & Hpv2).
    destruct (decide (to = v)) as [<-|Hne].
    + rewrite !lookup_insert_eq. split_and!; [split; eauto|intros _; tauto|eauto].
    + rewrite !lookup_insert_ne by done. done.
Qed.

(** X2. In every step of every trace the keys of [distances] are exactly
    the node identifiers of the topology other than ['__proto__'], and the
    keys of [previous] are node identifiers, every one other than
    ['__proto__'] among them: every such node, active or not, is reported,
    and nothing that is not a node is. *)
Theorem every_step_reports_every_node (type : AlgorithmType) (data : GraphData)
    (startNodeId : string) (st : SimulationStep) :
  st ∈ runAlgorithm type data startNodeId → keysAreNodes data st.
Proof. apply keysAreNodes_all_steps. Qed.

Lemma every_step_reports_every_node_witness :
  keysAreNodes INITIAL_GRAPH
    (mkStep 0 (DescBFStartInactive "Z")
       (list_to_map [("A", 9999); ("B", 9999); ("C", 9999); ("D", 9999); ("E", 9999); ("F", 9999)])
       (list_to_map [("A", None); ("B", None); ("C", None);
                     ("D", None); ("E", None); ("F", None)])
       [] [] []).
Proof.
  apply (every_step_reports_every_node BELLMAN_FORD INITIAL_GRAPH "Z").
  vm_compute. apply list_elem_of_here.
Defined.

(** X3. Along a trace no distance entry ever goes up: what a step shows
    for a node is at most what any earlier step showed. *)
Theorem distances_never_increase (type : AlgorithmType) (data : GraphData)
    (startNodeId : string) (i j : nat) (si sj : SimulationStep) (v : string) (x : Z) :
  (i ≤ j)%nat →
  runAlgorithm type data startNodeId !! i = Some si →
  runAlgorithm type data startNodeId !! j = Some sj →
  distances si !! v = Some x →
  ∃ y, distances sj !! v = Some y ∧ y ≤ x.
Proof.
  intros Hij Hi Hj. revert v x.
  apply (trace_lookup_from_first type data startNodeId
           (fun a b => ∀ v x, distances a !! v = Some x →
                              ∃ y, distances b !! v = Some y ∧ y ≤ x)) with i j;
    [| |done..].
  - intros a v x Hx. exists x. split; [done|lia].
  - intros a b c Hab (_ & _ & _ & [[Hd _]|(from & to & y & old & _ & _ & Hold & Hlt & Hd & _)]) v x Hx;
      destruct (Hab v x Hx) as (z & Hz & Hle); rewrite Hd; [eauto|].
    destruct (decide (to = v)) as [<-|Hne].
    + rewrite lookup_insert_eq. exists y. split; [done|]. rewrite Hold in Hz.
      injection Hz as <-. lia.
    + rewrite lookup_insert_ne by done. eauto.
Qed.

Lemma distances_never_increase_witness :
  ∃ y, distances (default cycleStep (runAlgorithm DIJKSTRA INITIAL_GRAPH "A" !! 9%nat))
         !! "D" = Some y ∧ y ≤ 12.
Proof.
  apply (distances_never_increase DIJKSTRA INITIAL_GRAPH "A" 7 9
           (default cycleStep (runAlgorithm DIJKSTRA INITIAL_GRAPH "A" !! 7%nat))).
  - lia.
  - vm_compute. reflexivity.
  - vm_compute. reflexivity.
  - vm_compute. reflexivity.
Defined.

(** X4. A node of the topology that is not active, and not named
    ['__proto__'], is never touched: in every step of every trace it is at
    the sentinel and has no predecessor. *)
Theorem inactive_nodes_never_touched (type : AlgorithmType) (data : GraphData)
    (startNodeId : string) (st : SimulationStep) :
  st ∈ runAlgorithm type data startNodeId → inactiveUntouched data st.
Proof.
  apply trace_all_steps.
  - intros s0 (_ & Hd & Hp & _) v Hv Hna Hproto. rewrite Hd, Hp. split.
    + destruct (proj2 (initFold_distances_dom startNodeId (nodes data) v) (conj Hv Hproto))
        as [x Hx].
      change (initAll data startNodeId) with (initFold startNodeId (nodes data)). rewrite Hx. f_equal.
      apply initFold_distances_values in Hx as [|(_ & -> & Hs)]; done.
    + change (initAll data startNodeId) with (initFold startNodeId (nodes data)).
      rewrite initFold_previous by done. by rewrite bool_decide_eq_true_2.
  - intros a b Ha (_ & _ & _ & [[Hd Hp]|(from & to & x & old & Hto & _ & _ & _ & Hd & Hp)])
      v Hv Hna Hproto; rewrite Hd, Hp; [by apply Ha|].
    assert (to ≠ v) by (intros ->; done).
    rewrite !lookup_insert_ne by done. by apply Ha.
Qed.

Lemma inactive_nodes_never_touched_witness :
  inactiveUntouched (mkGraph [mkNode "A" true; mkNode "B" false] [mkLink "AB" "A" "B" 1 true])
    (mkStep 2 DescDijkstraComplete
       (list_to_map [("A", 0); ("B", 9999)]) (list_to_map [("A", None); ("B", None)])
       [] [] ["A"]).
Proof.
  apply (inactive_nodes_never_touched DIJKSTRA _ "A").
  vm_compute. apply list_elem_of_further, list_elem_of_further, list_elem_of_here.
Defined.

(** X5. The visited list only grows, without repetition, and a visited
    node is final: every later step shows the same distance and the same
    predecessor for it. *)
Theorem visited_nodes_are_final (type : AlgorithmType) (data : GraphData)
    (startNodeId : string) (i j : nat) (si sj : SimulationStep) :
  (i ≤ j)%nat →
  runAlgorithm type data startNodeId !! i = Some si →
  runAlgorithm type data startNodeId !! j = Some sj →
  (visitedNodes si `prefix_of` visitedNodes sj) ∧
  NoDup (visitedNodes sj) ∧
  ∀ v, v ∈ visitedNodes si →
       distances sj !! v = distances si !! v ∧ previous sj !! v = previous si !! v.
Proof.
  intros Hij Hi Hj.
  assert (Hnd : NoDup (visitedNodes sj)).
  { apply (trace_all_steps type data startNodeId (fun s => NoDup (visitedNodes s))).
    - intros s0 (_ & _ & _ & ->). apply NoDup_nil_2.
    - by intros a b _ (_ & _ & ? & _).
    - apply list_elem_of_lookup. eauto. }
  split_and!; [|done|];
    revert Hij Hi Hj;
    apply (trace_lookup_from_first type data startNodeId
             (fun a b => (visitedNodes a `prefix_of` visitedNodes b) ∧
                         ∀ v, v ∈ visitedNodes a →
                              distances b !! v = distances a !! v ∧
                              previous b !! v = previous a !! v)).
  all: try (intros a; split; [done|by intros]).
  all: intros a b c [Hpre Hsame] (_ & Hpre' & _ & Hch); split; [by etrans|].
  all: intros v Hv; destruct (Hsame v Hv) as [<- <-].
  all: destruct Hch as [[-> ->]|(from & to & x & old & _ & Hnv & _ & _ & -> & ->)]; [done|].
  all: assert (to ≠ v)
         by (intros ->; apply Hnv; eapply elem_of_prefix; [|done]; by eapply elem_of_prefix).
  all: by rewrite !lookup_insert_ne.
Qed.

Lemma visited_nodes_are_final_witness :
  let tr := runAlgorithm DIJKSTRA INITIAL_GRAPH "A" in
  (visitedNodes (default cycleStep (tr !! 4%nat))
     `prefix_of` visitedNodes (default cycleStep (tr !! 15%nat))) ∧
  NoDup (visitedNodes (default cycleStep (tr !! 15%nat))) ∧
  ∀ v, v ∈ visitedNodes (default cycleStep (tr !! 4%nat)) →
       distances (default cycleStep (tr !! 15%nat)) !! v
         = distances (default cycleStep (tr !! 4%nat)) !! v ∧
       previous (default cycleStep (tr !! 15%nat)) !! v
         = previous (default cycleStep (tr !! 4%nat)) !! v.
Proof.
  apply (visited_nodes_are_final DIJKSTRA INITIAL_GRAPH "A" 4 15).
  - lia.
  - vm_compute. reflexivity.
  - vm_compute. reflexivity.
Defined.


(** ** The visited nodes of a Dijkstra run *)

Lemma relaxNeighbor_visitedBelow data cur st l :
  visitedBelow data st → visitedBelow data (relaxNeighbor (activeNodeIds data) cur st l).
Proof.
  intros (H1 & H2 & H3). unfold relaxNeighbor.
  destruct (set_has (neighborOf cur l) (activeNodeIds data)) eqn:Eact; simpl; [|done].
  destruct (set_has _ (ds_visited st)) eqn:Evis; [done|].
  destruct (ds_distances st !! cur) as [dc|]; [|done].
  destruct (ds_distances st !! neighborOf cur l) as [dn|] eqn:Hdn; [|done].
  destruct (dc + link_weight l <? dn) eqn:Hlt; [|done].
  apply set_has_true in Eact. apply set_has_false in Evis.
  split_and!; simpl.
  - intros v Hv. assert (neighborOf cur l ≠ v) by (intros <-; done).
    rewrite lookup_insert_ne by done. by apply H1.
  - intros v x. destruct (decide (neighborOf cur l = v)) as [<-|Hne]; [done|].
    rewrite lookup_insert_ne by done. apply H2.
  - done.
Qed.

Lemma fold_relaxNeighbor_visitedBelow data cur ls st :
  visitedBelow data st →
  visitedBelow data (fold_left (relaxNeighbor (activeNodeIds data) cur) ls st).
Proof.
  revert st. induction ls as [|l ls IH]; intros st H; simpl; [done|].
  by apply IH, relaxNeighbor_visitedBelow.
Qed.

Lemma visitNode_visitedBelow data lks cur m st :
  ds_distances st !! cur = Some m → m < INFINITY →
  visitedBelow data st → visitedBelow data (visitNode (activeNodeIds data) lks cur m st).
Proof.
  intros Hm Hlt (H1 & H2 & H3). unfold visitNode.
  apply fold_relaxNeighbor_visitedBelow. split_and!; simpl.
  - intros v [->|Hv]%elem_of_set_add; eauto.
  - done.
  - intros v Hv. rewrite elem_of_set_add, elem_of_set_delete.
    destruct (decide (v = cur)); [by left; left|]. destruct (H3 v Hv); auto.
Qed.

Lemma dijkstraLoop_visitedBelow data fuel lks st :
  (length (ds_unvisited st) ≤ fuel)%nat → visitedBelow data st →
  let st' := dijkstraLoop fuel (activeNodeIds data) lks st in
  visitedBelow data st' ∧
  ∀ y dy, y ∈ ds_unvisited st' → ds_distances st' !! y = Some dy → INFINITY ≤ dy.
Proof.
  revert st. induction fuel as [|fuel IH]; intros st Hlen Hinv; simpl.
  - split; [done|]. destruct (ds_unvisited st); [|simpl in Hlen; lia].
    by intros ? ? ?%elem_of_nil.
  - destruct (ds_unvisited st) as [|u0 unv] eqn:Hunv.
    { split; [done|]. rewrite Hunv. by intros ? ? ?%elem_of_nil. }
    rewrite <- Hunv in *.
    pose proof (findMin_spec (ds_distances st) (ds_unvisited st)) as [Hmin Hsel].
    destruct (findMin (ds_distances st) (ds_unvisited st)) as [[cur|] m]; simpl in *.
    2: { subst m. done. }
    destruct Hsel as (Hcur & Hm & Hlt).
    rewrite bool_decide_eq_false_2 by (rewrite Hm; intros [= ->]; lia).
    apply IH; [|by apply visitNode_visitedBelow].
    rewrite visitNode_unvisited.
    pose proof (length_set_delete cur (ds_unvisited st) Hcur). lia.
Qed.

(** X6. In the final step of a Dijkstra run, on any topology, the visited
    nodes are exactly the nodes whose distance is below the sentinel. *)
Theorem dijkstra_visited_iff_reached (data : GraphData) (startNodeId : string)
    (st : SimulationStep) (v : string) :
  last (runAlgorithm DIJKSTRA data startNodeId) = Some st →
  v ∈ visitedNodes st ↔ ∃ x, distances st !! v = Some x ∧ x < INFINITY.
Proof.
  simpl. unfold runDijkstra.
  destruct (initAll data startNodeId) as [[d p] unv] eqn:Hinit.
  destruct (set_has startNodeId (activeNodeIds data)) eqn:Eact; simpl.
  - rewrite last_snoc. intros [= <-]. simpl.
    match goal with |- context [dijkstraLoop ?f ?a ?l ?s] =>
      destruct (dijkstraLoop_visitedBelow data f l s) as ((H1 & H2 & H3) & Hexit) end.
    + done.
    + assert (Hd : d = (initAll data startNodeId).1.1) by by rewrite Hinit.
      assert (Hu : unv = (initAll data startNodeId).2) by by rewrite Hinit.
      split_and!; simpl.
      * by intros ? ?%elem_of_nil.
      * intros w x Hx Hlt. rewrite Hd in Hx.
        apply initFold_distances_values in Hx as [->|(_ & -> & ?)]; done.
      * intros w Hw. right. rewrite Hu. by apply initFold_unvisited.
    + split; [apply H1|]. intros (x & Hx & Hlt).
      destruct (H3 v (H2 v x Hx Hlt)) as [|Hu]; [done|].
      specialize (Hexit _ _ Hu Hx). lia.
  - intros [= <-]. simpl. split; [by intros ?%elem_of_nil|].
    intros (x & Hx & Hlt). apply set_has_false in Eact.
    destruct (initAll_all_unreachable data startNodeId Eact) as [_ Hall].
    rewrite Hinit in Hall. specialize (Hall _ _ Hx). lia.
Qed.

Lemma dijkstra_visited_iff_reached_witness :
  "B" ∈ visitedNodes (default cycleStep (last (runAlgorithm DIJKSTRA farGraph "A")))
  ↔ ∃ x, distances (default cycleStep (last (runAlgorithm DIJKSTRA farGraph "A")))
           !! "B" = Some x ∧ x < INFINITY.
Proof.
  apply (dijkstra_visited_iff_reached farGraph "A").
  vm_compute. reflexivity.
Defined.

(** ** What the final step holds *)

(** Either initialisation put the start node at [0] and the final tables
    are converged, or nothing is reachable and the tables are the initial
    ones. *)
Lemma final_step_cases (type : AlgorithmType) (data : GraphData) (start : string) :
  (∀ l, l ∈ links data → link_active l = true → 0 ≤ link_weight l) →
  ∃ st, last (runAlgorithm type data start) = Some st ∧
        (convergedTables data start (distances st) (previous st) ∨
         (allUnreachable (distances st) ∧
          previous st = (initAll data start).1.2)).
Proof.
  intros Hw. destruct (init_zero_or_all_unreachable data start) as [H0|Hall].
  - destruct (runAlgorithm_converged type data start Hw H0) as (st & ? & ?). eauto.
  - destruct (run_all_unreachable type data start Hall) as (st & ? & Hd & Hp).
    exists st. split; [done|]. right. by rewrite Hd.
Qed.

(** ** C5: the transition on arrival *)



(** The packet of the witness, arriving at [C] on its way to [F], is sent
    on towards [E] over the link [CE]. *)
Example transit_packet_forwarded :
  updatePacket 10 DIJKSTRA INITIAL_GRAPH 1 transitPacket =
    Some (mkPacket "p" "A" "F" (Some "CE") "C" (Some "E") 0 1 moving).
Proof. vm_compute. reflexivity. Qed.

Lemma initial_previous_none data start v u :
  (initAll data start).1.2 !! v ≠ Some (Some u).
Proof.
  intros H. by apply initFold_previous_values in H as [? _].
Qed.

(** X7. The final step of either variant is converged: over no active link
    between routable nodes (active nodes whose identifier is not
    ['__proto__']) could a relaxation still lower a distance. *)
Theorem final_step_is_converged (type : AlgorithmType) (data : GraphData)
    (startNodeId : string) (st : SimulationStep) (u v : string) (c du : Z) :
  (∀ l, l ∈ links data → link_active l = true → 0 ≤ link_weight l) →
  last (runAlgorithm type data startNodeId) = Some st →
  edge data u v c →
  distances st !! u = Some du → du < INFINITY →
  ∃ dv, distances st !! v = Some dv ∧ dv ≤ du + c.
Proof.
  intros Hw Hlast He Hu Hlt.
  destruct (final_step_cases type data startNodeId Hw) as (st' & Hst' & Hcases).
  assert (st' = st) as -> by congruence.
  destruct Hcases as [[Hinv Hcomp]|[Hall _]]; [|specialize (Hall _ _ Hu); lia].
  pose proof (edge_nonneg _ Hw _ _ _ He) as Hc.
  destruct (ti_sound _ _ _ _ Hinv _ _ Hu Hlt) as [k Hk].
  assert (Hv : v ∈ routableIds data) by (by destruct He as (? & ? & ? & ? & ? & ? & ?)).
  destruct (tablesInv_active _ _ _ _ v Hinv Hv) as [dv Hdv].
  exists dv. split; [done|].
  destruct (decide (du + c < INFINITY)) as [Hlt'|].
  - destruct (Hcomp (S k) v (du + c)) as (dv' & Hdv' & ?); [by eapply walk_step|done|].
    congruence.
  - pose proof (ti_range _ _ _ _ Hinv _ _ Hdv). lia.
Qed.

Lemma final_step_is_converged_witness :
  ∃ dv, distances (default cycleStep (last (runAlgorithm BELLMAN_FORD INITIAL_GRAPH "A")))
          !! "F" = Some dv ∧ dv ≤ 8 + 6.
Proof.
  apply (final_step_is_converged BELLMAN_FORD INITIAL_GRAPH "A" _ "D" "F" 6 8).
  - intros l Hl _. pose proof (INITIAL_GRAPH_positive l Hl). lia.
  - vm_compute. reflexivity.
  - exists (mkLink "DF" "D" "F" 6 true).
    split_and!; [|done|by left|done| |]; vm_compute; repeat constructor.
  - vm_compute. reflexivity.
  - reflexivity.
Defined.

(** X8. With strictly positive weights the predecessors of the final step
    form a shortest-path tree: a predecessor entry is backed by an active
    link whose weight is exactly the difference of the two distances, and
    among the nodes below the sentinel the start node is the only one
    without a predecessor. *)
Theorem final_previous_is_tree (type : AlgorithmType) (data : GraphData)
    (startNodeId : string) (st : SimulationStep) :
  (∀ l, l ∈ links data → 0 < link_weight l) →
  last (runAlgorithm type data startNodeId) = Some st →
  (∀ v u, previous st !! v = Some (Some u) →
     ∃ l du dv, l ∈ links data ∧ link_active l = true ∧ joins l u v ∧
                distances st !! u = Some du ∧ distances st !! v = Some dv ∧
                dv = du + link_weight l ∧ dv < INFINITY) ∧
  (∀ v x, distances st !! v = Some x → x < INFINITY →
     (previous st !! v = Some None ↔ v = startNodeId)).
Proof.
  intros Hpos Hlast.
  assert (Hw : ∀ l, l ∈ links data → link_active l = true → 0 ≤ link_weight l).
  { intros l Hl _. specialize (Hpos l Hl). lia. }
  destruct (final_step_cases type data startNodeId Hw) as (st' & Hst' & Hcases).
  assert (st' = st) as -> by congruence.
  destruct Hcases as [Hconv|[Hall Hp]].
  2: { split.
       - intros v u Hv. rewrite Hp in Hv. by apply initial_previous_none in Hv.
       - intros v x Hx Hlt. specialize (Hall _ _ Hx). lia. }
  split.
  - intros v u Hv.
    destruct (converged_prev_tight data startNodeId _ _ v u Hw Hconv Hv)
      as (l & du & dv & ? & ? & ? & _ & _ & ? & ? & ? & _ & ?).
    exists l, du, dv. done.
  - intros v x Hx Hlt. destruct Hconv as [Hinv Hcomp]. split.
    + intros Hnone. destruct (decide (v = startNodeId)) as [|Hne]; [done|].
      destruct (ti_prev_some _ _ _ _ Hinv _ _ Hx Hlt Hne) as [u Hu]. congruence.
    + intros ->.
      assert (Hin : st ∈ runAlgorithm type data startNodeId).
      { rewrite last_lookup in Hlast. apply list_elem_of_lookup. eauto. }
      destruct (keysAreNodes_all_steps _ _ _ _ Hin startNodeId) as (_ & _ & Hdom).
      assert (Hids : startNodeId ∈ map node_id (nodes data) ∧ startNodeId ≠ "__proto__")
        by (apply (ti_dom _ _ _ _ Hinv); eauto).
      destruct (Hdom (proj1 Hids) (proj2 Hids)) as [[u|] Hu]; [|done].
      destruct (converged_prev_tight data startNodeId _ _ startNodeId u Hw (conj Hinv Hcomp) Hu)
        as (l & du & dv & Hl & _ & _ & _ & _ & _ & Hdv & Heq & Hdu & _).
      rewrite (ti_start _ _ _ _ Hinv) in Hdv. injection Hdv as <-.
      specialize (Hpos l Hl). lia.
Qed.

Lemma final_previous_is_tree_witness :
  let st := default cycleStep (last (runAlgorithm DIJKSTRA INITIAL_GRAPH "A")) in
  (∀ v u, previous st !! v = Some (Some u) →
     ∃ l du dv, l ∈ links INITIAL_GRAPH ∧ link_active l = true ∧ joins l u v ∧
                distances st !! u = Some du ∧ distances st !! v = Some dv ∧
                dv = du + link_weight l ∧ dv < INFINITY) ∧
  (∀ v x, distances st !! v = Some x → x < INFINITY →
     (previous st !! v = Some None ↔ v = "A")).
Proof.
  apply (final_previous_is_tree DIJKSTRA INITIAL_GRAPH "A").
  - apply INITIAL_GRAPH_positive.
  - vm_compute. reflexivity.
Defined.

(** ** Paths can be reversed and composed *)

Lemma walk_trans data s k u w k' v w' :
  walk data s k u w → walk data u k' v w' → walk data s (k + k') v (w + w').
Proof.
  intros H1 H2. induction H2 as [Hu|j x y a c Hxa IH He].
  - by rewrite Nat.add_0_r, Z.add_0_r.
  - rewrite Nat.add_succ_r, Z.add_assoc. by eapply walk_step.
Qed.

Lemma walk_rev data s k v w : walk data s k v w → walk data v k s w.
Proof.
  induction 1 as [Hs|k u v w c Hw IH He].
  - by apply walk_start.
  - assert (H1 : walk data v 1 u (0 + c)).
    { apply (walk_step data v 0 v u 0 c); [|by apply edge_sym].
      apply walk_start. by destruct He as (? & ? & ? & ? & ? & ? & ?). }
    pose proof (walk_trans _ _ _ _ _ _ _ _ H1 IH) as H2.
    by replace (0 + c + w) with (w + c) in H2 by lia.
Qed.

(** The final distance of a node other than ['__proto__'], on a topology
    with unique identifiers: a lower bound of the weights of all paths,
    realised by a path whenever it is below the sentinel. *)
Lemma final_distance_characterised (type : AlgorithmType) (data : GraphData)
    (start v : string) :
  NoDup (map node_id (nodes data)) →
  (∀ l, l ∈ links data → link_active l = true → 0 ≤ link_weight l) →
  v ∈ map node_id (nodes data) → v ≠ "__proto__" →
  ∃ st x, last (runAlgorithm type data start) = Some st ∧
          distances st !! v = Some x ∧ x ≤ INFINITY ∧
          (∀ k w, walk data start k v w → x ≤ w) ∧
          (x < INFINITY → ∃ k, walk data start k v x).
Proof.
  intros Hnd Hw Hv Hvp.
  destruct (init_zero_or_all_unreachable data start) as [H0|Hall].
  - destruct (runAlgorithm_converged type data start Hw H0) as (st & Hst & Hinv & Hcomp).
    destruct (proj2 (ti_dom _ _ _ _ Hinv v) (conj Hv Hvp)) as [x Hx].
    pose proof (ti_range _ _ _ _ Hinv _ _ Hx) as Hr.
    exists st, x. split_and!; [done|done|lia| |].
    + intros k w Hwalk. destruct (decide (w < INFINITY)) as [Hlt|]; [|lia].
      destruct (Hcomp k v w Hwalk Hlt) as (x' & Hx' & ?). congruence.
    + by apply (ti_sound _ _ _ _ Hinv).
  - destruct (run_all_unreachable type data start Hall) as (st & Hst & Hd & _).
    destruct (proj2 (initFold_distances_dom start (nodes data) v) (conj Hv Hvp)) as [x Hx].
    change (initFold start (nodes data)) with (initAll data start) in Hx.
    pose proof (Hall _ _ Hx) as ->.
    exists st, INFINITY. rewrite Hd. split_and!; [done|done|done| |lia].
    intros k w Hwalk.
    apply walk_needs_routable_start, elem_of_routableIds in Hwalk as [Hact Hsp].
    pose proof (initFold_distances_unique start (nodes data) start Hnd
                  (active_is_node _ _ Hact) Hsp) as H0.
    rewrite bool_decide_eq_true_2 in H0 by done.
    change (initFold start (nodes data)) with (initAll data start) in H0.
    by specialize (Hall _ _ H0).
Qed.

(** X9. Links are undirected: on a topology with unique identifiers and
    non-negative active weights, for two nodes [a] and [b] not named
    ['__proto__'], the final distance computed from [a] for [b] equals the
    one computed from [b] for [a], whichever variants are used for the two
    runs. *)
Theorem final_distances_symmetric (type type' : AlgorithmType) (data : GraphData)
    (a b : string) :
  NoDup (map node_id (nodes data)) →
  (∀ l, l ∈ links data → link_active l = true → 0 ≤ link_weight l) →
  a ∈ map node_id (nodes data) → a ≠ "__proto__" →
  b ∈ map node_id (nodes data) → b ≠ "__proto__" →
  ∃ sa sb x, last (runAlgorithm type data a) = Some sa ∧
             last (runAlgorithm type' data b) = Some sb ∧
             distances sa !! b = Some x ∧ distances sb !! a = Some x.
Proof.
  intros Hnd Hw Ha Hap Hb Hbp.
  destruct (final_distance_characterised type data a b Hnd Hw Hb Hbp)
    as (sa & x & Hsa & Hx & Hxr & Hxlow & Hxwalk).
  destruct (final_distance_characterised type' data b a Hnd Hw Ha Hap)
    as (sb & y & Hsb & Hy & Hyr & Hylow & Hywalk).
  exists sa, sb, x. split_and!; [done..|]. rewrite Hy. f_equal.
  assert (x ≤ y).
  { destruct (decide (y < INFINITY)) as [Hlt|]; [|lia].
    destruct (Hywalk Hlt) as [k Hk]. apply (Hxlow k). by apply walk_rev. }
  assert (y ≤ x).
  { destruct (decide (x < INFINITY)) as [Hlt|]; [|lia].
    destruct (Hxwalk Hlt) as [k Hk]. apply (Hylow k). by apply walk_rev. }
  lia.
Qed.

Lemma final_distances_symmetric_witness :
  ∃ sa sb x, last (runAlgorithm DIJKSTRA INITIAL_GRAPH "A") = Some sa ∧
             last (runAlgorithm BELLMAN_FORD INITIAL_GRAPH "F") = Some sb ∧
             distances sa !! "F" = Some x ∧ distances sb !! "A" = Some x.
Proof.
  apply (final_distances_symmetric DIJKSTRA BELLMAN_FORD INITIAL_GRAPH "A" "F").
  - apply (bool_decide_unpack _). vm_compute. exact I.
  - intros l Hl _. pose proof (INITIAL_GRAPH_positive l Hl). lia.
  - apply (bool_decide_unpack _). vm_compute. exact I.
  - discriminate.
  - apply (bool_decide_unpack _). vm_compute. exact I.
  - discriminate.
Defined.

(** ** Failing and repairing nodes in edit mode *)

Lemma runAlgorithm_length_pos type data start :
  (0 < length (runAlgorithm type data start))%nat.
Proof.
  destruct (runAlgorithm_trace type data start) as (s0 & Hhd & _).
  destruct (runAlgorithm type data start); [done|simpl; lia].
Qed.

Lemma toggleNode_ids nodeId ns :
  map node_id (map (toggleNode nodeId) ns) = map node_id ns.
Proof.
  rewrite map_map. apply map_ext. intros n. unfold toggleNode.
  by destruct (String.eqb _ _).
Qed.

Lemma toggleNode_involutive nodeId n : toggleNode nodeId (toggleNode nodeId n) = n.
Proof.
  unfold toggleNode. destruct (String.eqb (node_id n) nodeId) eqn:E; simpl; rewrite E.
  - rewrite negb_involutive. by destruct n.
  - done.
Qed.

Lemma NoDup_ids_same_node (ns : list Node) (m n : Node) :
  NoDup (map node_id ns) → m ∈ ns → n ∈ ns → node_id m = node_id n → m = n.
Proof.
  induction ns as [|a ns IH]; simpl; [by intros _ ?%elem_of_nil|].
  intros [Ha Hnd]%NoDup_cons [->|Hm]%elem_of_cons [->|Hn]%elem_of_cons Hid; [done| | |by apply IH].
  - exfalso. apply Ha. rewrite Hid. by apply list_elem_of_fmap_2.
  - exfalso. apply Ha. rewrite <- Hid. by apply list_elem_of_fmap_2.
Qed.

(** Toggling an active node removes it from the active set, toggling a
    failed one adds it. *)
Lemma toggle_active_shrinks data nodeId x :
  NoDup (map node_id (nodes data)) →
  nodeId ∈ activeNodeIds data →
  x ∈ activeNodeIds (mkGraph (map (toggleNode nodeId) (nodes data)) (links data)) →
  x ∈ activeNodeIds data.
Proof.
  intros Hnd Hn. rewrite !elem_of_activeNodeIds. simpl.
  intros (m' & (m & -> & Hm)%list_elem_of_fmap & Hid & Hact).
  apply elem_of_activeNodeIds in Hn as (n & Hn & Hnid & Hna).
  unfold toggleNode in Hid, Hact. destruct (String.eqb (node_id m) nodeId) eqn:E.
  - apply String.eqb_eq in E. simpl in *.
    assert (m = n) as -> by (apply (NoDup_ids_same_node (nodes data)); congruence).
    rewrite Hna in Hact. done.
  - eauto.
Qed.

Lemma toggle_failed_grows data nodeId x :
  nodeId ∉ activeNodeIds data →
  x ∈ activeNodeIds data →
  x ∈ activeNodeIds (mkGraph (map (toggleNode nodeId) (nodes data)) (links data)).
Proof.
  intros Hn. rewrite !elem_of_activeNodeIds. simpl. intros (m & Hm & Hid & Hact).
  exists m. split_and!; [|done..]. apply list_elem_of_fmap. exists m. split; [|done].
  unfold toggleNode. destruct (String.eqb (node_id m) nodeId) eqn:E; [|done].
  apply String.eqb_eq in E. exfalso. apply Hn, elem_of_activeNodeIds. exists m.
  split_and!; congruence.
Qed.

Lemma walk_subgraph data data' s k v w :
  links data' = links data →
  (∀ x, x ∈ activeNodeIds data' → x ∈ activeNodeIds data) →
  walk data' s k v w → walk data s k v w.
Proof.
  intros Hl Hsub.
  assert (Hsub' : ∀ x, x ∈ routableIds data' → x ∈ routableIds data).
  { intros x [? ?]%elem_of_routableIds. apply elem_of_routableIds. auto. }
  induction 1 as [Hs|k u v w c Hw IH He].
  - apply walk_start. auto.
  - eapply walk_step; [done|]. destruct He as (l & ? & ? & ? & ? & ? & ?).
    exists l. rewrite <- Hl. split_and!; auto.
Qed.

(** Fewer paths, longer distances. *)
Lemma final_distance_mono (type : AlgorithmType) (data data' : GraphData)
    (start v : string) :
  NoDup (map node_id (nodes data)) →
  map node_id (nodes data') = map node_id (nodes data) →
  (∀ l, l ∈ links data → link_active l = true → 0 ≤ link_weight l) →
  (∀ l, l ∈ links data' → link_active l = true → 0 ≤ link_weight l) →
  v ∈ map node_id (nodes data) → v ≠ "__proto__" →
  ∃ st st' x x',
    last (runAlgorithm type data start) = Some st ∧
    last (runAlgorithm type data' start) = Some st' ∧
    distances st !! v = Some x ∧ distances st' !! v = Some x' ∧
    ((∀ k w, walk data' start k v w → ∃ k' w', walk data start k' v w' ∧ w' ≤ w) → x ≤ x').
Proof.
  intros Hnd Hids Hw Hw' Hv Hvp.
  destruct (final_distance_characterised type data start v Hnd Hw Hv Hvp)
    as (st & x & Hst & Hx & Hxr & Hxlow & _).
  destruct (final_distance_characterised type data' start v)
    as (st' & x' & Hst' & Hx' & Hxr' & _ & Hxwalk');
    [by rewrite Hids|done|by rewrite Hids|done|].
  exists st, st', x, x'. split_and!; [done..|]. intros Hsub.
  destruct (decide (x' < INFINITY)) as [Hlt|]; [|lia].
  destruct (Hxwalk' Hlt) as [k Hk]. destruct (Hsub _ _ Hk) as (k' & w' & Hk' & ?).
  specialize (Hxlow _ _ Hk'). lia.
Qed.

(** X10. In edit mode a click on a node toggles it, and the next routing
    run reflects it in one direction only: failing a node never shortens
    the final distance of any node (not named ['__proto__'], for which no
    distance is stored), repairing one never lengthens it. *)
Theorem node_toggle_distance_monotone (s : AppState) (nodeId : string)
    (isShift : bool) (v : string) :
  app_editMode s = true →
  NoDup (map node_id (nodes (app_graphData s))) →
  (∀ l, l ∈ links (app_graphData s) → link_active l = true → 0 ≤ link_weight l) →
  v ∈ map node_id (nodes (app_graphData s)) → v ≠ "__proto__" →
  ∃ st st' x x',
    last (app_steps (runEffect s)) = Some st ∧
    last (app_steps (runEffect (handleNodeClick nodeId isShift s))) = Some st' ∧
    distances st !! v = Some x ∧ distances st' !! v = Some x' ∧
    (nodeId ∈ activeNodeIds (app_graphData s) → x ≤ x') ∧
    (nodeId ∉ activeNodeIds (app_graphData s) → x' ≤ x).
Proof.
  intros He Hnd Hw Hv Hvp. unfold handleNodeClick. rewrite He. simpl.
  set (data := app_graphData s) in *.
  set (data' := mkGraph (map (toggleNode nodeId) (nodes data)) (links data)).
  assert (Hids : map node_id (nodes data') = map node_id (nodes data))
    by apply toggleNode_ids.
  destruct (final_distance_mono (app_algorithm s) data data' (app_startNode s) v)
    as (st & st' & x & x' & Hst & Hst' & Hx & Hx' & Hup); [done..|].
  destruct (final_distance_mono (app_algorithm s) data' data (app_startNode s) v)
    as (st2' & st2 & y' & y & Hst2' & Hst2 & Hy' & Hy & Hdown);
    [by rewrite Hids|done|done|done|by rewrite Hids|done|].
  assert (st2 = st) as -> by congruence. assert (st2' = st') as -> by congruence.
  assert (y = x) as -> by congruence. assert (y' = x') as -> by congruence.
  exists st, st', x, x'. split_and!; [done..| |].
  - intros Hn. apply Hup. intros k w Hk. exists k, w. split; [|lia].
    apply (walk_subgraph data data'); [done| |done].
    intros z. by apply toggle_active_shrinks.
  - intros Hn. apply Hdown. intros k w Hk. exists k, w. split; [|lia].
    apply (walk_subgraph data' data); [done| |done].
    intros z. by apply toggle_failed_grows.
Qed.

Lemma node_toggle_distance_monotone_witness :
  let s := mkApp INITIAL_GRAPH "A" None true DIJKSTRA [] 0 [] false in
  ∃ st st' x x',
    last (app_steps (runEffect s)) = Some st ∧
    last (app_steps (runEffect (handleNodeClick "C" false s))) = Some st' ∧
    distances st !! "F" = Some x ∧ distances st' !! "F" = Some x' ∧
    ("C" ∈ activeNodeIds (app_graphData s) → x ≤ x') ∧
    ("C" ∉ activeNodeIds (app_graphData s) → x' ≤ x).
Proof.
  apply (node_toggle_distance_monotone
           (mkApp INITIAL_GRAPH "A" None true DIJKSTRA [] 0 [] false) "C" false "F").
  - reflexivity.
  - apply (bool_decide_unpack _). vm_compute. exact I.
  - intros l Hl _. pose proof (INITIAL_GRAPH_positive l Hl). lia.
  - apply (bool_decide_unpack _). vm_compute. exact I.
  - discriminate.
Defined.

(** X11. In edit mode a second click on the same node undoes the first.
    With the routing effect run after each click, the topology and the
    trace are those of the state before the two clicks, and every other
    cell is unchanged, except that the current index has been pulled back
    into the trace of the topology in between whenever that one is
    shorter. *)
Theorem node_toggle_twice_restores (s : AppState) (nodeId : string)
    (isShift isShift' : bool) :
  app_editMode s = true →
  let s1 := runEffect (handleNodeClick nodeId isShift s) in
  let s2 := runEffect (handleNodeClick nodeId isShift' s1) in
  s2 = mkApp (app_graphData s) (app_startNode s) (app_endNode s) (app_editMode s)
         (app_algorithm s) (app_steps (runEffect s))
         (Nat.min (app_currentStepIndex (runEffect s)) (length (app_steps s1) - 1))
         (app_packets s) (app_isPlaying s) ∧
  ((app_currentStepIndex (runEffect s) < length (app_steps s1))%nat → s2 = runEffect s).
Proof.
  intros He. destruct s as [[ns ls] start en em alg steps idx pk pl]. simpl in He. subst em.
  unfold handleNodeClick, runEffect. simpl.
  assert (Hg : map (toggleNode nodeId) (map (toggleNode nodeId) ns) = ns).
  { rewrite map_map. rewrite <- (map_id ns) at 2. apply map_ext.
    intros n. apply toggleNode_involutive. }
  rewrite Hg.
  set (T1 := runAlgorithm alg (mkGraph (map (toggleNode nodeId) ns) ls) start).
  set (T2 := runAlgorithm alg (mkGraph ns ls) start).
  assert (H1 : (0 < length T1)%nat) by apply runAlgorithm_length_pos.
  assert (H2 : (0 < length T2)%nat) by apply runAlgorithm_length_pos.
  clearbody T1 T2.
  assert (Hidx : (if (length T2 <=?
                       (if (length T1 <=? idx)%nat then (length T1 - 1)%nat else idx))%nat
                  then (length T2 - 1)%nat
                  else if (length T1 <=? idx)%nat then (length T1 - 1)%nat else idx)
                 = Nat.min (if (length T2 <=? idx)%nat then (length T2 - 1)%nat else idx)
                     (length T1 - 1)).
  { repeat case_match;
      repeat match goal with
             | H : (_ <=? _)%nat = true |- _ => apply Nat.leb_le in H
             | H : (_ <=? _)%nat = false |- _ => apply Nat.leb_gt in H
             end; lia. }
  rewrite Hidx. split; [done|]. intros Hlt. f_equal. lia.
Qed.

Lemma node_toggle_twice_restores_witness :
  let s := mkApp INITIAL_GRAPH "A" None true DIJKSTRA [] 15 [] false in
  let s1 := runEffect (handleNodeClick "F" false s) in
  let s2 := runEffect (handleNodeClick "F" false s1) in
  s2 = mkApp (app_graphData s) (app_startNode s) (app_endNode s) (app_editMode s)
         (app_algorithm s) (app_steps (runEffect s))
         (Nat.min (app_currentStepIndex (runEffect s)) (length (app_steps s1) - 1))
         (app_packets s) (app_isPlaying s) ∧
  ((app_currentStepIndex (runEffect s) < length (app_steps s1))%nat → s2 = runEffect s).
Proof.
  apply (node_toggle_twice_restores
           (mkApp INITIAL_GRAPH "A" None true DIJKSTRA [] 15 [] false) "F" false false).
  reflexivity.
Defined.

(** The reading of the witness: from the last step (index 15 of 16) the two
    clicks on [F] leave the index at 12, the last step of the 13-step trace
    of the topology without [F]. *)
Example toggle_twice_pulls_index_back :
  let s := runEffect (mkApp INITIAL_GRAPH "A" None true DIJKSTRA [] 15 [] false) in
  let s1 := runEffect (handleNodeClick "F" false s) in
  let s2 := runEffect (handleNodeClick "F" false s1) in
  app_currentStepIndex s = 15%nat ∧ length (app_steps s) = 16%nat ∧
  length (app_steps s1) = 13%nat ∧
  app_currentStepIndex s2 = 12%nat ∧ app_graphData s2 = app_graphData s ∧
  app_steps s2 = app_steps s.
Proof. split_and!; by vm_compute. Qed.

(** ** Editing link weights *)

(** A click on a link either leaves the state alone or rewrites the
    weights of the links carrying the clicked identifier, with a strictly
    positive weight, and touches nothing else. *)
Lemma handleLinkClick_cases parseInt linkId answer s :
  handleLinkClick parseInt linkId answer s = s ∨
  ∃ t newWeight,
    answer = Some t ∧ parseInt t = Some newWeight ∧ 0 < newWeight ∧
    app_editMode s = true ∧
    (∃ l, l ∈ links (app_graphData s) ∧ link_id l = linkId) ∧
    handleLinkClick parseInt linkId answer s =
      mkApp (mkGraph (nodes (app_graphData s))
               (map (setWeight linkId newWeight) (links (app_graphData s))))
        (app_startNode s) (app_endNode s) (app_editMode s) (app_algorithm s)
        (app_steps s) (app_currentStepIndex s) (app_packets s) (app_isPlaying s).
Proof.
  unfold handleLinkClick. destruct (app_editMode s); [|by left].
  destruct (find _ _) as [l|] eqn:Hf; [|by left].
  destruct answer as [t|]; [|by left].
  destruct (parseInt t) as [n|] eqn:Hp; [|by left].
  destruct (0 <? n) eqn:Hn; [|by left]. apply Z.ltb_lt in Hn.
  right. exists t, n. split_and!; try done.
  apply find_some in Hf as [Hl He]. exists l. split; [by apply list_elem_of_In|].
  by apply String.eqb_eq.
Qed.

Lemma setWeight_fields linkId n l :
  link_id (setWeight linkId n l) = link_id l ∧
  link_source (setWeight linkId n l) = link_source l ∧
  link_target (setWeight linkId n l) = link_target l ∧
  link_active (setWeight linkId n l) = link_active l ∧
  link_weight (setWeight linkId n l) = (if String.eqb (link_id l) linkId then n else link_weight l).
Proof. unfold setWeight. by destruct (String.eqb _ _). Qed.

(** X12. A click on a link keeps the topology well formed: if all weights
    were strictly positive they still are, the nodes and the identifiers,
    end points and activity of the links are unchanged, and links with
    another identifier keep their weight. *)
Theorem link_click_keeps_weights_positive (parseInt : string → option Z)
    (linkId : string) (answer : option string) (s : AppState) :
  (∀ l, l ∈ links (app_graphData s) → 0 < link_weight l) →
  let g := app_graphData s in
  let g' := app_graphData (handleLinkClick parseInt linkId answer s) in
  (∀ l, l ∈ links g' → 0 < link_weight l) ∧
  nodes g' = nodes g ∧
  map link_id (links g') = map link_id (links g) ∧
  map link_source (links g') = map link_source (links g) ∧
  map link_target (links g') = map link_target (links g) ∧
  map link_active (links g') = map link_active (links g) ∧
  (∀ i l l', links g !! i = Some l → links g' !! i = Some l' →
             link_id l ≠ linkId → l' = l).
Proof.
  intros Hpos g g'. subst g g'.
  destruct (handleLinkClick_cases parseInt linkId answer s)
    as [->|(t & n & _ & _ & Hn & _ & _ & ->)].
  { split_and!; try done. intros i l l' H1 H2 _. congruence. }
  simpl. split_and!; try done.
  - intros l' (l & -> & Hl)%list_elem_of_fmap.
    destruct (setWeight_fields linkId n l) as (_ & _ & _ & _ & ->).
    destruct (String.eqb _ _); auto.
  - rewrite map_map. apply map_ext. intros l. apply setWeight_fields.
  - rewrite map_map. apply map_ext. intros l. apply setWeight_fields.
  - rewrite map_map. apply map_ext. intros l. apply setWeight_fields.
  - rewrite map_map. apply map_ext. intros l. apply setWeight_fields.
  - intros i l l' H1 H2 Hne. rewrite list_lookup_fmap, H1 in H2. simpl in H2.
    injection H2 as <-. unfold setWeight.
    destruct (String.eqb (link_id l) linkId) eqn:E; [|done].
    by apply String.eqb_eq in E.
Qed.

Lemma link_click_keeps_weights_positive_witness :
  let s := mkApp INITIAL_GRAPH "A" None true DIJKSTRA [] 0 [] false in
  let g := app_graphData s in
  let g' := app_graphData (handleLinkClick (fun _ => Some 7) "BC" (Some "7") s) in
  (∀ l, l ∈ links g' → 0 < link_weight l) ∧
  nodes g' = nodes g ∧
  map link_id (links g') = map link_id (links g) ∧
  map link_source (links g') = map link_source (links g) ∧
  map link_target (links g') = map link_target (links g) ∧
  map link_active (links g') = map link_active (links g) ∧
  (∀ i l l', links g !! i = Some l → links g' !! i = Some l' →
             link_id l ≠ "BC" → l' = l).
Proof.
  apply (link_click_keeps_weights_positive (fun _ => Some 7) "BC" (Some "7")
           (mkApp INITIAL_GRAPH "A" None true DIJKSTRA [] 0 [] false)).
  apply INITIAL_GRAPH_positive.
Defined.

(** Paths of a topology whose links were re-weighted by [f]. *)
Lemma walk_reweighed (R : Z → Z → Prop) data (f : Link → Link) s k v w :
  R 0 0 →
  (∀ a b c d, R a b → R c d → R (a + c) (b + d)) →
  (∀ l, link_source (f l) = link_source l ∧ link_target (f l) = link_target l ∧
        link_active (f l) = link_active l) →
  (∀ l, l ∈ links data → R (link_weight l) (link_weight (f l))) →
  (walk data s k v w →
   ∃ w', walk (mkGraph (nodes data) (map f (links data))) s k v w' ∧ R w w') ∧
  (walk (mkGraph (nodes data) (map f (links data))) s k v w →
   ∃ w', walk data s k v w' ∧ R w' w).
Proof.
  intros R0 Radd Hf HR. split.
  - induction 1 as [Hs|k u v w c Hw (w' & IH & Hww) He].
    + exists 0. split; [by apply walk_start|done].
    + destruct He as (l & Hl & Ha & Hj & <- & Hu & Hv).
      exists (w' + link_weight (f l)). split; [|by auto].
      eapply walk_step; [done|]. exists (f l).
      destruct (Hf l) as (Es & Et & Ea).
      split_and!; [by apply list_elem_of_fmap_2|congruence| |done..].
      unfold joins in *. by rewrite Es, Et.
  - induction 1 as [Hs|k u v w c Hw (w' & IH & Hww) He].
    + exists 0. split; [by apply walk_start|done].
    + destruct He as (l' & (l & -> & Hl)%list_elem_of_fmap & Ha & Hj & <- & Hu & Hv).
      exists (w' + link_weight l). split; [|by auto].
      eapply walk_step; [done|]. exists l.
      destruct (Hf l) as (Es & Et & Ea).
      split_and!; [done|congruence| |done..].
      unfold joins in *. by rewrite <- Es, <- Et.
Qed.

(** X13. Re-weighting a link in edit mode moves the next routing run in
    one direction only: if the new weight is at least the weight of every
    link carrying the clicked identifier, no final distance gets shorter;
    if it is at most that weight, none gets longer.  The node is any node
    not named ['__proto__'], for which no distance is stored. *)
Theorem link_weight_edit_monotone (parseInt : string → option Z)
    (linkId : string) (answer : option string) (s : AppState) (v : string) :
  NoDup (map node_id (nodes (app_graphData s))) →
  (∀ l, l ∈ links (app_graphData s) → 0 < link_weight l) →
  v ∈ map node_id (nodes (app_graphData s)) → v ≠ "__proto__" →
  ∃ st st' x x',
    last (app_steps (runEffect s)) = Some st ∧
    last (app_steps (runEffect (handleLinkClick parseInt linkId answer s))) = Some st' ∧
    distances st !! v = Some x ∧ distances st' !! v = Some x' ∧
    ((∀ t n l, answer = Some t → parseInt t = Some n → l ∈ links (app_graphData s) →
               link_id l = linkId → link_weight l ≤ n) → x ≤ x') ∧
    ((∀ t n l, answer = Some t → parseInt t = Some n → l ∈ links (app_graphData s) →
               link_id l = linkId → n ≤ link_weight l) → x' ≤ x).
Proof.
  intros Hnd Hpos Hv Hvp.
  assert (Hw : ∀ l, l ∈ links (app_graphData s) → link_active l = true → 0 ≤ link_weight l).
  { intros l Hl _. specialize (Hpos l Hl). lia. }
  destruct (handleLinkClick_cases parseInt linkId answer s)
    as [->|(t & n & Hans & Hparse & Hn & _ & _ & ->)].
  { destruct (final_distance_characterised (app_algorithm s) (app_graphData s)
                (app_startNode s) v Hnd Hw Hv Hvp) as (st & x & Hst & Hx & _).
    exists st, st, x, x. split_and!; [done..| |]; intros _; lia. }
  simpl. set (data := app_graphData s) in *.
  set (data' := mkGraph (nodes data) (map (setWeight linkId n) (links data))).
  assert (Hw' : ∀ l, l ∈ links data' → link_active l = true → 0 ≤ link_weight l).
  { intros l' (l & -> & Hl)%list_elem_of_fmap _.
    destruct (setWeight_fields linkId n l) as (_ & _ & _ & _ & ->).
    specialize (Hpos l Hl). destruct (String.eqb _ _); lia. }
  assert (Hfields : ∀ l, link_source (setWeight linkId n l) = link_source l ∧
                        link_target (setWeight linkId n l) = link_target l ∧
                        link_active (setWeight linkId n l) = link_active l).
  { intros l. destruct (setWeight_fields linkId n l) as (_ & ? & ? & ? & _). done. }
  destruct (final_distance_mono (app_algorithm s) data data' (app_startNode s) v)
    as (st & st' & x & x' & Hst & Hst' & Hx & Hx' & Hup); [done..|].
  destruct (final_distance_mono (app_algorithm s) data' data (app_startNode s) v)
    as (st2' & st2 & y' & y & Hst2' & Hst2 & Hy' & Hy & Hdown); [done..|].
  assert (st2 = st) as -> by congruence. assert (st2' = st') as -> by congruence.
  assert (y = x) as -> by congruence. assert (y' = x') as -> by congruence.
  exists st, st', x, x'. split_and!; [done..| |].
  - intros Hge. apply Hup. intros k w Hk.
    assert (HR : ∀ l, l ∈ links data → link_weight l ≤ link_weight (setWeight linkId n l)).
    { intros l Hl. destruct (setWeight_fields linkId n l) as (_ & _ & _ & _ & ->).
      destruct (String.eqb (link_id l) linkId) eqn:E; [|lia].
      apply String.eqb_eq in E. by apply (Hge t). }
    destruct (proj2 (walk_reweighed Z.le data (setWeight linkId n) (app_startNode s) k v w
                       (Z.le_refl 0) (fun a b c d H1 H2 => Z.add_le_mono _ _ _ _ H1 H2)
                       Hfields HR) Hk) as (w' & ? & ?).
    eauto.
  - intros Hle. apply Hdown. intros k w Hk.
    assert (HR : ∀ l, l ∈ links data → link_weight l >= link_weight (setWeight linkId n l)).
    { intros l Hl. destruct (setWeight_fields linkId n l) as (_ & _ & _ & _ & ->).
      destruct (String.eqb (link_id l) linkId) eqn:E; [|lia].
      apply String.eqb_eq in E. apply Z.le_ge. by apply (Hle t). }
    assert (Hadd : ∀ a b c d : Z, a >= b → c >= d → a + c >= b + d) by (intros; lia).
    destruct (proj1 (walk_reweighed Z.ge data (setWeight linkId n) (app_startNode s) k v w
                       (Z.le_ge _ _ (Z.le_refl 0)) Hadd Hfields HR) Hk) as (w' & ? & ?).
    exists k, w'. split; [done|lia].
Qed.

Lemma link_weight_edit_monotone_witness :
  let s := mkApp INITIAL_GRAPH "A" None true DIJKSTRA [] 0 [] false in
  let parseInt := fun _ : string => Some 7 in
  ∃ st st' x x',
    last (app_steps (runEffect s)) = Some st ∧
    last (app_steps (runEffect (handleLinkClick parseInt "BC" (Some "7") s))) = Some st' ∧
    distances st !! "F" = Some x ∧ distances st' !! "F" = Some x' ∧
    ((∀ t n l, Some "7" = Some t → parseInt t = Some n → l ∈ links (app_graphData s) →
               link_id l = "BC" → link_weight l ≤ n) → x ≤ x') ∧
    ((∀ t n l, Some "7" = Some t → parseInt t = Some n → l ∈ links (app_graphData s) →
               link_id l = "BC" → n ≤ link_weight l) → x' ≤ x).
Proof.
  apply (link_weight_edit_monotone (fun _ => Some 7) "BC" (Some "7")
           (mkApp INITIAL_GRAPH "A" None true DIJKSTRA [] 0 [] false) "F").
  - apply (bool_decide_unpack _). vm_compute. exact I.
  - apply INITIAL_GRAPH_positive.
  - apply (bool_decide_unpack _). vm_compute. exact I.
  - discriminate.
Defined.

(** ** Playback *)

(** X14. After the routing effect has run there is a step to show: the
    current index lies inside the new trace.  An index that already did is
    kept, any other is pulled back to the last step. *)
Theorem runEffect_shows_a_step (s : AppState) :
  is_Some (currentStep (runEffect s)) ∧
  app_steps (runEffect s) =
    runAlgorithm (app_algorithm s) (app_graphData s) (app_startNode s) ∧
  app_currentStepIndex (runEffect s) =
    Nat.min (app_currentStepIndex s) (length (app_steps (runEffect s)) - 1).
Proof.
  unfold currentStep, runEffect. simpl.
  pose proof (runAlgorithm_length_pos (app_algorithm s) (app_graphData s) (app_startNode s)).
  split_and!; [|done|].
  - apply lookup_lt_is_Some. destruct (_ <=? _)%nat eqn:E.
    + lia.
    + apply Nat.leb_gt in E. lia.
  - destruct (_ <=? _)%nat eqn:E.
    + apply Nat.leb_le in E. lia.
    + apply Nat.leb_gt in E. lia.
Qed.

(** X15. Once a step is shown, no handler takes it away: after any control
    of the panel, a playback tick, or a click on a node or a link, the
    current index still lies inside the stored trace. *)
Theorem handlers_keep_current_step (s : AppState) :
  is_Some (currentStep s) →
  is_Some (currentStep (onNext s)) ∧
  is_Some (currentStep (onPrev s)) ∧
  is_Some (currentStep (onReset s)) ∧
  is_Some (currentStep (onPlayPause s)) ∧
  is_Some (currentStep (playbackTick s)) ∧
  (∀ nodeId isShift, is_Some (currentStep (handleNodeClick nodeId isShift s))) ∧
  (∀ parseInt linkId answer,
     is_Some (currentStep (handleLinkClick parseInt linkId answer s))) ∧
  (∀ newGraph, is_Some (currentStep (handleGenerateTopology newGraph s))).
Proof.
  unfold currentStep. rewrite lookup_lt_is_Some. intros Hlt. split_and!.
  - unfold onNext. destruct (_ <? _)%nat eqn:E; simpl; apply lookup_lt_is_Some; [|done].
    apply Nat.ltb_lt in E. lia.
  - unfold onPrev. destruct (_ <? _)%nat eqn:E; simpl; apply lookup_lt_is_Some; lia.
  - simpl. apply lookup_lt_is_Some. lia.
  - simpl. by apply lookup_lt_is_Some.
  - unfold playbackTick. destruct (app_isPlaying s); [|by apply lookup_lt_is_Some].
    destruct (_ <? _)%nat eqn:E; simpl; apply lookup_lt_is_Some; [|done].
    apply Nat.ltb_lt in E. lia.
  - intros nodeId isShift. unfold handleNodeClick.
    destruct (app_editMode s); [|destruct isShift]; simpl; apply lookup_lt_is_Some; lia.
  - intros parseInt linkId answer.
    destruct (handleLinkClick_cases parseInt linkId answer s)
      as [->|(t & n & _ & _ & _ & _ & _ & ->)]; simpl; by apply lookup_lt_is_Some.
  - intros [g|]; [|by apply lookup_lt_is_Some]. unfold handleGenerateTopology.
    destruct (map _ (nodes g)); simpl; by apply lookup_lt_is_Some.
Qed.

Lemma handlers_keep_current_step_witness :
  let s := runEffect (mkApp INITIAL_GRAPH "A" None false DIJKSTRA [] 0 [] false) in
  is_Some (currentStep (onNext s)) ∧
  is_Some (currentStep (onPrev s)) ∧
  is_Some (currentStep (onReset s)) ∧
  is_Some (currentStep (onPlayPause s)) ∧
  is_Some (currentStep (playbackTick s)) ∧
  (∀ nodeId isShift, is_Some (currentStep (handleNodeClick nodeId isShift s))) ∧
  (∀ parseInt linkId answer,
     is_Some (currentStep (handleLinkClick parseInt linkId answer s))) ∧
  (∀ newGraph, is_Some (currentStep (handleGenerateTopology newGraph s))).
Proof.
  apply (handlers_keep_current_step
           (runEffect (mkApp INITIAL_GRAPH "A" None false DIJKSTRA [] 0 [] false))).
  vm_compute. eexists. reflexivity.
Defined.

Lemma playbackTick_iter_playing (s : AppState) (k : nat) :
  app_isPlaying s = true →
  (app_currentStepIndex s + k < length (app_steps s))%nat →
  app_currentStepIndex (Nat.iter k playbackTick s) = (app_currentStepIndex s + k)%nat ∧
  app_isPlaying (Nat.iter k playbackTick s) = true ∧
  app_steps (Nat.iter k playbackTick s) = app_steps s.
Proof.
  intros Hp. induction k as [|k IH]; intros Hlt; simpl.
  - by rewrite Nat.add_0_r.
  - destruct IH as (Hi & Hpl & Hs); [lia|].
    unfold playbackTick at 1 3 5. rewrite Hpl, Hs, Hi.
    destruct (_ <? _)%nat eqn:E; [simpl; split_and!; [lia|done..]|].
    apply Nat.ltb_ge in E. lia.
Qed.

(** X16. Playback runs to the end and stops there: started on a shown
    step, every tick advances the index by one while steps remain, and the
    tick after the last step switches playing off and leaves the index on
    the last step, where further ticks change nothing. *)
Theorem playback_reaches_last_step (s : AppState) :
  app_isPlaying s = true →
  is_Some (currentStep s) →
  let n := (length (app_steps s) - 1 - app_currentStepIndex s)%nat in
  (∀ k, (k ≤ n)%nat →
     app_currentStepIndex (Nat.iter k playbackTick s) = (app_currentStepIndex s + k)%nat ∧
     app_isPlaying (Nat.iter k playbackTick s) = true) ∧
  (∀ k, (n < k)%nat →
     app_currentStepIndex (Nat.iter k playbackTick s) = (length (app_steps s) - 1)%nat ∧
     app_isPlaying (Nat.iter k playbackTick s) = false).
Proof.
  intros Hp Hlt n. subst n. apply lookup_lt_is_Some in Hlt.
  set (n := (length (app_steps s) - 1 - app_currentStepIndex s)%nat). split.
  - intros k Hk. destruct (playbackTick_iter_playing s k Hp) as (? & ? & _); [lia|done].
  - intros k Hk. replace k with (S n + (k - S n))%nat by lia.
    generalize (k - S n)%nat as j. intros j.
    destruct (playbackTick_iter_playing s n Hp) as (Hi & Hpl & Hs); [lia|].
    assert (Hstop : app_currentStepIndex (Nat.iter (S n) playbackTick s)
                      = (length (app_steps s) - 1)%nat ∧
                    app_isPlaying (Nat.iter (S n) playbackTick s) = false).
    { simpl. unfold playbackTick at 1 3. rewrite Hpl, Hs, Hi.
      destruct (_ <? _)%nat eqn:E; [apply Nat.ltb_lt in E; lia|]. simpl. split; [lia|done]. }
    induction j as [|j IH].
    + by rewrite Nat.add_0_r.
    + rewrite Nat.add_succ_r. destruct IH as [IH1 IH2].
      change (Nat.iter (S (S n + j)) playbackTick s)
        with (playbackTick (Nat.iter (S n + j) playbackTick s)).
      unfold playbackTick at 1 3. by rewrite IH2.
Qed.

Lemma playback_reaches_last_step_witness :
  let s := onPlayPause (runEffect (mkApp INITIAL_GRAPH "A" None false DIJKSTRA [] 0 [] false)) in
  let n := (length (app_steps s) - 1 - app_currentStepIndex s)%nat in
  (∀ k, (k ≤ n)%nat →
     app_currentStepIndex (Nat.iter k playbackTick s) = (app_currentStepIndex s + k)%nat ∧
     app_isPlaying (Nat.iter k playbackTick s) = true) ∧
  (∀ k, (n < k)%nat →
     app_currentStepIndex (Nat.iter k playbackTick s) = (length (app_steps s) - 1)%nat ∧
     app_isPlaying (Nat.iter k playbackTick s) = false).
Proof.
  apply (playback_reaches_last_step
           (onPlayPause (runEffect (mkApp INITIAL_GRAPH "A" None false DIJKSTRA [] 0 [] false)))).
  - reflexivity.
  - vm_compute. eexists. reflexivity.
Defined.

(** ** Generated topologies *)

Lemma initFold_all_active (s : string) (ns : list Node) :
  (∀ n, n ∈ ns → node_active n = true) →
  s ∈ map node_id ns → s ≠ "__proto__" →
  (initFold s ns).1.1 !! s = Some 0.
Proof.
  induction ns as [|n ns IH] using rev_ind; [by intros _ ?%elem_of_nil|].
  intros Hall Hs Hsp. init_snoc s ns n d p unv b.
  destruct (decide (node_id n = s)) as [<-|Hne].
  - apply String.eqb_neq in Hsp. rewrite Hsp.
    rewrite lookup_insert_eq, String.eqb_refl, Hall; [done|].
    apply elem_of_app. right. apply list_elem_of_here.
  - assert (Hd : d !! s = Some 0).
    2: { destruct (String.eqb (node_id n) "__proto__"); [done|].
         by rewrite lookup_insert_ne. }
    apply IH; [| |done].
    + intros m Hm. apply Hall, elem_of_app. by left.
    + rewrite map_app in Hs. apply elem_of_app in Hs as [|Hs]; [done|].
      simpl in Hs. apply list_elem_of_singleton in Hs. congruence.
Qed.

Lemma filter_all_active (ns : list Node) :
  List.filter node_active (map (fun n => mkNode (node_id n) true) ns)
  = map (fun n => mkNode (node_id n) true) ns.
Proof. induction ns as [|n ns IH]; simpl; [done|by rewrite IH]. Qed.

(** X17. A generated topology is taken over with everything switched on:
    all its nodes and links are active, its first node becomes the start
    node, the end node and the packets in flight are dropped, and, unless
    that first node is named ['__proto__'], the routing run that follows
    starts with it at distance [0]. *)
Theorem generated_topology_is_routable (g : GraphData) (s : AppState)
    (first : Node) (rest : list Node) :
  nodes g = first :: rest →
  node_id first ≠ "__proto__" →
  let s' := handleGenerateTopology (Some g) s in
  app_startNode s' = node_id first ∧ app_endNode s' = None ∧ app_packets s' = [] ∧
  activeNodeIds (app_graphData s') = map node_id (nodes g) ∧
  (∀ l, l ∈ links (app_graphData s') → link_active l = true) ∧
  map link_id (links (app_graphData s')) = map link_id (links g) ∧
  map link_weight (links (app_graphData s')) = map link_weight (links g) ∧
  ∃ s0, head (app_steps (runEffect s')) = Some s0 ∧
        distances s0 !! node_id first = Some 0.
Proof.
  intros Hg Hfp. unfold handleGenerateTopology. rewrite Hg. simpl.
  split_and!; try done.
  - unfold activeNodeIds. simpl. rewrite filter_all_active, map_map. done.
  - by intros l' (l & -> & _)%list_elem_of_fmap.
  - by rewrite map_map.
  - by rewrite map_map.
  - match goal with |- context [runAlgorithm ?t ?d ?st] =>
      destruct (runAlgorithm_trace t d st) as (s0 & Hhd & (_ & Hd & _) & _) end.
    exists s0. split; [done|]. rewrite Hd.
    match goal with |- context [initAll ?d ?st] =>
      change (initAll d st) with (initFold st (nodes d)) end.
    apply initFold_all_active.
    + simpl. intros n [->|(m & -> & _)%list_elem_of_fmap]%elem_of_cons; done.
    + simpl. apply list_elem_of_here.
    + done.
Qed.

Lemma generated_topology_is_routable_witness :
  let g := mkGraph [mkNode "x" false; mkNode "y" false] [mkLink "l" "x" "y" 3 false] in
  let s' := handleGenerateTopology (Some g)
              (mkApp INITIAL_GRAPH "A" None false DIJKSTRA [] 0 [] false) in
  app_startNode s' = "x" ∧ app_endNode s' = None ∧ app_packets s' = [] ∧
  activeNodeIds (app_graphData s') = map node_id (nodes g) ∧
  (∀ l, l ∈ links (app_graphData s') → link_active l = true) ∧
  map link_id (links (app_graphData s')) = map link_id (links g) ∧
  map link_weight (links (app_graphData s')) = map link_weight (links g) ∧
  ∃ s0, head (app_steps (runEffect s')) = Some s0 ∧
        distances s0 !! "x" = Some 0.
Proof.
  apply (generated_topology_is_routable
           (mkGraph [mkNode "x" false; mkNode "y" false] [mkLink "l" "x" "y" 3 false])
           (mkApp INITIAL_GRAPH "A" None false DIJKSTRA [] 0 [] false)
           (mkNode "x" false) [mkNode "y" false]).
  - reflexivity.
  - discriminate.
Defined.

(** ** Packets in flight *)

(** With strictly positive weights the forward loop from a target below
    the sentinel ends. *)
Lemma tracePath_from_final (algorithm : AlgorithmType) (data : GraphData)
    (arrived target : string) :
  (∀ l, l ∈ links data → 0 < link_weight l) →
  ∃ st, last (runAlgorithm algorithm data arrived) = Some st ∧
        ((∀ x, distances st !! target = Some x → x < INFINITY) →
         ∃ path,
           (∀ fuel, (enoughFuel ≤ fuel)%nat →
              tracePath fuel (previous st) arrived (Some target) [] = Some path) ∧
           ∀ h, last path = Some h → hopsTo (previous st) arrived target h).
Proof.
  intros Hpos. destruct (final_descending algorithm data arrived Hpos) as (st & Hst & Hdesc).
  exists st. split; [done|]. intros Hlt.
  destruct (tracePath_terminates (distances st) (previous st) arrived
              (Z.to_nat INFINITY) Hdesc target []) as (path & Hrun & Hchar).
  { intros dv Hdv. specialize (Hlt _ Hdv). unfold INFINITY in *. lia. }
  exists path. split; [done|]. intros h Hh.
  destruct Hchar as [[_ ->]|(h' & Hhops & Hlast)]; [done|]. congruence.
Qed.

Lemma routeOnArrival_total (algorithm : AlgorithmType) (data : GraphData)
    (fuel : nat) (p : Packet) (arrived : string) :
  (∀ l, l ∈ links data → 0 < link_weight l) →
  (enoughFuel ≤ fuel)%nat →
  ∃ p', routeOnArrival fuel algorithm data p arrived = Some p' ∧ flow p' = flow p ∧
        (status p' = moving → status p = moving ∧ progress p' == 0).
Proof.
  intros Hpos Hf. unfold routeOnArrival.
  destruct (String.eqb arrived (targetId p)); [by eexists|].
  destruct (tracePath_from_final algorithm data arrived (targetId p) Hpos)
    as (st & -> & Hpath).
  destruct (distances st !! targetId p) as [x|] eqn:Hx.
  - destruct (x >=? INFINITY) eqn:Ex; [by eexists|].
    rewrite Z.geb_leb in Ex. apply Z.leb_gt in Ex.
    destruct Hpath as (path & Hrun & _); [by intros ? [= <-]|]. rewrite (Hrun fuel Hf).
    destruct (last path); [|by eexists]. destruct (find _ _) as [l|]; [|by eexists].
    destruct (link_active l); [|by eexists]. eexists. split_and!; [done..|].
    simpl. intros ->. split; [done|reflexivity].
  - destruct Hpath as (path & Hrun & _); [done|]. rewrite (Hrun fuel Hf).
    destruct (last path); [|by eexists]. destruct (find _ _) as [l|]; [|by eexists].
    destruct (link_active l); [|by eexists]. eexists. split_and!; [done..|].
    simpl. intros ->. split; [done|reflexivity].
Qed.

Lemma updatePacket_total (algorithm : AlgorithmType) (data : GraphData)
    (fuel : nat) (delta : Q) (p : Packet) :
  (∀ l, l ∈ links data → 0 < link_weight l) →
  (enoughFuel ≤ fuel)%nat →
  ∃ p', updatePacket fuel algorithm data delta p = Some p' ∧ flow p' = flow p ∧
        (status p' = moving → status p = moving ∧ (progress p' < 1)%Q).
Proof.
  intros Hpos Hf. unfold updatePacket.
  destruct (status p) eqn:Hs;
    [|eexists; (split_and!; [done..|]); intros ?; congruence..].
  destruct (Qle_bool 1 _) eqn:Hq.
  - destruct (nextHopId p) as [arrived|].
    + destruct (routeOnArrival_total algorithm data fuel p arrived Hpos Hf)
        as (p' & -> & Hflow & Hmov).
      exists p'. split_and!; [done..|]. intros Hm. destruct (Hmov Hm) as [_ H0].
      split; [done|]. by rewrite H0.
    + destruct (_ && _); by eexists.
  - eexists. split_and!; [done..|]. intros _. split; [done|]. simpl.
    apply Qnot_le_lt. intros Hle. apply Qle_bool_iff in Hle. congruence.
Qed.

(** X18. With strictly positive weights an update of the packets always
    completes (the forward loops over the predecessors end), and what it
    leaves in the state are moving packets with progress below 1, each the
    continuation of a packet that was moving before: identifier, source,
    target and speed are kept, the order too. *)
Theorem packets_update_keeps_moving_flows (algorithm : AlgorithmType)
    (graphData : GraphData) (delta : Q) (prevPackets : list Packet) (fuel : nat) :
  (∀ l, l ∈ links graphData → 0 < link_weight l) →
  (enoughFuel ≤ fuel)%nat →
  ∃ packets,
    updatePackets fuel algorithm graphData delta prevPackets = Some packets ∧
    Forall (fun p => status p = moving ∧ (progress p < 1)%Q) packets ∧
    map flow packets `sublist_of` map flow (List.filter isMoving prevPackets).
Proof.
  intros Hpos Hf. unfold updatePackets.
  induction prevPackets as [|p ps (qs & Hqs & Hall & Hsub)]; [by exists []|].
  destruct (mapM _ ps) as [ms|] eqn:Hms; [|done]. simpl in Hqs. injection Hqs as <-.
  destruct (updatePacket_total algorithm graphData fuel delta p Hpos Hf)
    as (p' & Hp' & Hflow & Hmov).
  simpl. rewrite Hp'. simpl. rewrite Hms. simpl.
  eexists. split; [done|]. destruct (isMoving p') eqn:Hm'.
  - assert (Hs' : status p' = moving) by (unfold isMoving in Hm'; by destruct (status p')).
    destruct (Hmov Hs') as [Hs Hlt].
    assert (isMoving p = true) as -> by (unfold isMoving; by rewrite Hs).
    split; [by constructor|]. simpl. rewrite Hflow. by constructor.
  - split; [done|]. destruct (isMoving p); [simpl; by constructor|done].
Qed.

Lemma packets_update_keeps_moving_flows_witness :
  ∃ packets,
    updatePackets enoughFuel DIJKSTRA detourGraph 1 [detourPacket; transitPacket]
      = Some packets ∧
    Forall (fun p => status p = moving ∧ (progress p < 1)%Q) packets ∧
    map flow packets `sublist_of`
      map flow (List.filter isMoving [detourPacket; transitPacket]).
Proof.
  apply (packets_update_keeps_moving_flows DIJKSTRA detourGraph 1
           [detourPacket; transitPacket] enoughFuel).
  - intros l Hl. repeat (apply elem_of_cons in Hl as [->|Hl]; [simpl; lia|]).
    by apply elem_of_nil in Hl.
  - reflexivity.
Defined.

Lemma hopsTo_end prevMap arrived c h :
  hopsTo prevMap arrived c h → truthy h = true ∧ h ≠ arrived.
Proof. induction 1; done. Qed.

Lemma spawnPacket_total (algorithm : AlgorithmType) (data : GraphData)
    (fuel : nat) (dr : Draw) :
  (∀ l, l ∈ links data → 0 < link_weight l) →
  (enoughFuel ≤ fuel)%nat →
  validDraw data dr →
  ∃ r, spawnPacket fuel algorithm data dr = Some r ∧
       ∀ p, r = Some p →
            freshPacket data p ∧ packet_id p = draw_id dr ∧ speed p = draw_speed dr.
Proof.
  intros Hpos Hf (Hne & Hs & Ht). unfold spawnPacket.
  apply Nat.eqb_neq in Hne. rewrite Hne.
  apply lookup_lt_is_Some in Hs as [src Hsrc]. apply lookup_lt_is_Some in Ht as [tgt Htgt].
  rewrite Hsrc, Htgt.
  assert (Hsa : node_id src ∈ activeNodeIds data).
  { apply list_elem_of_fmap_2. by eapply list_elem_of_lookup_2. }
  assert (Hta : node_id tgt ∈ activeNodeIds data).
  { apply list_elem_of_fmap_2. by eapply list_elem_of_lookup_2. }
  destruct (tracePath_from_final algorithm data (node_id src) (node_id tgt) Hpos)
    as (st & -> & Hpath).
  assert (Hgo : (∀ x, distances st !! node_id tgt = Some x → x < INFINITY) →
    ∃ r, match tracePath fuel (previous st) (node_id src) (Some (node_id tgt)) [] with
         | Some path =>
             match last path with
             | Some nextHop =>
                 match find (connects (node_id src) nextHop) (links data) with
                 | Some link =>
                     Some (Some (mkPacket (draw_id dr) (node_id src) (node_id tgt)
                                   (Some (link_id link)) (node_id src)
                                   (Some nextHop) 0%Q (draw_speed dr) moving))
                 | None => Some None
                 end
             | None => Some None
             end
         | None => None
         end = Some r ∧
         ∀ p, r = Some p →
              freshPacket data p ∧ packet_id p = draw_id dr ∧ speed p = draw_speed dr).
  { intros Hlt. destruct (Hpath Hlt) as (path & Hrun & Hlast). rewrite (Hrun fuel Hf).
    destruct (last path) as [h|]; [|by eexists].
    destruct (find _ _) as [l|] eqn:Hfind; [|by eexists].
    eexists. split; [done|]. intros p [= <-].
    destruct (hopsTo_end _ _ _ _ (Hlast h eq_refl)) as [_ Hh].
    split_and!; [|done..]. unfold freshPacket. simpl. split_and!; [done..|].
    exists l, h. done. }
  destruct (distances st !! node_id tgt) as [x|] eqn:Hx.
  - destruct (x >=? INFINITY) eqn:Ex; [by eexists|].
    rewrite Z.geb_leb in Ex. apply Z.leb_gt in Ex. apply Hgo. by intros ? [= <-].
  - by apply Hgo.
Qed.

(** X19. With strictly positive weights, sending traffic always completes.
    It keeps the packets in flight and appends at most one packet per
    draw, in the order of the draws, each a moving packet at progress [0]
    on its (active) source node, bound for an active target, and placed on
    the first link the topology lists between the source and the next hop,
    a node other than the source. *)
Theorem send_traffic_adds_fresh_packets (fuel : nat) (draws : list Draw)
    (s : AppState) :
  (∀ l, l ∈ links (app_graphData s) → 0 < link_weight l) →
  (enoughFuel ≤ fuel)%nat →
  Forall (validDraw (app_graphData s)) draws →
  ∃ s' newPackets,
    handleSendTraffic fuel draws s = Some s' ∧
    app_packets s' = app_packets s ++ newPackets ∧
    app_graphData s' = app_graphData s ∧
    Forall (freshPacket (app_graphData s)) newPackets ∧
    map (fun p => (packet_id p, speed p)) newPackets
      `sublist_of` map (fun dr => (draw_id dr, draw_speed dr)) draws.
Proof.
  intros Hpos Hf Hdraws. unfold handleSendTraffic.
  destruct (_ <? 2)%nat eqn:E.
  { destruct draws as [|dr ?].
    - exists s, []. by rewrite app_nil_r.
    - apply Forall_cons in Hdraws as [(Hne & H1 & H2) _]. apply Nat.ltb_lt in E. lia. }
  clear E.
  assert (Hmap : ∃ rs, mapM (spawnPacket fuel (app_algorithm s) (app_graphData s)) draws
                       = Some rs ∧
                       Forall (freshPacket (app_graphData s)) (omap id rs) ∧
                       map (fun p => (packet_id p, speed p)) (omap id rs)
                         `sublist_of` map (fun dr => (draw_id dr, draw_speed dr)) draws).
  { induction Hdraws as [|dr draws Hdr _ (rs & Hrs & Hall & Hsub)]; [by exists []|].
    destruct (spawnPacket_total (app_algorithm s) (app_graphData s) fuel dr Hpos Hf Hdr)
      as (r & Hr & Hfresh).
    exists (r :: rs). simpl. rewrite Hr. simpl. rewrite Hrs. simpl. split; [done|].
    destruct r as [p|]; simpl.
    - destruct (Hfresh p eq_refl) as (? & -> & ->). split; by constructor.
    - split; [done|]. by constructor. }
  destruct Hmap as (rs & -> & Hall & Hsub). simpl.
  eexists _, (omap id rs). split_and!; done.
Qed.

Lemma send_traffic_adds_fresh_packets_witness :
  let s := mkApp INITIAL_GRAPH "A" None false DIJKSTRA [] 0 [transitPacket] false in
  let draws := [mkDraw 0 5 "p1" (3 # 4); mkDraw 4 1 "p2" 1] in
  ∃ s' newPackets,
    handleSendTraffic enoughFuel draws s = Some s' ∧
    app_packets s' = app_packets s ++ newPackets ∧
    app_graphData s' = app_graphData s ∧
    Forall (freshPacket (app_graphData s)) newPackets ∧
    map (fun p => (packet_id p, speed p)) newPackets
      `sublist_of` map (fun dr => (draw_id dr, draw_speed dr)) draws.
Proof.
  apply (send_traffic_adds_fresh_packets enoughFuel
           [mkDraw 0 5 "p1" (3 # 4); mkDraw 4 1 "p2" 1]
           (mkApp INITIAL_GRAPH "A" None false DIJKSTRA [] 0 [transitPacket] false)).
  - apply INITIAL_GRAPH_positive.
  - reflexivity.
  - repeat constructor; simpl; lia.
Defined.

(** ** The displayed path, on any step *)



(** The forward loop of the packets walks the displayed path backwards. *)
Lemma walkBack_tracePath fuel g prevMap startNode ws :
  truthy (ws_curr ws) = true →
  head (ws_nodePath ws) = Some (ws_curr ws) →
  ws_curr (walkBack fuel g prevMap startNode ws) = startNode →
  ∃ path,
    (∀ fuelT acc, (fuel < fuelT)%nat →
       tracePath fuelT prevMap startNode (Some (ws_curr ws)) acc = Some (acc ++ path)) ∧
    ws_nodePath (walkBack fuel g prevMap startNode ws)
      = startNode :: rev path ++ tail (ws_nodePath ws).
Proof.
  revert ws. induction fuel as [|fuel IH]; intros ws Ht Hhd Hend.
  - simpl in *. exists []. split.
    + intros [|fuelT] acc Hf; [lia|]. simpl.
      rewrite Hend, String.eqb_refl, andb_false_r. by rewrite app_nil_r.
    + simpl. destruct (ws_nodePath ws); simpl in *; congruence.
  - simpl in *.
    assert (Hstop : ws_curr ws = startNode →
              ∃ path,
                (∀ fuelT acc, (S fuel < fuelT)%nat →
                   tracePath fuelT prevMap startNode (Some (ws_curr ws)) acc
                     = Some (acc ++ path)) ∧
                ws_nodePath ws = startNode :: rev path ++ tail (ws_nodePath ws)).
    { intros E. exists []. split.
      - intros [|fuelT] acc Hf; [lia|]. simpl.
        rewrite E, String.eqb_refl, andb_false_r. by rewrite app_nil_r.
      - simpl. destruct (ws_nodePath ws); simpl in *; congruence. }
    destruct (String.eqb (ws_curr ws) startNode) eqn:Ecur; simpl in *; [by apply Hstop|].
    destruct (ws_safety ws <? length (nodes g))%nat; [|by apply Hstop].
    destruct (prevMap !! ws_curr ws) as [[prev|]|] eqn:Hp; [|by apply Hstop..].
    destruct (truthy prev) eqn:Htp; [|by apply Hstop].
    match type of Hend with
    | ws_curr (walkBack _ _ _ _ ?w) = _ =>
        destruct (IH w Htp eq_refl Hend) as (path & Hrun & Hnp)
    end.
    simpl in *.
    exists (ws_curr ws :: path). split.
    + intros [|fuelT] acc Hf; [lia|]. simpl. rewrite Ht, Ecur, Hp. simpl.
      rewrite Hrun by lia. by rewrite <- app_assoc.
    + rewrite Hnp. simpl. rewrite <- app_assoc. simpl.
      destruct (ws_nodePath ws); simpl in *; congruence.
Qed.

(** X21. Packets follow the displayed path.  Whenever the path shown for a
    target reaches the start node, the forward loop that routes a packet
    from the start node to that target ends within [nodes.length + 1]
    turns, and the nodes it collects are the displayed path without the
    start node, read backwards: the packet's next hop is the node shown
    right after the start node. *)
Theorem packets_follow_displayed_path (graphData : GraphData)
    (currentStep : SimulationStep) (startNode endNode : string) :
  truthy endNode = true →
  ws_curr (reconstruct graphData currentStep startNode endNode) = startNode →
  ∃ path,
    (∀ fuel, (length (nodes graphData) < fuel)%nat →
       tracePath fuel (previous currentStep) startNode (Some endNode) [] = Some path) ∧
    ws_nodePath (reconstruct graphData currentStep startNode endNode)
      = startNode :: rev path.
Proof.
  intros Ht Hend. unfold reconstruct in *.
  destruct (walkBack_tracePath (length (nodes graphData)) graphData
              (previous currentStep) startNode (mkWalk endNode [] [endNode] 0) Ht eq_refl Hend)
    as (path & Hrun & Hnp).
  exists path. split.
  - intros fuel Hf. exact (Hrun fuel [] Hf).
  - rewrite Hnp. simpl. by rewrite app_nil_r.
Qed.

Lemma packets_follow_displayed_path_witness :
  let st := default cycleStep (last (runAlgorithm DIJKSTRA INITIAL_GRAPH "A")) in
  ∃ path,
    (∀ fuel, (length (nodes INITIAL_GRAPH) < fuel)%nat →
       tracePath fuel (previous st) "A" (Some "F") [] = Some path) ∧
    ws_nodePath (reconstruct INITIAL_GRAPH st "A" "F") = "A" :: rev path.
Proof.
  apply (packets_follow_displayed_path INITIAL_GRAPH
           (default cycleStep (last (runAlgorithm DIJKSTRA INITIAL_GRAPH "A"))) "A" "F").
  - reflexivity.
  - vm_compute. reflexivity.
Defined.

(** ** The order in which Dijkstra visits *)

Lemma relaxNeighbor_visited_same act cur st l x :
  x ∈ ds_visited st →
  ds_distances (relaxNeighbor act cur st l) !! x = ds_distances st !! x.
Proof.
  intros Hx. unfold relaxNeighbor. destruct (negb _); [done|].
  destruct (set_has _ (ds_visited st)) eqn:E; [done|]. apply set_has_false in E.
  destruct (ds_distances st !! cur); [|done].
  destruct (ds_distances st !! neighborOf cur l); [|done].
  destruct (_ <? _); [|done]. simpl. apply lookup_insert_ne. by intros <-.
Qed.

Lemma fold_relaxNeighbor_visited_same data cur ls st x :
  x ∈ ds_visited st →
  ds_distances (fold_left (relaxNeighbor (activeNodeIds data) cur) ls st) !! x
    = ds_distances st !! x.
Proof.
  revert st. induction ls as [|l ls IH]; intros st Hx; simpl; [done|].
  rewrite IH.
  - by apply relaxNeighbor_visited_same.
  - by rewrite (proj1 (relaxNeighbor_sets data cur st l)).
Qed.

Lemma visitNode_inOrder data start lks cur m st :
  dijkInv data start st → cur ∈ ds_unvisited st →
  visitedInOrder (ds_distances st) (ds_visited st) →
  visitedInOrder (ds_distances (visitNode (activeNodeIds data) lks cur m st))
    (ds_visited (visitNode (activeNodeIds data) lks cur m st)).
Proof.
  intros Hi Hcur Hord. unfold visitNode.
  set (st1 := mkDState _ _ _ _ _).
  assert (Hfresh : cur ∉ ds_visited st) by (intros H; by apply (di_disj _ _ _ Hi) in H).
  assert (Hvis : ds_visited st1 = ds_visited st ++ [cur]).
  { simpl. unfold set_add. apply set_has_false in Hfresh. by rewrite Hfresh. }
  rewrite (proj1 (fold_relaxNeighbor_sets data cur _ st1)), Hvis.
  intros i j x y dx dy Hij Hx Hy Hdx Hdy.
  assert (Hin : ∀ k z, (ds_visited st ++ [cur]) !! k = Some z → z ∈ ds_visited st1).
  { intros k z Hk. rewrite Hvis. by eapply list_elem_of_lookup_2. }
  rewrite fold_relaxNeighbor_visited_same in Hdx by by eapply Hin.
  rewrite fold_relaxNeighbor_visited_same in Hdy by by eapply Hin.
  simpl in Hdx, Hdy.
  destruct (decide (j < length (ds_visited st))%nat) as [Hj|Hj].
  - rewrite lookup_app_l in Hx, Hy by lia. by apply (Hord i j x y).
  - pose proof (lookup_lt_Some _ _ _ Hy) as Hlt. rewrite length_app in Hlt. simpl in Hlt.
    assert (j = length (ds_visited st)) as -> by lia.
    rewrite lookup_app_r, Nat.sub_diag in Hy by lia. injection Hy as <-.
    destruct (decide (i < length (ds_visited st))%nat) as [Hi'|Hi'].
    + rewrite lookup_app_l in Hx by lia.
      apply (di_order _ _ _ Hi x cur); [by eapply list_elem_of_lookup_2|done..].
    + assert (i = length (ds_visited st)) as -> by lia.
      rewrite lookup_app_r, Nat.sub_diag in Hx by lia. injection Hx as <-.
      assert (dx = dy) by congruence. lia.
Qed.

Lemma dijkstraLoop_inOrder data start fuel st :
  (∀ l, l ∈ links data → link_active l = true → 0 ≤ link_weight l) →
  (length (ds_unvisited st) ≤ fuel)%nat → outerInv data start st →
  visitedInOrder (ds_distances st) (ds_visited st) →
  let st' := dijkstraLoop fuel (activeNodeIds data)
               (List.filter link_active (links data)) st in
  visitedInOrder (ds_distances st') (ds_visited st').
Proof.
  intros Hw. revert st. induction fuel as [|fuel IH]; intros st Hlen Hinv Hord; simpl.
  - done.
  - destruct (ds_unvisited st) as [|u0 unv] eqn:Hunv; [done|].
    rewrite <- Hunv in *.
    pose proof (findMin_spec (ds_distances st) (ds_unvisited st)) as [Hmin Hsel].
    destruct (findMin (ds_distances st) (ds_unvisited st)) as [[cur|] m]; simpl in *;
      [|done].
    destruct Hsel as (Hcur & Hm & Hlt).
    rewrite bool_decide_eq_false_2 by (rewrite Hm; intros [= ->]; lia).
    destruct (visitNode_outer data start Hw cur m st Hinv Hcur Hm Hlt Hmin)
      as [Hinv' Hunv'].
    apply IH; [|done|].
    + rewrite Hunv'. pose proof (length_set_delete cur (ds_unvisited st) Hcur). lia.
    + apply (visitNode_inOrder data start); [by destruct Hinv|done..].
Qed.

(** X22. With non-negative weights on the active links, Dijkstra visits
    the nodes in non-decreasing order of their final distance: in the final
    step, a node listed earlier in [visitedNodes] is never farther from the
    start node than one listed later. *)
Theorem dijkstra_visits_in_distance_order (data : GraphData) (startNodeId : string)
    (st : SimulationStep) (i j : nat) (x y : string) (dx dy : Z) :
  (∀ l, l ∈ links data → link_active l = true → 0 ≤ link_weight l) →
  last (runAlgorithm DIJKSTRA data startNodeId) = Some st →
  (i ≤ j)%nat →
  visitedNodes st !! i = Some x → visitedNodes st !! j = Some y →
  distances st !! x = Some dx → distances st !! y = Some dy →
  dx ≤ dy.
Proof.
  intros Hw Hlast. revert i j x y dx dy. change (visitedInOrder (distances st) (visitedNodes st)).
  simpl in Hlast.
  destruct (init_zero_or_all_unreachable data startNodeId) as [H0|Hall].
  - rewrite (runDijkstra_final data startNodeId H0), last_snoc in Hlast.
    injection Hlast as <-. simpl.
    apply (dijkstraLoop_inOrder data startNodeId); [done..| |].
    + apply (outerInv_init data startNodeId H0).
    + by intros i j x y dx dy _ ?.
  - assert (visitedNodes st = []) as ->; [|by intros i j x y dx dy _ ?].
    unfold runDijkstra in Hlast.
    destruct (initAll data startNodeId) as [[d p] unv]. simpl in Hall.
    destruct (negb _); simpl in Hlast; [by injection Hlast as <-|].
    rewrite last_snoc, dijkstraLoop_all_unreachable in Hlast by done.
    by injection Hlast as <-.
Qed.

Lemma dijkstra_visits_in_distance_order_witness :
  let st := default cycleStep (last (runAlgorithm DIJKSTRA INITIAL_GRAPH "A")) in
  visitedNodes st !! 1%nat = Some "C" ∧ visitedNodes st !! 3%nat = Some "D" ∧
  distances st !! "C" = Some 2 ∧ distances st !! "D" = Some 8 ∧ 2 ≤ 8.
Proof.
  split_and!; [vm_compute; reflexivity..|].
  apply (dijkstra_visits_in_distance_order INITIAL_GRAPH "A"
           (default cycleStep (last (runAlgorithm DIJKSTRA INITIAL_GRAPH "A")))
           1 3 "C" "D" 2 8).
  - intros l Hl _. pose proof (INITIAL_GRAPH_positive l Hl). lia.
  - vm_compute. reflexivity.
  - lia.
  - vm_compute. reflexivity.
  - vm_compute. reflexivity.
  - vm_compute. reflexivity.
  - vm_compute. reflexivity.
Defined.

(** ** Forwarding makes progress *)

(** The nodes met by the forward loop lie on a shortest path: from the
    last one met, the node the loop started from is reached by a path whose
    weight is the difference of the two entries. *)
Lemma hopsTo_walk data a d p c h :
  (∀ l, l ∈ links data → link_active l = true → 0 ≤ link_weight l) →
  convergedTables data a d p →
  hopsTo p a c h →
  ∀ dc, d !! c = Some dc → dc < INFINITY →
        ∃ k dh, d !! h = Some dh ∧ walk data h k c (dc - dh).
Proof.
  intros Hw Hconv. induction 1 as [c Ht Hne Hstop|c x h Ht Hne Hx Hhops IH]; intros dc Hdc Hlt.
  - exists 0%nat, dc. split; [done|]. rewrite Z.sub_diag. apply walk_start.
    destruct (ti_sound _ _ _ _ (proj1 Hconv) _ _ Hdc Hlt) as [k Hk].
    by apply walk_routable in Hk.
  - assert (Hpx : p !! c = Some (Some x))
      by (destruct (p !! c) as [[?|]|]; simpl in Hx; congruence).
    destruct (converged_prev_tight data a d p c x Hw Hconv Hpx)
      as (l & du & dv & Hl & Hact & Hj & Hxa & Hca & Hdu & Hdv & Heq & Hdu0 & Hdvlt).
    assert (dv = dc) as -> by congruence. pose proof (Hw l Hl Hact).
    destruct (IH du Hdu) as (k & dh & Hdh & Hwalk); [lia|].
    exists (S k), dh. split; [done|].
    replace (dc - dh) with (du - dh + link_weight l) by lia.
    eapply walk_step; [done|]. exists l.
    split_and!; [done..| |]; by eapply tablesInv_held; [apply Hconv|..].
Qed.

(** X23. Forwarding is loop-free.  On a topology with unique node
    identifiers and strictly positive weights, a moving packet that arrives
    at a node other than its target (a node of the topology, not named
    ['__proto__']) is always updated, and if it is still moving afterwards,
    the next hop it is sent to is strictly closer to the target than the
    node it arrived at: the final distance to the target computed from the
    next hop is below the one computed from the arrival node. *)
Theorem forwarding_gets_closer (algorithm : AlgorithmType) (graphData : GraphData)
    (delta : Q) (p : Packet) (arrivedNodeId : string) (fuel : nat) :
  NoDup (map node_id (nodes graphData)) →
  (∀ l, l ∈ links graphData → 0 < link_weight l) →
  targetId p ∈ map node_id (nodes graphData) →
  targetId p ≠ "__proto__" →
  status p = moving →
  nextHopId p = Some arrivedNodeId →
  Qle_bool 1 (progress p + speed p * delta) = true →
  arrivedNodeId ≠ targetId p →
  (enoughFuel ≤ fuel)%nat →
  ∃ p', updatePacket fuel algorithm graphData delta p = Some p' ∧
        (status p' = moving →
         ∃ h sa sh da dh,
           nextHopId p' = Some h ∧ currentNodeId p' = arrivedNodeId ∧
           last (runAlgorithm algorithm graphData arrivedNodeId) = Some sa ∧
           last (runAlgorithm algorithm graphData h) = Some sh ∧
           distances sa !! targetId p = Some da ∧
           distances sh !! targetId p = Some dh ∧
           dh < da).
Proof.
  intros Hnd Hpos Htgt Htp Hmoving Hnext Hprog Hne Hf.
  assert (Hw : ∀ l, l ∈ links graphData → link_active l = true → 0 ≤ link_weight l).
  { intros l Hl _. specialize (Hpos l Hl). lia. }
  unfold updatePacket. rewrite Hmoving, Hprog, Hnext. unfold routeOnArrival.
  apply String.eqb_neq in Hne. rewrite Hne.
  destruct (tracePath_from_final algorithm graphData arrivedNodeId (targetId p) Hpos)
    as (st & Hst & Hpath).
  rewrite Hst.
  destruct (final_step_cases algorithm graphData arrivedNodeId Hw) as (st' & Hst' & Hcases).
  assert (st' = st) as -> by congruence.
  assert (Hin : st ∈ runAlgorithm algorithm graphData arrivedNodeId).
  { rewrite last_lookup in Hst. apply list_elem_of_lookup. eauto. }
  destruct (proj2 (proj1 (keysAreNodes_all_steps _ _ _ _ Hin (targetId p))) (conj Htgt Htp))
    as [x Hx].
  rewrite Hx. destruct (x >=? INFINITY) eqn:Ex; [by eexists|].
  rewrite Z.geb_leb in Ex. apply Z.leb_gt in Ex.
  destruct Hcases as [Hconv|[Hall _]]; [|specialize (Hall _ _ Hx); lia].
  destruct Hpath as (path & Hrun & Hlast);
    [intros x0 Hx0; assert (x0 = x) by congruence; lia|].
  rewrite (Hrun fuel Hf).
  destruct (last path) as [h|] eqn:Hh; [|by eexists].
  destruct (find _ _) as [l|]; [|by eexists].
  destruct (link_active l); [|by eexists].
  eexists. split; [done|]. intros _. simpl.
  specialize (Hlast h eq_refl).
  destruct (hopsTo_walk graphData arrivedNodeId _ _ _ _ Hw Hconv Hlast x Hx Ex)
    as (k & dh & Hdh & Hwalk).
  destruct (hopsTo_end _ _ _ _ Hlast) as [_ Hha].
  pose proof (walk_nonneg graphData h Hw _ _ _ Hwalk) as Hnn.
  assert (0 < dh).
  { destruct (ti_prev_some _ _ _ _ (proj1 Hconv) h dh Hdh) as [u Hu]; [lia|done|].
    destruct (converged_prev_tight graphData arrivedNodeId _ _ h u Hw Hconv Hu)
      as (l' & du & dv & Hl' & _ & _ & _ & _ & _ & Hdv & Heq & Hdu0 & _).
    specialize (Hpos l' Hl'). assert (dv = dh) by congruence. lia. }
  destruct (final_distance_characterised algorithm graphData h (targetId p) Hnd Hw Htgt Htp)
    as (sh & y & Hsh & Hy & _ & Hylow & _).
  specialize (Hylow _ _ Hwalk).
  exists h, st, sh, x, y. split_and!; [done..|lia].
Qed.

Lemma forwarding_gets_closer_witness :
  ∃ p', updatePacket enoughFuel DIJKSTRA INITIAL_GRAPH 1
          (mkPacket "p" "A" "F" (Some "AC") "A" (Some "C") (1 # 2) 1 moving) = Some p' ∧
        (status p' = moving →
         ∃ h sa sh da dh,
           nextHopId p' = Some h ∧ currentNodeId p' = "C" ∧
           last (runAlgorithm DIJKSTRA INITIAL_GRAPH "C") = Some sa ∧
           last (runAlgorithm DIJKSTRA INITIAL_GRAPH h) = Some sh ∧
           distances sa !! "F" = Some da ∧
           distances sh !! "F" = Some dh ∧
           dh < da).
Proof.
  apply (forwarding_gets_closer DIJKSTRA INITIAL_GRAPH 1
           (mkPacket "p" "A" "F" (Some "AC") "A" (Some "C") (1 # 2) 1 moving) "C" enoughFuel).
  - apply (bool_decide_unpack _). vm_compute. exact I.
  - apply INITIAL_GRAPH_positive.
  - apply (bool_decide_unpack _). vm_compute. exact I.
  - discriminate.
  - reflexivity.
  - reflexivity.
  - reflexivity.
  - discriminate.
  - reflexivity.
Defined.
